(** * Reactive Convex queries for Nuxt

    The token coordinator, the one-shot query, the subscription bridge of
    [useConvexQuery], the value helpers, the cookie helpers, the instance
    identifiers and the auth proxy, embedded from the sources and
    verified.

    - [src/runtime/plugin.client.ts]: [fetchToken], module [PluginClient];
    - unnamed part 002, a slimmer copy of the same plugin: [fetchToken],
      module [PluginSlim];
    - [src/runtime/composables/useConvexQuery.ts]: modules [OneShot],
      [Binding] and [Lifecycle];
    - [src/runtime/composables/useConvexStorageUrl.ts]: module
      [StorageUrl];
    - [src/runtime/utils/shared-helpers.ts]: [deepEqual] and
      [compareJsonValues], module [Json]; [argsMatch], module [Args];
      [getInstanceId] and [generatePaginationId], module [Instances];
      [parseCookies], [getCookie] and [hasCookie], module [Cookies];
    - unnamed part 001: [isOriginAllowed] and the handler of the auth
      route, module [AuthProxy];
    - [src/runtime/utils/types.ts]: [DEFAULT_TOKEN_CACHE_TTL_MS];
    - [src/runtime/types.d.ts]: the shape of the subscription cache.

    The definitions come first, module by module; the facts about them
    follow in the same order. *)

From Stdlib Require Import ZArith List String Ascii Bool Lia DecimalString.
From stdpp Require Import gmap strings.

Import ListNotations.
Local Open Scope string_scope.
Local Open Scope Z_scope.


(** JavaScript truthiness of a [string | null] cell: [null] and the empty
    string are falsy, every other string is truthy. *)
Definition truthy (t : option string) : bool :=
  match t with
  | Some s => negb (String.eqb s EmptyString)
  | None => false
  end.

(** Truthiness of the [convex:user] cell: a stored snapshot is an object,
    hence truthy; [null] and [undefined] are falsy. *)
Definition known {A : Type} (u : option A) : bool :=
  match u with
  | Some _ => true
  | None => false
  end.

(** * The token coordinator *)

(** [src/runtime/utils/types.ts], line 47. *)
Definition DEFAULT_TOKEN_CACHE_TTL_MS : Z := 10000.

(** The lightweight identity snapshot kept in [useState('convex:user')]. *)
Record ConvexUser := mkUser {
  user_id : string;
  user_name : string;
  user_email : string
}.

(** What [authClient.convex.token()] does when it is awaited: the promise
    rejects, or it resolves to [{ data, error }].  [resp_error] is the
    truthiness of [response.error]; [resp_token] is [response.data?.token]
    ([None] when [data] is null or carries no token). *)
Inductive TokenResponse :=
| Rejects
| Resolves (resp_error : bool) (resp_token : option string).

(** The cells [fetchToken] closes over, and a counter of the calls made to
    [authClient.convex.token()]. *)
Record AuthState := mkAuth {
  convexToken : option string;
  convexUser : option ConvexUser;
  lastTokenValidation : Z;
  networkCalls : nat
}.

(** Both copies of the plugin read [Date.now()] once on entry ([now]) and,
    on the success path, once more after the awaited fetch ([later]). *)

Module PluginClient.

(** [plugin.client.ts], line 109. *)
Definition TOKEN_CACHE_MS : Z := 10000.

(** Lines 153-174: the best-effort decoding of the JWT payload runs only
    while no user is known; [decode] stands for
    [JSON.parse(atob(token.split('.')[1]))] followed by the test on
    [sub], [userId] and [email], and is [None] whenever any step fails
    or throws (the inner [catch] swallows it). *)
Definition extractUser (decode : string -> option ConvexUser)
    (user : option ConvexUser) (token : string) : option ConvexUser :=
  match user with
  | Some u => Some u
  | None => decode token
  end.

(** Lines 111-183. *)
Definition fetchToken (decode : string -> option ConvexUser)
    (forceRefreshToken : bool) (now later : Z) (response : TokenResponse)
    (st : AuthState) : AuthState * option string :=
  if truthy (convexToken st) && negb forceRefreshToken then
    (mkAuth (convexToken st) (convexUser st) now (networkCalls st),
     convexToken st)
  else
    let timeSinceValidation := now - lastTokenValidation st in
    if truthy (convexToken st) && forceRefreshToken
       && (timeSinceValidation <? TOKEN_CACHE_MS) then
      (st, convexToken st)
    else
      let calls := S (networkCalls st) in
      match response with
      | Rejects =>
          (mkAuth None None (lastTokenValidation st) calls, None)
      | Resolves err tok =>
          if err || negb (truthy tok) then
            (mkAuth None None (lastTokenValidation st) calls, None)
          else
            match tok with
            | Some token =>
                (mkAuth (Some token)
                        (extractUser decode (convexUser st) token)
                        later calls,
                 Some token)
            | None =>
                (mkAuth None None (lastTokenValidation st) calls, None)
            end
      end.

End PluginClient.

Module PluginSlim.

(** Part 002, line 71. *)
Definition TOKEN_CACHE_MS : Z := 10000.

(** Part 002, lines 73-107. *)
Definition fetchToken
    (forceRefreshToken : bool) (now later : Z) (response : TokenResponse)
    (st : AuthState) : AuthState * option string :=
  if truthy (convexToken st) && negb forceRefreshToken then
    (mkAuth (convexToken st) (convexUser st) now (networkCalls st),
     convexToken st)
  else
    let timeSinceValidation := now - lastTokenValidation st in
    if truthy (convexToken st) && forceRefreshToken
       && (timeSinceValidation <? TOKEN_CACHE_MS) then
      (st, convexToken st)
    else if negb (truthy (convexToken st)) && negb (known (convexUser st)) then
      (st, None)
    else
      let calls := S (networkCalls st) in
      match response with
      | Rejects =>
          (mkAuth None (convexUser st) (lastTokenValidation st) calls, None)
      | Resolves err tok =>
          if err || negb (truthy tok) then
            (mkAuth None (convexUser st) (lastTokenValidation st) calls, None)
          else
            (mkAuth tok (convexUser st) later calls, tok)
      end.

End PluginSlim.


(** A fetch that did not produce a usable token: the promise rejected, the
    response carries an error, or [response.data?.token] is missing or
    empty (plugin.client.ts line 140, part 002 line 96). *)
Definition fetchFailed (response : TokenResponse) : bool :=
  match response with
  | Rejects => true
  | Resolves err tok => err || negb (truthy tok)
  end.


(** ** Sessions for the examples *)

(** A session validated at time 0 that holds the token "jwt". *)
Definition cachedSession : AuthState := mkAuth (Some "jwt") None 0 0.

Definition ada : ConvexUser := mkUser "u1" "Ada" "ada@example.org".

(** ** Series of calls

    The Convex client calls [fetchToken] again and again over a session
    (on [setAuth], on refresh, on reconnection): a call is its
    [forceRefreshToken] flag, the two clock readings, and what the auth
    server would answer if it were asked. *)
Record Call := mkCall {
  callForce : bool;
  callNow : Z;
  callLater : Z;
  callResponse : TokenResponse
}.

(** The calls made one after the other on the cells, with what each
    returned. *)
Fixpoint clientCalls (decode : string -> option ConvexUser)
    (calls : list Call) (st : AuthState) : AuthState * list (option string) :=
  match calls with
  | [] => (st, [])
  | c :: rest =>
      let '(st1, result) :=
        PluginClient.fetchToken decode (callForce c) (callNow c)
          (callLater c) (callResponse c) st in
      let '(st2, results) := clientCalls decode rest st1 in
      (st2, result :: results)
  end.

Fixpoint slimCalls (calls : list Call) (st : AuthState)
    : AuthState * list (option string) :=
  match calls with
  | [] => (st, [])
  | c :: rest =>
      let '(st1, result) :=
        PluginSlim.fetchToken (callForce c) (callNow c) (callLater c)
          (callResponse c) st in
      let '(st2, results) := slimCalls rest st1 in
      (st2, result :: results)
  end.

(** A forced call made less than the window after the last validation. *)
Definition forcedWithin (window last : Z) (c : Call) : bool :=
  callForce c && (callNow c - last <? window).

(** The clock reading at which a call returned: after the awaited fetch
    when it went to the network, on entry otherwise. *)
Definition returnedAt (before after : AuthState) (now later : Z) : Z :=
  if Nat.eqb (networkCalls after) (networkCalls before) then now else later.

(** * The one-shot query over the live transport

    [executeQueryViaSubscription], useConvexQuery.ts lines 78-93.  The
    function opens [convex.onUpdate] with a callback and returns a promise;
    the updates of the feed reach the callback after [onUpdate] has
    returned its [unsubscribe] function. *)

Module OneShot.

(** What a run of the callback does to the outside: it calls the
    [unsubscribe] function that [onUpdate] returned, and it calls the
    promise's [resolve]. *)
Inductive Effect (R : Type) :=
| CallUnsubscribe
| CallResolve (result : R).
Arguments CallUnsubscribe {R}.
Arguments CallResolve {R} result.

(** The closure's [resolved] flag and the effects performed so far. *)
Record State (R : Type) := mkState {
  resolved : bool;
  effects : list (Effect R)
}.
Arguments mkState {R} resolved effects.
Arguments resolved {R} s.
Arguments effects {R} s.

(** Line 84: [let resolved = false]. *)
Definition start {R : Type} : State R := mkState false [].

(** Lines 85-91, the callback: [if (!resolved) { resolved = true;
    unsubscribe(); resolve(result) }]. *)
Definition callback {R : Type} (st : State R) (result : R) : State R :=
  if resolved st then st
  else mkState true (effects st ++ [CallUnsubscribe; CallResolve result])%list.

(** The feed delivers its updates in order. *)
Definition deliver {R : Type} (updates : list R) (st : State R) : State R :=
  fold_left callback updates st.

(** A promise is settled by the first call of [resolve]; later calls
    change nothing. *)
Fixpoint settledWith {R : Type} (es : list (Effect R)) : option R :=
  match es with
  | [] => None
  | CallResolve r :: _ => Some r
  | CallUnsubscribe :: rest => settledWith rest
  end.

Fixpoint unsubscribeCalls {R : Type} (es : list (Effect R)) : nat :=
  match es with
  | [] => 0%nat
  | CallUnsubscribe :: rest => S (unsubscribeCalls rest)
  | CallResolve _ :: rest => unsubscribeCalls rest
  end.

(** The whole function, run against a feed. *)
Definition executeQueryViaSubscription {R : Type} (feed : list R) : State R :=
  deliver feed start.

End OneShot.

(** * The subscription cache and the reactive binding

    [useConvexQuery], useConvexQuery.ts lines 122-306, together with the
    cache helpers it imports from [utils/convex-cache]. *)

(** The arguments of a binding: a mapping, or the sentinel ['skip']. *)
Inductive QueryArgs (A : Type) :=
| Skip
| Concrete (args : A).
Arguments Skip {A}.
Arguments Concrete {A} args.

(** What the binding takes from the query reference and from
    [utils/convex-cache]: the function's name ([getFunctionName(query)]),
    and the two string renderings [getQueryKey(query, args)] and
    [stableStringify(args)].  Both renderings are applied to whatever the
    reactive source holds, the sentinel included (lines 276 and 280). *)
Record Query (A : Type) := mkQuery {
  fnName : string;
  getQueryKey : QueryArgs A -> string;
  stableStringify : QueryArgs A -> string
}.
Arguments mkQuery {A} fnName getQueryKey stableStringify.
Arguments fnName {A} q.
Arguments getQueryKey {A} q args.
Arguments stableStringify {A} q args.

(** What the binding does to the outside.  An unsubscribe function
    returned by [convex.onUpdate] is named by a handle; calling it is
    recorded as [Teardown]. *)
Inductive Event (A : Type) :=
| OneShotQuery (args : A)
| ServerAuthToken
| HttpQuery (args : A)
| LiveSubscribe (key : string) (handle : nat)
| Teardown (handle : nat).
Arguments OneShotQuery {A} args.
Arguments ServerAuthToken {A}.
Arguments HttpQuery {A} args.
Arguments LiveSubscribe {A} key handle.
Arguments Teardown {A} handle.

(** The part of [nuxtApp] the binding touches.  [convexSubscriptions] is
    [nuxtApp._convexSubscriptions : Record<string, () => void>]
    (types.d.ts line 11); [convex] tells whether [nuxtApp.$convex] is set;
    [nextHandle] names the next function [convex.onUpdate] returns. *)
Record NuxtApp (A : Type) := mkApp {
  convexSubscriptions : gmap string nat;
  convex : bool;
  trace : list (Event A);
  nextHandle : nat
}.
Arguments mkApp {A} convexSubscriptions convex trace nextHandle.
Arguments convexSubscriptions {A} n.
Arguments convex {A} n.
Arguments trace {A} n.
Arguments nextHandle {A} n.

Definition emit {A : Type} (e : Event A) (app : NuxtApp A) : NuxtApp A :=
  mkApp (convexSubscriptions app) (convex app) (trace app ++ [e])%list
        (nextHandle app).

Definition withSubscriptions {A : Type} (m : gmap string nat)
    (app : NuxtApp A) : NuxtApp A :=
  mkApp m (convex app) (trace app) (nextHandle app).

(** ** The cache helpers *)

(** Modelled from the spec: [hasSubscription] of [utils/convex-cache] is
    not among the sources.  Spec 4.4: [has(key) -> bool]. *)
Definition hasSubscription {A : Type} (app : NuxtApp A) (key : string) : bool :=
  match convexSubscriptions app !! key with
  | Some _ => true
  | None => false
  end.

(** Modelled from the spec: [registerSubscription] of [utils/convex-cache]
    is not among the sources.  Spec 4.4: "stores the entry if absent; if
    present, the call is a no-op (existing subscription wins)". *)
Definition registerSubscription {A : Type} (app : NuxtApp A) (key : string)
    (teardown : nat) : NuxtApp A :=
  match convexSubscriptions app !! key with
  | Some _ => app
  | None => withSubscriptions (<[key := teardown]> (convexSubscriptions app)) app
  end.

(** Modelled from the spec: [cleanupSubscription] of [utils/convex-cache]
    is not among the sources.  Spec 4.4: "invokes the stored teardown (if
    present) and removes the entry; safe to call when absent (no-op)". *)
Definition cleanupSubscription {A : Type} (app : NuxtApp A) (key : string)
    : NuxtApp A :=
  match convexSubscriptions app !! key with
  | Some teardown =>
      emit (Teardown teardown)
           (withSubscriptions (delete key (convexSubscriptions app)) app)
  | None => app
  end.

(** Modelled from the spec: [removeFromSubscriptionCache] of
    [utils/convex-cache] is not among the sources.  Spec 4.4: "removes
    bookkeeping only, used when the teardown was already invoked by the
    caller". *)
Definition removeFromSubscriptionCache {A : Type} (app : NuxtApp A)
    (key : string) : NuxtApp A :=
  withSubscriptions (delete key (convexSubscriptions app)) app.

(** ** The binding *)

Module Binding.

(** The execution context and the options that select a path:
    [import.meta.client], whether [config.public.convex.url] is set,
    [options.subscribe] and [isRef(args)]. *)
Record Env := mkEnv {
  isClient : bool;
  hasUrl : bool;
  subscribe : bool;
  reactiveArgs : bool
}.

(** The closure state of one call of [useConvexQuery]: what [getArgs()]
    returns now, and [unsubscribeFn] (line 226). *)
Record State (A : Type) := mkState {
  args : QueryArgs A;
  unsubscribeFn : option nat
}.
Arguments mkState {A} args unsubscribeFn.
Arguments args {A} s.
Arguments unsubscribeFn {A} s.

(** How a run of the handler given to [useAsyncData] ends its synchronous
    part: it returns [undefined], it throws, or it is suspended on the
    transport it has just called. *)
Inductive Outcome :=
| ReturnsUndefined
| Throws (message : string)
| AwaitsTransport.

(** The four states of a query, spec 2 (QueryState). *)
Inductive Status :=
| Idle
| Pending
| Success
| Error.

(** Modelled from the spec: what is published while a run of the handler
    stands where it does is decided by the host's [useAsyncData], which is
    not among the sources.  Spec 4.6, steps 1 and 2: "if the sentinel
    [skip] is present, state becomes [idle] with no data and no network
    activity"; otherwise "set [pending]" and invoke the one-shot path; "on
    failure [...] set [error]".  Until a value resolves the data shown is
    the caller-supplied default (spec 2, QueryState). *)
Definition published {D : Type} (default : option D) (outcome : Outcome)
    : Status * option D :=
  match outcome with
  | ReturnsUndefined => (Idle, default)
  | AwaitsTransport => (Pending, default)
  | Throws _ => (Error, default)
  end.

(** Lines 154-158. *)
Definition getCacheKey {A : Type} (q : Query A) (a : QueryArgs A) : string :=
  match a with
  | Skip => "convex:skip:" +:+ fnName q
  | Concrete _ => getQueryKey q a
  end.

(** Lines 175-215, the handler given to [useAsyncData], up to the point
    where it first waits for a transport.  On the server it asks
    [fetchAuthToken] for a credential and then posts one HTTP query; on
    the client it opens the one-shot query of [OneShot]. *)
Definition handler {A : Type} (env : Env) (a : QueryArgs A) (app : NuxtApp A)
    : NuxtApp A * Outcome :=
  match a with
  | Skip => (app, ReturnsUndefined)
  | Concrete currentArgs =>
      if negb (hasUrl env) then
        (app, Throws "[useConvexQuery] Convex URL not configured")
      else if negb (isClient env) then
        (emit (HttpQuery currentArgs) (emit ServerAuthToken app),
         AwaitsTransport)
      else if negb (convex app) then
        (app, Throws "[useConvexQuery] Convex client not available")
      else (emit (OneShotQuery currentArgs) app, AwaitsTransport)
  end.

(** Lines 230-266.  [convex.onUpdate] hands back a fresh unsubscribe
    function, which is kept in [unsubscribeFn] and offered to the cache.
    The [catch] around the two calls only logs; [onUpdate] is taken to
    return. *)
Definition setupSubscription {A : Type} (q : Query A) (app : NuxtApp A)
    (b : State A) : NuxtApp A * State A :=
  match args b with
  | Skip => (app, b)
  | Concrete _ =>
      if negb (convex app) then (app, b)
      else
        let currentCacheKey := getCacheKey q (args b) in
        if hasSubscription app currentCacheKey then (app, b)
        else
          let handle := nextHandle app in
          let subscribed :=
            mkApp (convexSubscriptions app) (convex app)
                  (trace app ++ [LiveSubscribe currentCacheKey handle])%list
                  (S handle) in
          (registerSubscription subscribed currentCacheKey handle,
           mkState (args b) (Some handle))
  end.

(** Lines 273-291, the callback of the watcher on [toValue(args)], with
    the two values Vue hands it.  When it runs the reactive source already
    holds [newArgs], which is what [getArgs()] returns from then on. *)
Definition onArgsChange {A : Type} (q : Query A) (newArgs oldArgs : QueryArgs A)
    (app : NuxtApp A) (b : State A) : NuxtApp A * State A :=
  if String.eqb (stableStringify q newArgs) (stableStringify q oldArgs) then
    (app, mkState newArgs (unsubscribeFn b))
  else
    let oldCacheKey := getQueryKey q oldArgs in
    let cleaned := cleanupSubscription app oldCacheKey in
    match newArgs with
    | Skip => (cleaned, mkState newArgs None)
    | Concrete _ => setupSubscription q cleaned (mkState newArgs None)
    end.

(** How the reactive source came to hold other arguments: by a new value
    put in place of the old one (a computed that builds a fresh mapping,
    an assignment to the ref), or by a change made inside the mapping it
    holds. *)
Inductive Change (A : Type) :=
| Replaced (newArgs : QueryArgs A)
| MutatedInPlace (newArgs : QueryArgs A).
Arguments Replaced {A} newArgs.
Arguments MutatedInPlace {A} newArgs.

(** Line 273-275 and 290: the watcher is deep.  After a replacement Vue
    hands the callback the new value and the one it replaced; after a
    change made in place it hands it the same mapping twice. *)
Definition watcherFires {A : Type} (q : Query A) (change : Change A)
    (app : NuxtApp A) (b : State A) : NuxtApp A * State A :=
  match change with
  | Replaced newArgs => onArgsChange q newArgs (args b) app b
  | MutatedInPlace newArgs => onArgsChange q newArgs newArgs app b
  end.

(** Lines 295-302. *)
Definition onUnmounted {A : Type} (q : Query A) (app : NuxtApp A)
    (b : State A) : NuxtApp A * State A :=
  match unsubscribeFn b with
  | Some handle =>
      (emit (Teardown handle)
            (removeFromSubscriptionCache app (getCacheKey q (args b))),
       mkState (args b) None)
  | None => (app, b)
  end.

(** Lines 229 and 269: the bridge is set up on the client when
    [subscribe] is on. *)
Definition mountSubscription {A : Type} (q : Query A) (env : Env)
    (a : QueryArgs A) (app : NuxtApp A) : NuxtApp A * State A :=
  if isClient env && subscribe env then
    setupSubscription q app (mkState a None)
  else (app, mkState a None).

(** Reactive arguments replaced by others, as the composable wired it:
    the source is handed to [useAsyncData] as its [watch] option (line
    221), so the host runs the handler again, once; and the binding's own
    watcher runs (lines 272-292).  Neither is installed unless
    [isRef(args)]; the binding's watcher only on the client with
    [subscribe] on. *)
Definition argsChanged {A : Type} (q : Query A) (env : Env)
    (newArgs : QueryArgs A) (app : NuxtApp A) (b : State A)
    : NuxtApp A * State A * option Outcome :=
  if reactiveArgs env then
    let '(fetched, outcome) := handler env newArgs app in
    if isClient env && subscribe env then
      (watcherFires q (Replaced newArgs) fetched b, Some outcome)
    else (fetched, mkState newArgs (unsubscribeFn b), Some outcome)
  else (app, b, None).

(** Counting, in a trace, the fetches and the live registrations. *)
Definition isFetch {A : Type} (e : Event A) : bool :=
  match e with
  | OneShotQuery _ | HttpQuery _ => true
  | _ => false
  end.

Definition isLiveSubscribe {A : Type} (e : Event A) : bool :=
  match e with
  | LiveSubscribe _ _ => true
  | _ => false
  end.

Definition fetches {A : Type} (t : list (Event A)) : nat :=
  length (List.filter isFetch t).

Definition registrations {A : Type} (t : list (Event A)) : nat :=
  length (List.filter isLiveSubscribe t).

Definition teardowns {A : Type} (h : nat) (t : list (Event A)) : nat :=
  length (List.filter (fun e => match e with
                           | Teardown h' => Nat.eqb h h'
                           | _ => false
                           end) t).

End Binding.

(** ** A concrete query, for the examples

    [api.items.get] with arguments [{ id }]; the identifier stands for the
    whole mapping. *)
Definition renderArgs (a : QueryArgs string) : string :=
  match a with
  | Skip => "skip"
  | Concrete id => "{id:" +:+ id +:+ "}"
  end.

Definition itemsGet : Query string :=
  mkQuery "items:get" (fun a => "convex:items:get:" +:+ renderArgs a) renderArgs.

Definition browser : Binding.Env := Binding.mkEnv true true true true.

(** A fresh client-side application, and one in which another component
    already keeps the live subscription for [{ id: 5 }] (teardown 7). *)
Definition freshApp : NuxtApp string := mkApp ∅ true [] 0.

Definition sharedApp : NuxtApp string :=
  mkApp {[ "convex:items:get:{id:5}" := 7%nat ]} true [] 8.

(** ** The life of one binding

    What a component does with its binding between mount and unmount:
    the bridge is set up (line 269), the watcher runs on every change of
    the reactive arguments (lines 273-291), and the unmount hook runs
    (lines 295-302). *)

Module Lifecycle.

(** The watcher run over a series of argument changes, each of which
    puts a new value in place of the old one. *)
Fixpoint changes {A : Type} (q : Query A) (news : list (QueryArgs A))
    (app : NuxtApp A) (b : Binding.State A) : NuxtApp A * Binding.State A :=
  match news with
  | [] => (app, b)
  | newArgs :: rest =>
      let '(app', b') :=
        Binding.watcherFires q (Binding.Replaced newArgs) app b in
      changes q rest app' b'
  end.

(** Mount, any number of argument changes, unmount. *)
Definition lifetime {A : Type} (q : Query A) (initial : QueryArgs A)
    (news : list (QueryArgs A)) (app : NuxtApp A)
    : NuxtApp A * Binding.State A :=
  let '(app1, b1) :=
    Binding.setupSubscription q app (Binding.mkState initial None) in
  let '(app2, b2) := changes q news app1 b1 in
  Binding.onUnmounted q app2 b2.

Definition isOpen (h : nat) (open : list nat) : bool :=
  existsb (Nat.eqb h) open.

Definition close (h : nat) (open : list nat) : list nat :=
  List.filter (fun h' => negb (Nat.eqb h h')) open.

(** Reads a trace against the live subscriptions open so far.  [None]
    when the trace opens a handle that is already open, or calls an
    unsubscribe function whose subscription is not open (never opened, or
    torn down before); otherwise the handles still open at the end. *)
Fixpoint replay {A : Type} (t : list (Event A)) (open : list nat)
    : option (list nat) :=
  match t with
  | [] => Some open
  | LiveSubscribe _ h :: rest =>
      if isOpen h open then None else replay rest (h :: open)
  | Teardown h :: rest =>
      if isOpen h open then replay rest (close h open) else None
  | _ :: rest => replay rest open
  end.

(** The cache key follows the canonical rendering of the arguments, and
    the sentinel renders unlike any mapping. *)
Definition KeyedByRendering {A : Type} (q : Query A) : Prop :=
  (forall a a', stableStringify q a = stableStringify q a' ->
                getQueryKey q a = getQueryKey q a')
  /\ (forall a, stableStringify q (Concrete a) <> stableStringify q Skip).

(** What holds of a binding alone on its cache between two events: it
    holds a handle exactly when that handle's subscription is the one
    open and the one registered, under the binding's current key. *)
Definition Settled {A : Type} (q : Query A) (app : NuxtApp A)
    (b : Binding.State A) : Prop :=
  match Binding.unsubscribeFn b with
  | Some h =>
      replay (trace app) [] = Some [h]
      /\ (exists a, Binding.args b = Concrete a)
      /\ convexSubscriptions app = {[ Binding.getCacheKey q (Binding.args b) := h ]}
  | None =>
      replay (trace app) [] = Some [] /\ convexSubscriptions app = ∅
  end.

End Lifecycle.

(** ** The URL of a stored file

    [useConvexStorageUrl], useConvexStorageUrl.ts lines 84-98: a binding
    of [useConvexQuery] on a computed mapping [{ storageId }], skipped
    while there is no identifier. *)

Module StorageUrl.

(** Lines 91-94: [id ? { storageId: id } : 'skip'].  The identifier stands
    for the whole mapping. *)
Definition storageArgs (storageId : option string) : QueryArgs string :=
  match storageId with
  | Some id => if truthy storageId then Concrete id else Skip
  | None => Skip
  end.

(** Lines 89-95: the binding is asked for without options, so [subscribe]
    is on, and its arguments are a computed ref. *)
Definition bindingEnv (isClient hasUrl : bool) : Binding.Env :=
  Binding.mkEnv isClient hasUrl true true.

Definition mount (q : Query string) (isClient hasUrl : bool)
    (storageId : option string) (app : NuxtApp string)
    : NuxtApp string * Binding.State string :=
  Binding.mountSubscription q (bindingEnv isClient hasUrl)
    (storageArgs storageId) app.

(** Line 97: [data.value ?? null], with [None] for [null] and
    [undefined]. *)
Definition url (data : option string) : option string := data.

(** What holds of a binding alone on its cache when the client is there:
    it is settled, and it is without a live subscription only while its
    arguments are the sentinel. *)
Definition Live {A : Type} (q : Query A) (app : NuxtApp A)
    (b : Binding.State A) : Prop :=
  Lifecycle.Settled q app b
  /\ convex app = true
  /\ (Binding.unsubscribeFn b = None -> Binding.args b = Skip).

End StorageUrl.

(** * Values, deep equality and ordering

    [deepEqual] and [compareJsonValues], shared-helpers.ts lines 23-63 and
    105-151. *)

Module Json.

#[local] Set Warnings "-register-all".

(** A JavaScript number, as far as the two functions can tell numbers
    apart: a finite value, [NaN], or one of the two infinities.  Finite
    values are taken at the integers. *)
Inductive Number :=
| Finite (z : Z)
| NaN
| Infinity (negative : bool).

(** The values the helpers receive.  An array or an object is a reference:
    [ref] names the object on the heap, so that [===] can tell the same
    array from an equal one.  The fields of an object are listed in
    insertion order, as [Object.keys] returns them. *)
Inductive Value :=
| VUndefined
| VNull
| VBool (b : bool)
| VNum (n : Number)
| VStr (s : string)
| VArr (ref : nat) (items : list Value)
| VObj (ref : nat) (fields : list (string * Value)).

(** The results of [typeof] on these values. *)
Inductive TypeTag := TyUndefined | TyObject | TyBoolean | TyNumber | TyString.

Definition typeof (v : Value) : TypeTag :=
  match v with
  | VUndefined => TyUndefined
  | VNull => TyObject
  | VBool _ => TyBoolean
  | VNum _ => TyNumber
  | VStr _ => TyString
  | VArr _ _ => TyObject
  | VObj _ _ => TyObject
  end.

Definition sameType (s t : TypeTag) : bool :=
  match s, t with
  | TyUndefined, TyUndefined | TyObject, TyObject | TyBoolean, TyBoolean
  | TyNumber, TyNumber | TyString, TyString => true
  | _, _ => false
  end.

(** [a === b]: primitives by value, with [NaN] different from itself;
    arrays and objects by reference. *)
Definition strictEquals (a b : Value) : bool :=
  match a, b with
  | VUndefined, VUndefined => true
  | VNull, VNull => true
  | VBool x, VBool y => Bool.eqb x y
  | VNum (Finite x), VNum (Finite y) => Z.eqb x y
  | VNum (Infinity s), VNum (Infinity s') => Bool.eqb s s'
  | VStr s, VStr t => String.eqb s t
  | VArr r _, VArr r' _ => Nat.eqb r r'
  | VObj r _, VObj r' _ => Nat.eqb r r'
  | _, _ => false
  end.

(** [v == null]. *)
Definition isNullish (v : Value) : bool :=
  match v with
  | VUndefined | VNull => true
  | _ => false
  end.

Definition isArray (v : Value) : bool :=
  match v with
  | VArr _ _ => true
  | _ => false
  end.

(** [o[key]] on the own fields of an object; [None] when [key] is not an
    own property. *)
Fixpoint getField (key : string) (fields : list (string * Value))
    : option Value :=
  match fields with
  | [] => None
  | (k, v) :: rest => if String.eqb key k then Some v else getField key rest
  end.

(** ** deepEqual *)

(** Lines 23-63.  In the object loop the pair [(key, va)] taken from
    [Object.keys(a)] carries [a[key]]. *)
Fixpoint deepEqual (a b : Value) {struct a} : bool :=
  if strictEquals a b then true
  else if isNullish a || isNullish b then strictEquals a b
  else if negb (sameType (typeof a) (typeof b)) then false
  else
    match a, b with
    | VArr _ xs, VArr _ ys =>
        if negb (Nat.eqb (length xs) (length ys)) then false
        else
          (fix each (xs ys : list Value) : bool :=
             match xs, ys with
             | x :: xs', y :: ys' =>
                 if negb (deepEqual x y) then false else each xs' ys'
             | _, _ => true
             end) xs ys
    | VObj _ fa, VObj _ fb =>
        if negb (Nat.eqb (length fa) (length fb)) then false
        else
          (fix each (keys : list (string * Value)) : bool :=
             match keys with
             | [] => true
             | (key, va) :: rest =>
                 match getField key fb with
                 | None => false
                 | Some vb =>
                     if negb (deepEqual va vb) then false else each rest
                 end
             end) fa
    | _, _ => false
    end.

(** An object has each key once; [uniqueKeys] says so for every object
    inside a value. *)
Fixpoint distinct (keys : list string) : bool :=
  match keys with
  | [] => true
  | k :: rest => negb (existsb (String.eqb k) rest) && distinct rest
  end.

Fixpoint uniqueKeys (v : Value) : bool :=
  match v with
  | VArr _ xs => forallb uniqueKeys xs
  | VObj _ fs =>
      distinct (map fst fs)
      && (fix each (fs : list (string * Value)) : bool :=
            match fs with
            | [] => true
            | (_, x) :: rest => uniqueKeys x && each rest
            end) fs
  | _ => true
  end.

(** ** compareJsonValues *)

(** The host functions the comparison calls: [String.prototype.
    localeCompare], the [BigInt] constructor and the [String] conversion;
    [None] when the call throws ([BigInt] on what is no integer literal,
    [String] on an object whose [toString] and [valueOf] give no
    primitive). *)
Record Host := mkHost {
  localeCompare : string -> string -> Z;
  toBigInt : Value -> option Z;
  toString : Value -> option string
}.

(** The double nearest to a non-negative integer: 53 significant bits are
    kept, a tie goes to the even neighbour. *)
Definition roundMagnitude (n : Z) : Z :=
  let bits := Z.log2 n + 1 in
  if bits <=? 53 then n
  else
    let shift := bits - 53 in
    let kept := Z.shiftr n shift in
    let dropped := n - Z.shiftl kept shift in
    let half := Z.shiftl 1 (shift - 1) in
    let up := (half <? dropped) || ((dropped =? half) && Z.odd kept) in
    Z.shiftl (if up then kept + 1 else kept) shift.

(** The number an exact integer result is delivered as: rounded to the
    nearest double, and infinite from [2^1024] on. *)
Definition toDouble (z : Z) : Number :=
  let magnitude := roundMagnitude (Z.abs z) in
  if 2 ^ 1024 <=? magnitude then Infinity (z <? 0)
  else Finite (Z.sgn z * magnitude).

(** [x - y] on numbers. *)
Definition minus (x y : Number) : Number :=
  match x, y with
  | Finite a, Finite b => toDouble (a - b)
  | Finite _, Infinity s => Infinity (negb s)
  | Infinity s, Finite _ => Infinity s
  | Infinity s, Infinity s' => if Bool.eqb s s' then NaN else Infinity s
  | _, _ => NaN
  end.

(** [n !== 0] fails exactly at zero; [NaN !== 0] holds. *)
Definition isZero (n : Number) : bool :=
  match n with
  | Finite z => Z.eqb z 0
  | _ => false
  end.

(** ['$integer' in v], reached only for [typeof v === 'object'] and
    [v !== null]: an array has no such property, an object has it when it
    is one of its fields. *)
Definition hasInteger (v : Value) : bool :=
  match v with
  | VObj _ fs => match getField "$integer" fs with Some _ => true | None => false end
  | _ => false
  end.

(** [v.$integer]. *)
Definition integerOf (v : Value) : Value :=
  match v with
  | VObj _ fs => match getField "$integer" fs with Some p => p | None => VUndefined end
  | _ => VUndefined
  end.

(** Lines 115-150: everything below the array case.  [None] stands for an
    exception, which [BigInt] (line 146) and [String] (line 150) can
    raise; [Number] of a big integer rounds it to a double. *)
Definition compareScalars (h : Host) (a b : Value) : option Number :=
  if isNullish a && isNullish b then Some (Finite 0)
  else if isNullish a then Some (Finite (-1))
  else if isNullish b then Some (Finite 1)
  else
    match a, b with
    | VNum x, VNum y => Some (minus x y)
    | VStr s, VStr t => Some (Finite (localeCompare h s t))
    | VBool x, VBool y => Some (Finite (Z.b2z x - Z.b2z y))
    | _, _ =>
        if hasInteger a && hasInteger b then
          match toBigInt h (integerOf a), toBigInt h (integerOf b) with
          | Some x, Some y => Some (toDouble (x - y))
          | _, _ => None
          end
        else
          match toString h a, toString h b with
          | Some s, Some t => Some (Finite (localeCompare h s t))
          | _, _ => None
          end
    end.

(** Lines 109-110: [if (comparison !== 0) return comparison], else go on. *)
Definition orElse (comparison rest : option Number) : option Number :=
  match comparison with
  | Some n => if isZero n then rest else Some n
  | None => None
  end.

(** The array loop once [a] has run out: [a[i]] is [undefined], which is
    no array, so [compareJsonValues(a[i], b[i])] is [compareScalars]. *)
Fixpoint compareMissing (h : Host) (ys : list Value) : option Number :=
  match ys with
  | [] => Some (Finite 0)
  | y :: ys' => orElse (compareScalars h VUndefined y) (compareMissing h ys')
  end.

(** Lines 105-151.  The loop runs over [Math.max(a.length, b.length)]
    positions; past the end of an array the element is [undefined]. *)
Fixpoint compareJsonValues (h : Host) (a b : Value) {struct a}
    : option Number :=
  match a, b with
  | VArr _ xs, VArr _ ys =>
      (fix loop (xs ys : list Value) : option Number :=
         match xs, ys with
         | [], _ => compareMissing h ys
         | x :: xs', [] =>
             orElse (compareJsonValues h x VUndefined) (loop xs' [])
         | x :: xs', y :: ys' =>
             orElse (compareJsonValues h x y) (loop xs' ys')
         end) xs ys
  | _, _ => compareScalars h a b
  end.

(** [a[i]], [undefined] past the end. *)
Definition item (i : nat) (xs : list Value) : Value := nth i xs VUndefined.

(** ** Values of like kind

    The kinds [compareJsonValues] orders by a rule of their own and
    without fail: finite numbers, strings and booleans. *)
Inductive Kind := KNumber | KString | KBoolean.

Definition kindOf (v : Value) : option Kind :=
  match v with
  | VNum (Finite _) => Some KNumber
  | VStr _ => Some KString
  | VBool _ => Some KBoolean
  | _ => None
  end.

Definition sameKind (j k : option Kind) : bool :=
  match j, k with
  | Some KNumber, Some KNumber | Some KString, Some KString
  | Some KBoolean, Some KBoolean => true
  | _, _ => false
  end.

(** Two values are alike when every comparison made between them, at any
    depth, is between two scalars of one kind or involves [null] or
    [undefined] (a missing element included). *)
Fixpoint alike (a b : Value) {struct a} : bool :=
  match a, b with
  | VArr _ xs, VArr _ ys =>
      (fix each (xs ys : list Value) : bool :=
         match xs, ys with
         | x :: xs', y :: ys' => alike x y && each xs' ys'
         | _, _ => true
         end) xs ys
  | _, _ => isNullish a || isNullish b || sameKind (kindOf a) (kindOf b)
  end.

(** A value of one of the three kinds, or an array of such values:
    nothing in it is [null] or [undefined]. *)
Fixpoint definite (v : Value) : bool :=
  match v with
  | VArr _ xs => forallb definite xs
  | _ => match kindOf v with Some _ => true | None => false end
  end.

(** The same value up to the references of its arrays. *)
Fixpoint sameJson (a b : Value) {struct a} : bool :=
  match a, b with
  | VNum (Finite x), VNum (Finite y) => Z.eqb x y
  | VStr s, VStr t => String.eqb s t
  | VBool x, VBool y => Bool.eqb x y
  | VArr _ xs, VArr _ ys =>
      (fix each (xs ys : list Value) : bool :=
         match xs, ys with
         | [], [] => true
         | x :: xs', y :: ys' => sameJson x y && each xs' ys'
         | _, _ => false
         end) xs ys
  | _, _ => false
  end.

(** ** Vocabulary of the statements *)

(** [f] holds of the elements of two lists taken in step, as far as both
    reach. *)
Fixpoint pairwise (f : Value -> Value -> bool) (xs ys : list Value) : bool :=
  match xs, ys with
  | x :: xs', y :: ys' => f x y && pairwise f xs' ys'
  | _, _ => true
  end.

(** One turn of the object loop of [deepEqual]: the key is an own
    property of [b] and the two values are deeply equal. *)
Definition fieldMatches (fb : list (string * Value)) (kv : string * Value)
    : bool :=
  match getField (fst kv) fb with
  | Some vb => deepEqual (snd kv) vb
  | None => false
  end.

Definition isPrimitive (v : Value) : bool :=
  match v with
  | VArr _ _ | VObj _ _ => false
  | _ => true
  end.

Definition SymmetricAt (a : Value) : Prop :=
  forall b, uniqueKeys a = true -> uniqueKeys b = true ->
            deepEqual a b = true -> deepEqual b a = true.

(** What the results rest on in [localeCompare]: swapping the operands
    flips the sign, "not after" is transitive, and only a string compares
    equal to itself. *)
Definition SignAntisymmetric (f : string -> string -> Z) : Prop :=
  forall s t, Z.sgn (f s t) = - Z.sgn (f t s).

Definition LeTransitive (f : string -> string -> Z) : Prop :=
  forall s t u, f s t <= 0 -> f t u <= 0 -> f s u <= 0.

Definition Discerning (f : string -> string -> Z) : Prop :=
  forall s t, f s t = 0 -> s = t.

(** The sign a sort reads off a result: -1, 0 or 1. *)
Definition signOf (n : Number) : Z :=
  match n with
  | Finite z => Z.sgn z
  | NaN => 0
  | Infinity negative => if negative then -1 else 1
  end.

(** A call that returned a number other than [NaN]. *)
Definition ordered (o : option Number) : Prop :=
  exists n, o = Some n /\ n <> NaN.

(** Two calls mirror each other: both throw, both return [NaN], or they
    return numbers of opposite sign. *)
Definition mirrored (p q : option Number) : Prop :=
  match p, q with
  | None, None => True
  | Some NaN, Some NaN => True
  | Some m, Some n => m <> NaN /\ n <> NaN /\ signOf m = - signOf n
  | _, _ => False
  end.

(** A result that ends the array loop: a non-zero number (or [NaN]), or
    an exception. *)
Definition decides (o : option Number) : Prop :=
  match o with
  | Some n => isZero n = false
  | None => True
  end.

(** The sign of what a comparison returns. *)
Definition verdict (h : Host) (a b : Value) : Z :=
  match compareJsonValues h a b with
  | Some n => signOf n
  | None => 0
  end.

(** Three signs, on (a, b), (b, c) and (a, c), that fit one order:
    "not after" composes, "not before" composes, and a strict step on
    either side makes the composite strict. *)
Definition consistent (x y z : Z) : Prop :=
  (x <= 0 -> y <= 0 -> z <= 0 /\ (x < 0 \/ y < 0 -> z < 0))
  /\ (0 <= x -> 0 <= y -> 0 <= z /\ (0 < x \/ 0 < y -> 0 < z)).

Definition pick (c rest : Z) : Z := if Z.eqb c 0 then rest else c.

Definition ConsistentAt (h : Host) (a : Value) : Prop :=
  forall b c, alike a b = true -> alike b c = true -> alike a c = true ->
              consistent (verdict h a b) (verdict h b c) (verdict h a c).

(** A value without [NaN] anywhere inside, and the same value rebuilt
    under other references (what a structural copy is). *)
Fixpoint nanFree (v : Value) : bool :=
  match v with
  | VNum NaN => false
  | VArr _ xs => forallb nanFree xs
  | VObj _ fs =>
      (fix each (fs : list (string * Value)) : bool :=
         match fs with
         | [] => true
         | (_, x) :: rest => nanFree x && each rest
         end) fs
  | _ => true
  end.

Fixpoint relabel (f : nat -> nat) (v : Value) : Value :=
  match v with
  | VArr r xs => VArr (f r) (map (relabel f) xs)
  | VObj r fs =>
      VObj (f r)
           ((fix each (fs : list (string * Value)) : list (string * Value) :=
               match fs with
               | [] => []
               | (k, x) :: rest => (k, relabel f x) :: each rest
               end) fs)
  | _ => v
  end.

(** ** A reference host

    Code-unit order for [localeCompare], decimal literals for [BigInt],
    and [String] on the values met here: integers print in decimal, an
    array prints its elements joined by commas with [null] and
    [undefined] empty, an object prints as [[object Object]] unless it has
    a [toString] of its own, which is no function here, so that the
    conversion throws. *)
Definition codeUnitCompare (s t : string) : Z :=
  match String.compare s t with
  | Lt => -1
  | Eq => 0
  | Gt => 1
  end.

Definition decimalBigInt (v : Value) : option Z :=
  match v with
  | VStr s => option_map Z.of_int (NilEmpty.int_of_string s)
  | VNum (Finite z) => Some z
  | VBool b => Some (Z.b2z b)
  | _ => None
  end.

Fixpoint jsString (v : Value) : option string :=
  match v with
  | VUndefined => Some "undefined"
  | VNull => Some "null"
  | VBool true => Some "true"
  | VBool false => Some "false"
  | VNum (Finite z) => Some (NilZero.string_of_int (Z.to_int z))
  | VNum NaN => Some "NaN"
  | VNum (Infinity negative) =>
      Some (if negative then "-Infinity" else "Infinity")
  | VStr s => Some s
  | VArr _ xs =>
      (fix join (xs : list Value) : option string :=
         match xs with
         | [] => Some EmptyString
         | [x] => if isNullish x then Some EmptyString else jsString x
         | x :: rest =>
             match (if isNullish x then Some EmptyString else jsString x),
                   join rest with
             | Some s, Some t => Some (s +:+ "," +:+ t)
             | _, _ => None
             end
         end) xs
  | VObj _ fs =>
      match getField "toString" fs with
      | Some _ => None
      | None => Some "[object Object]"
      end
  end.

Definition referenceHost : Host := mkHost codeUnitCompare decimalBigInt jsString.

End Json.

(** * Partial matching of arguments, and values that compare cleanly

    [argsMatch], shared-helpers.ts lines 74-92, with the predicates the
    facts about [compareJsonValues] are stated with. *)

Module Args.

Import Json.

(** What [queryArgs[key]] yields.  A key that is no own property is looked
    up on [Object.prototype]: most members found there are functions,
    which are no [Value]. *)
Inductive Looked :=
| Got (v : Value)
| GotFunction.

(** [o[key]] for a plain object [o] with own fields [fields]; [inherited]
    is the lookup on [Object.prototype], [None] for a key it does not
    have, in which case [o[key]] is [undefined]. *)
Definition lookup (inherited : string -> option Looked)
    (fields : list (string * Value)) (key : string) : Looked :=
  match getField key fields with
  | Some v => Got v
  | None =>
      match inherited key with
      | Some found => found
      | None => Got VUndefined
      end
  end.

(** [deepEqual(a, b)] when [b] was looked up.  Against a function, line 25
    fails ([a] is no function), line 28 returns [a === b], false, when [a]
    is [null] or [undefined], and line 31 returns false otherwise, the
    types being different. *)
Definition deepEqualLooked (a : Value) (b : Looked) : bool :=
  match b with
  | Got v => deepEqual a v
  | GotFunction => false
  end.

(** [skipKeys.includes(key)]. *)
Definition includes (skipKeys : list string) (key : string) : bool :=
  existsb (String.eqb key) skipKeys.

(** Lines 74-92.  The pair [(key, filterValue)] taken from
    [Object.keys(filterArgs)] carries [filterArgs[key]]. *)
Fixpoint argsMatch (inherited : string -> option Looked)
    (queryArgs filterArgs : list (string * Value)) (skipKeys : list string)
    : bool :=
  match filterArgs with
  | [] => true
  | (key, filterValue) :: rest =>
      if includes skipKeys key then
        argsMatch inherited queryArgs rest skipKeys
      else if negb (deepEqualLooked filterValue
                      (lookup inherited queryArgs key)) then false
      else argsMatch inherited queryArgs rest skipKeys
  end.

(** The members of [Object.prototype] of a JavaScript engine: [__proto__]
    yields the prototype object itself, which has no enumerable key of its
    own (reference [protoRef]); the others are functions. *)
Definition objectPrototype (protoRef : nat) (key : string) : option Looked :=
  if String.eqb key "__proto__" then Some (Got (VObj protoRef []))
  else if existsb (String.eqb key)
            ["constructor"; "hasOwnProperty"; "isPrototypeOf";
             "propertyIsEnumerable"; "toLocaleString"; "toString";
             "valueOf"; "__defineGetter__"; "__defineSetter__";
             "__lookupGetter__"; "__lookupSetter__"]
  then Some GotFunction
  else None.

(** ** Vocabulary of the statements *)

Definition isNaN (v : Value) : bool :=
  match v with
  | VNum NaN => true
  | _ => false
  end.

(** One field of a filter is met by the query: it is skipped, or deeply
    equal to what the query has under its key. *)
Definition fieldMet (inherited : string -> option Looked)
    (queryArgs : list (string * Value)) (skipKeys : list string)
    (kv : string * Value) : bool :=
  includes skipKeys (fst kv)
  || deepEqualLooked (snd kv) (lookup inherited queryArgs (fst kv)).

(** A field is a structural copy of the query's field of the same key. *)
Definition copiedFrom (queryArgs : list (string * Value)) (f : nat -> nat)
    (kv : string * Value) : Prop :=
  exists u, getField (fst kv) queryArgs = Some u
            /\ uniqueKeys u = true /\ nanFree u = true
            /\ snd kv = relabel f u.

(** A value [compareJsonValues] compares with itself without fail and
    with a difference that is a number: no [NaN] and no [Infinity] among
    the numbers it reaches, and every object it reaches is one that
    [BigInt] reads, when it carries [$integer], or that [String] converts,
    when it does not.  The comparison goes through arrays and stops at
    objects. *)
Fixpoint comparable (h : Host) (v : Value) : bool :=
  match v with
  | VNum (Finite _) => true
  | VNum _ => false
  | VArr _ xs => forallb (comparable h) xs
  | VObj _ _ =>
      if hasInteger v then
        match toBigInt h (integerOf v) with
        | Some _ => true
        | None => false
        end
      else
        match toString h v with
        | Some _ => true
        | None => false
        end
  | _ => true
  end.

(** No object reached by the comparison carries [$integer]. *)
Fixpoint integerFree (v : Value) : bool :=
  match v with
  | VArr _ xs => forallb integerFree xs
  | VObj _ _ => negb (hasInteger v)
  | _ => true
  end.

(** [String] converts the value, and, through arrays, every element the
    comparison reaches. *)
Fixpoint printable (h : Host) (v : Value) : bool :=
  match toString h v with
  | None => false
  | Some _ =>
      match v with
      | VArr _ xs => forallb (printable h) xs
      | _ => true
      end
  end.

(** As [comparable], with no big integers: the objects reached carry no
    [$integer]. *)
Fixpoint plain (h : Host) (v : Value) : bool :=
  match v with
  | VNum (Finite _) => true
  | VNum _ => false
  | VArr _ xs => forallb (plain h) xs
  | VObj _ _ =>
      negb (hasInteger v)
      && match toString h v with
         | Some _ => true
         | None => false
         end
  | _ => true
  end.

(** The references of the arrays and objects inside a value; two values
    are apart when they share none, so that no array or object of the one
    is [===] to one of the other. *)
Fixpoint refsOf (v : Value) : list nat :=
  match v with
  | VArr r xs => r :: flat_map refsOf xs
  | VObj r fs =>
      r :: (fix each (fs : list (string * Value)) : list nat :=
              match fs with
              | [] => []
              | (_, x) :: rest => (refsOf x ++ each rest)%list
              end) fs
  | _ => []
  end.

Definition apart (a b : Value) : Prop :=
  forall r, In r (refsOf a) -> ~ In r (refsOf b).

(** Whenever [String] converts two objects, it gives them the same text
    (["[object Object]"]). *)
Definition ObjectsPrintAlike (h : Host) : Prop :=
  forall r fs r' fs' s t,
    toString h (VObj r fs) = Some s -> toString h (VObj r' fs') = Some t ->
    s = t.

End Args.

(** * Instance identifiers

    [getInstanceId] and [generatePaginationId], shared-helpers.ts lines
    306-333: one counter shared by both, and a [WeakMap] from objects to
    the identifier they were given. *)

Module Instances.

(** [++n] on a JavaScript number that holds an integer: exact below
    [2^53], where [n + 1] rounds back to [n]. *)
Definition increment (n : Z) : Z := if n <? 2 ^ 53 then n + 1 else n.

(** The two module variables.  An object is the reference it lives under;
    an entry of the [WeakMap] goes away only with its object, which can
    then no longer be passed in. *)
Record Ids := mkIds {
  instanceIdMap : gmap nat Z;
  globalInstanceCounter : Z
}.

(** Lines 306-307. *)
Definition initial : Ids := mkIds ∅ 0.

(** Lines 316-323. *)
Definition getInstanceId (instance : nat) (st : Ids) : Ids * Z :=
  match instanceIdMap st !! instance with
  | Some id => (st, id)
  | None =>
      let id := increment (globalInstanceCounter st) in
      (mkIds (<[instance := id]> (instanceIdMap st)) id, id)
  end.

(** Lines 331-333. *)
Definition generatePaginationId (st : Ids) : Ids * Z :=
  let id := increment (globalInstanceCounter st) in
  (mkIds (instanceIdMap st) id, id).

(** The calls a page makes over its life, in order, with the identifier
    each one returns. *)
Inductive Request :=
| ForInstance (instance : nat)
| ForPagination.

Definition serve (q : Request) (st : Ids) : Ids * Z :=
  match q with
  | ForInstance instance => getInstanceId instance st
  | ForPagination => generatePaginationId st
  end.

Fixpoint run (requests : list Request) (st : Ids) : Ids * list Z :=
  match requests with
  | [] => (st, [])
  | q :: rest =>
      let '(st1, id) := serve q st in
      let '(st2, ids) := run rest st1 in
      (st2, id :: ids)
  end.

(** What holds of the two variables between calls: the identifiers given
    out lie between 1 and the counter, and no two objects share one. *)
Definition Sound (st : Ids) : Prop :=
  0 <= globalInstanceCounter st
  /\ (forall o id, instanceIdMap st !! o = Some id ->
                   1 <= id <= globalInstanceCounter st)
  /\ (forall o o' id, instanceIdMap st !! o = Some id ->
                      instanceIdMap st !! o' = Some id -> o = o').

End Instances.

(** * Cookies

    [parseCookies], [getCookie] and [hasCookie], shared-helpers.ts lines
    253-299.  Strings are taken over the code units below 256. *)

Module Cookies.

(** [s.split(sep)] for a separator of one code unit: the pieces between
    the separators, one piece at least. *)
Fixpoint split (sep : ascii) (s : string) : list string :=
  match s with
  | EmptyString => [EmptyString]
  | String c rest =>
      if Ascii.eqb c sep then EmptyString :: split sep rest
      else
        match split sep rest with
        | piece :: pieces => String c piece :: pieces
        | [] => [String c EmptyString]
        end
  end.

(** [parts.join(sep)]. *)
Fixpoint join (sep : ascii) (parts : list string) : string :=
  match parts with
  | [] => EmptyString
  | [part] => part
  | part :: rest => part +:+ String sep (join sep rest)
  end.

(** White space and line terminators, which [trim] strips: TAB, LF, VT,
    FF, CR, SP and NBSP. *)
Definition isWhite (c : ascii) : bool :=
  let n := nat_of_ascii c in
  ((9 <=? n)%nat && (n <=? 13)%nat) || (n =? 32)%nat || (n =? 160)%nat.

Fixpoint trimStart (s : string) : string :=
  match s with
  | EmptyString => EmptyString
  | String c rest => if isWhite c then trimStart rest else s
  end.

Fixpoint trimEnd (s : string) : string :=
  match s with
  | EmptyString => EmptyString
  | String c rest =>
      match trimEnd rest with
      | EmptyString => if isWhite c then EmptyString else String c EmptyString
      | kept => String c kept
      end
  end.

Definition trim (s : string) : string := trimEnd (trimStart s).

Definition isEmpty (s : string) : bool :=
  match s with
  | EmptyString => true
  | String _ _ => false
  end.

(** [cookies[name] = value] on the plain object [cookies].  Assigning a
    string to [__proto__] runs the setter of [Object.prototype], which
    ignores what is no object: no own property is made. *)
Definition assign (name value : string) (cookies : gmap string string)
    : gmap string string :=
  if String.eqb name "__proto__" then cookies
  else <[name := value]> cookies.

(** Lines 259-272, one turn of the loop.  [decodeURIComponent] is the
    host's; [None] stands for the [URIError] it throws on a malformed
    sequence. *)
Definition parseCookie (decodeURIComponent : string -> option string)
    (cookies : gmap string string) (cookie : string) : gmap string string :=
  match split "=" cookie with
  | rawName :: valueParts =>
      let name := trim rawName in
      if isEmpty name then cookies
      else
        let value := trim (join "=" valueParts) in
        match decodeURIComponent value with
        | Some decoded => assign name decoded cookies
        | None => assign name value cookies
        end
  | [] => cookies
  end.

(** Lines 253-276.  The header is [None] for [null] and [undefined]; the
    empty string is falsy as well. *)
Definition parseCookies (decodeURIComponent : string -> option string)
    (cookieHeader : option string) : gmap string string :=
  match cookieHeader with
  | None => ∅
  | Some header =>
      if isEmpty header then ∅
      else fold_left (parseCookie decodeURIComponent) (split ";" header) ∅
  end.

(** What [cookies[name] ?? null] yields: the text of an own property, a
    member of [Object.prototype] when [name] is the name of one and no
    cookie has it, or [null]. *)
Inductive Found :=
| Text (value : string)
| PrototypeMember
| Null.

(** Lines 285-288.  [inherited] tells the names of the members of
    [Object.prototype]. *)
Definition getCookie (decodeURIComponent : string -> option string)
    (inherited : string -> bool) (cookieHeader : option string)
    (name : string) : Found :=
  match parseCookies decodeURIComponent cookieHeader !! name with
  | Some value => Text value
  | None => if inherited name then PrototypeMember else Null
  end.

(** Lines 297-299. *)
Definition hasCookie (decodeURIComponent : string -> option string)
    (inherited : string -> bool) (cookieHeader : option string)
    (name : string) : bool :=
  match getCookie decodeURIComponent inherited cookieHeader name with
  | Null => false
  | _ => true
  end.

(** ** Vocabulary of the statements *)

(** The name a piece of the header is filed under, and its value. *)
Definition nameOf (cookie : string) : string :=
  trim (hd EmptyString (split "=" cookie)).

Definition valueOf (decodeURIComponent : string -> option string)
    (cookie : string) : string :=
  let value := trim (join "=" (tl (split "=" cookie))) in
  match decodeURIComponent value with
  | Some decoded => decoded
  | None => value
  end.

Fixpoint contains (c : ascii) (s : string) : bool :=
  match s with
  | EmptyString => false
  | String d rest => Ascii.eqb d c || contains c rest
  end.

(** ** A reference host

    [decodeURIComponent] on strings of code units below 256: [%XY] is a
    byte, the bytes are read as UTF-8, and anything malformed is an
    error.  A sequence that decodes to a code point above 255 leaves the
    strings modelled here and is answered as an error too. *)
Definition hexValue (c : ascii) : option nat :=
  let n := nat_of_ascii c in
  if ((48 <=? n) && (n <=? 57))%nat then Some (n - 48)%nat
  else if ((65 <=? n) && (n <=? 70))%nat then Some (n - 55)%nat
  else if ((97 <=? n) && (n <=? 102))%nat then Some (n - 87)%nat
  else None.

Inductive Unit :=
| Raw (c : ascii)
| Escaped (byte : nat).

Fixpoint unescape (s : string) : option (list Unit) :=
  match s with
  | EmptyString => Some []
  | String c rest =>
      if Ascii.eqb c "%" then
        match rest with
        | String x (String y rest') =>
            match hexValue x, hexValue y, unescape rest' with
            | Some hi, Some lo, Some units =>
                Some (Escaped (16 * hi + lo) :: units)
            | _, _, _ => None
            end
        | _ => None
        end
      else option_map (cons (Raw c)) (unescape rest)
  end.

Fixpoint utf8 (units : list Unit) : option string :=
  match units with
  | [] => Some EmptyString
  | Raw c :: rest => option_map (String c) (utf8 rest)
  | Escaped lead :: rest =>
      if (lead <? 128)%nat then
        option_map (String (ascii_of_nat lead)) (utf8 rest)
      else if ((194 <=? lead) && (lead <=? 195))%nat then
        match rest with
        | Escaped next :: rest' =>
            if ((128 <=? next) && (next <=? 191))%nat then
              option_map
                (String (ascii_of_nat ((lead - 192) * 64 + (next - 128))))
                (utf8 rest')
            else None
        | _ => None
        end
      else None
  end.

Definition referenceDecode (s : string) : option string :=
  match unescape s with
  | Some units => utf8 units
  | None => None
  end.

(** The names of the members of [Object.prototype]. *)
Definition objectMember (name : string) : bool :=
  match Args.objectPrototype 0 name with
  | Some _ => true
  | None => false
  end.

End Cookies.

(** * The auth proxy

    [isOriginAllowed] and the event handler of the auth route, unnamed
    part 001, lines 322-351 and 353-421 (the fourth document of the
    part).  Strings are taken over the code units below 256. *)

Module AuthProxy.

(** What the route asks of its host: [new URL(siteUrl).origin], [None]
    when the constructor throws; and [new RegExp(source).test(input)]. *)
Record Engine := mkEngine {
  originOf : string -> option string;
  regexTest : string -> string -> bool
}.

Definition isEmpty (s : string) : bool :=
  match s with
  | EmptyString => true
  | String _ _ => false
  end.

(** [s.includes(c)] for one code unit. *)
Fixpoint includes (c : ascii) (s : string) : bool :=
  match s with
  | EmptyString => false
  | String d rest => Ascii.eqb d c || includes c rest
  end.

(** The class [[.+?^${}()|[\]\\]] of line 342. *)
Definition isSpecial (c : ascii) : bool :=
  existsb (Ascii.eqb c)
    ["."; "+"; "?"; "^"; "$"; "{"; "}"; "("; ")"; "|"; "["; "]"; "\"]%char.

(** Line 342: [.replace(/[.+?^${}()|[\]\\]/g, '\\$&')]. *)
Fixpoint escape (s : string) : string :=
  match s with
  | EmptyString => EmptyString
  | String c rest =>
      if isSpecial c then String "\" (String c (escape rest))
      else String c (escape rest)
  end.

(** Line 343: [.replace(/\*/g, '.*')]. *)
Fixpoint wildcards (s : string) : string :=
  match s with
  | EmptyString => EmptyString
  | String c rest =>
      if Ascii.eqb c "*" then String "." (String "*" (wildcards rest))
      else String c (wildcards rest)
  end.

(** The source handed to [new RegExp] on line 344. *)
Definition patternOf (trusted : string) : string :=
  String "^" (wildcards (escape trusted) +:+ "$").

(** Lines 328-335. *)
Definition matchesSite (e : Engine) (origin : string)
    (siteUrl : option string) : bool :=
  match siteUrl with
  | None => false
  | Some url =>
      if isEmpty url then false
      else
        match originOf e url with
        | Some siteOrigin => String.eqb origin siteOrigin
        | None => false
        end
  end.

(** Lines 338-348, one turn of the loop. *)
Definition matchesTrusted (e : Engine) (origin trusted : string) : bool :=
  if includes "*" trusted then regexTest e (patternOf trusted) origin
  else String.eqb origin trusted.

(** Lines 322-351. *)
Definition isOriginAllowed (e : Engine) (origin : string)
    (siteUrl : option string) (trustedOrigins : list string) : bool :=
  if matchesSite e origin siteUrl then true
  else
    (fix loop (trustedOrigins : list string) : bool :=
       match trustedOrigins with
       | [] => false
       | trusted :: rest =>
           if matchesTrusted e origin trusted then true else loop rest
       end) trustedOrigins.

(** ** The event handler *)

(** [config.public.convex] and [import.meta.dev]. *)
Record Config := mkConfig {
  siteUrl : option string;
  trustedOrigins : option (list string);
  dev : bool
}.

(** The request: [event.method], [event.headers.get('origin')], and the
    [pathname] and [search] of [getRequestURL(event)]. *)
Record Request := mkRequest {
  method : string;
  originHeader : option string;
  pathname : string;
  search : string
}.

(** What [proxyRequest] does with a target: it resolves, or it throws an
    error with a message. *)
Inductive Upstream :=
| Answers (response : string)
| Fails (message : string).

(** What the handler leaves on the event: the status and the headers it
    set, and the target it handed to [proxyRequest]. *)
Record Reply := mkReply {
  status : option Z;
  headers : list (string * string);
  forwardedTo : option string
}.

Inductive Result :=
| Returns (value : option string)
| Raises (statusCode : Z) (message : string).

(** [s.replace(/^\/api\/auth/, '')]: the mount point is cut off the
    front when it is there. *)
Fixpoint stripPrefix (prefix s : string) : option string :=
  match prefix with
  | EmptyString => Some s
  | String c prefix' =>
      match s with
      | String d s' => if Ascii.eqb c d then stripPrefix prefix' s' else None
      | EmptyString => None
      end
  end.

Definition stripMount (pathname : string) : string :=
  match stripPrefix "/api/auth" pathname with
  | Some rest => rest
  | None => pathname
  end.

(** Lines 374 and 391: [origin && isOriginAllowed(...)]. *)
Definition allowedOrigin (e : Engine) (config : Config) (site : string)
    (request : Request) : option string :=
  match originHeader request with
  | None => None
  | Some origin =>
      if isEmpty origin then None
      else if isOriginAllowed e origin (Some site)
                (match trustedOrigins config with
                 | Some trusted => trusted
                 | None => []
                 end)
      then Some origin
      else None
  end.

(** Lines 353-421. *)
Definition handler (e : Engine) (config : Config) (request : Request)
    (proxyRequest : string -> Upstream) : Reply * Result :=
  match siteUrl config with
  | None => (mkReply None [] None, Raises 500 "Convex site URL not configured")
  | Some site =>
      if isEmpty site then
        (mkReply None [] None, Raises 500 "Convex site URL not configured")
      else
        let path :=
          if isEmpty (stripMount (pathname request)) then "/"
          else stripMount (pathname request) in
        let target := site +:+ "/api/auth" +:+ path +:+ search request in
        if String.eqb (method request) "OPTIONS" then
          match allowedOrigin e config site request with
          | None => (mkReply (Some 403) [] None, Returns None)
          | Some origin =>
              (mkReply (Some 204)
                 [("Access-Control-Allow-Origin", origin);
                  ("Access-Control-Allow-Methods",
                   "GET, POST, PUT, DELETE, PATCH, OPTIONS");
                  ("Access-Control-Allow-Headers",
                   "Content-Type, Authorization, Cookie");
                  ("Access-Control-Allow-Credentials", "true");
                  ("Access-Control-Max-Age", "86400")]
                 None,
               Returns None)
          end
        else
          let cors :=
            match allowedOrigin e config site request with
            | Some origin =>
                [("Access-Control-Allow-Origin", origin);
                 ("Access-Control-Allow-Credentials", "true");
                 ("Access-Control-Expose-Headers", "Set-Cookie")]
            | None => []
            end in
          match proxyRequest target with
          | Answers response =>
              (mkReply None cors (Some target), Returns (Some response))
          | Fails message =>
              (mkReply None cors (Some target),
               Raises 502
                 (if dev config
                  then "Failed to proxy request to Convex: " +:+ message
                  else "Failed to proxy request to Convex"))
          end
  end.

(** ** A reference engine

    The regular expressions of the fragment [isOriginAllowed] writes: an
    escaped syntax character or a plain character stands for itself, [.*]
    for any run of characters other than line terminators, [^] and [$] for
    the two ends.  A source outside the fragment is not read. *)
Inductive Atom :=
| Start
| End_
| Literal (c : ascii)
| AnyRun.

(** The syntax characters of a pattern. *)
Definition isSyntax (c : ascii) : bool :=
  existsb (Ascii.eqb c)
    ["^"; "$"; "\"; "."; "*"; "+"; "?"; "("; ")"; "["; "]"; "{"; "}"; "|"]%char.

Fixpoint read (source : string) : option (list Atom) :=
  match source with
  | EmptyString => Some []
  | String c rest =>
      if Ascii.eqb c "\" then
        match rest with
        | String d rest' =>
            if isSyntax d then option_map (cons (Literal d)) (read rest')
            else None
        | EmptyString => None
        end
      else if Ascii.eqb c "." then
        match rest with
        | String d rest' =>
            if Ascii.eqb d "*" then option_map (cons AnyRun) (read rest')
            else None
        | EmptyString => None
        end
      else if Ascii.eqb c "^" then option_map (cons Start) (read rest)
      else if Ascii.eqb c "$" then option_map (cons End_) (read rest)
      else if isSyntax c then None
      else option_map (cons (Literal c)) (read rest)
  end.

(** LF and CR, which [.] does not match. *)
Definition isLineTerminator (c : ascii) : bool :=
  Ascii.eqb c "010" || Ascii.eqb c "013".

(** [f] holds of what is left of [input] after some run of characters
    other than line terminators. *)
Fixpoint afterRun (f : string -> bool) (input : string) : bool :=
  f input
  || match input with
     | String d input' => negb (isLineTerminator d) && afterRun f input'
     | EmptyString => false
     end.

(** The atoms after [^], up to the closing [$], against the whole input. *)
Fixpoint fullMatch (atoms : list Atom) (input : string) : bool :=
  match atoms with
  | [End_] => isEmpty input
  | Literal c :: rest =>
      match input with
      | String d input' => Ascii.eqb c d && fullMatch rest input'
      | EmptyString => false
      end
  | AnyRun :: rest => afterRun (fullMatch rest) input
  | _ => false
  end.

Definition referenceTest (source input : string) : bool :=
  match read source with
  | Some (Start :: atoms) => fullMatch atoms input
  | _ => false
  end.

(** [new URL(url).origin] on the URLs [https://host] and [http://host],
    with a host of lower-case letters, digits, dots and hyphens and no
    port, followed by nothing or by a path: the origin is the scheme and
    the host.  Other URLs are outside the examples and are not read. *)
Definition isHostChar (c : ascii) : bool :=
  let n := nat_of_ascii c in
  ((97 <=? n) && (n <=? 122))%nat || ((48 <=? n) && (n <=? 57))%nat
  || (n =? 45)%nat || (n =? 46)%nat.

Fixpoint hostOf (s : string) : option string :=
  match s with
  | EmptyString => Some EmptyString
  | String c rest =>
      if Ascii.eqb c "/" then Some EmptyString
      else if isHostChar c then option_map (String c) (hostOf rest)
      else None
  end.

Definition originWith (scheme rest : string) : option string :=
  match hostOf rest with
  | Some host => if isEmpty host then None else Some (scheme +:+ host)
  | None => None
  end.

Definition referenceOrigin (url : string) : option string :=
  match stripPrefix "https://" url, stripPrefix "http://" url with
  | Some rest, _ => originWith "https://" rest
  | None, Some rest => originWith "http://" rest
  | None, None => None
  end.

Definition referenceEngine : Engine := mkEngine referenceOrigin referenceTest.

(** ** Vocabulary of the statements *)

(** A trusted origin read as a glob: [*] stands for any run of characters
    other than line terminators, every other character for itself. *)
Fixpoint glob (trusted : string) (origin : string) : bool :=
  match trusted with
  | EmptyString => isEmpty origin
  | String c rest =>
      if Ascii.eqb c "*" then afterRun (glob rest) origin
      else
        match origin with
        | String d origin' => Ascii.eqb c d && glob rest origin'
        | EmptyString => false
        end
  end.

Fixpoint lineFree (s : string) : bool :=
  match s with
  | EmptyString => true
  | String c rest => negb (isLineTerminator c) && lineFree rest
  end.

Definition isCors (header : string * string) : bool :=
  String.eqb (fst header) "Access-Control-Allow-Origin".

End AuthProxy.

(** * Facts about the token coordinator *)

Section AuthFacts.

Variable decode : string -> option ConvexUser.

Lemma ttl_constants :
  PluginClient.TOKEN_CACHE_MS = DEFAULT_TOKEN_CACHE_TTL_MS
  /\ PluginSlim.TOKEN_CACHE_MS = DEFAULT_TOKEN_CACHE_TTL_MS.
Proof. split; reflexivity. Qed.

(** Inside the window both copies answer from the cell and leave every
    cell, the call counter included, as it was. *)
Lemma client_within_ttl now later response st :
  truthy (convexToken st) = true ->
  now - lastTokenValidation st < PluginClient.TOKEN_CACHE_MS ->
  PluginClient.fetchToken decode true now later response st
  = (st, convexToken st).
Proof.
  intros Htok Hlt. unfold PluginClient.fetchToken.
  rewrite Htok. cbn [negb andb].
  apply Z.ltb_lt in Hlt. rewrite Hlt. reflexivity.
Qed.

Lemma slim_within_ttl now later response st :
  truthy (convexToken st) = true ->
  now - lastTokenValidation st < PluginSlim.TOKEN_CACHE_MS ->
  PluginSlim.fetchToken true now later response st = (st, convexToken st).
Proof.
  intros Htok Hlt. unfold PluginSlim.fetchToken.
  rewrite Htok. cbn [negb andb].
  apply Z.ltb_lt in Hlt. rewrite Hlt. reflexivity.
Qed.

(** Whatever the response, a call that gets past the early returns counts
    exactly one use of the network. *)
Lemma client_calls_step force now later response st :
  let calls := networkCalls (fst (PluginClient.fetchToken decode force now later response st)) in
  calls = networkCalls st \/ calls = S (networkCalls st).
Proof.
  unfold PluginClient.fetchToken.
  destruct (truthy (convexToken st) && negb force); [left; reflexivity|].
  destruct (truthy (convexToken st) && force && _); [left; reflexivity|].
  right. destruct response as [|err tok]; [reflexivity|].
  destruct (err || negb (truthy tok)); [reflexivity|].
  destruct tok; reflexivity.
Qed.

Lemma client_past_ttl now later response st :
  truthy (convexToken st) = true ->
  PluginClient.TOKEN_CACHE_MS <= now - lastTokenValidation st ->
  networkCalls (fst (PluginClient.fetchToken decode true now later response st))
  = S (networkCalls st).
Proof.
  intros Htok Hge. unfold PluginClient.fetchToken.
  rewrite Htok. cbn [negb andb].
  apply Z.ltb_ge in Hge. rewrite Hge.
  destruct response as [|err tok]; [reflexivity|].
  destruct (err || negb (truthy tok)); [reflexivity|].
  destruct tok; reflexivity.
Qed.

Lemma slim_past_ttl now later response st :
  truthy (convexToken st) = true ->
  PluginSlim.TOKEN_CACHE_MS <= now - lastTokenValidation st ->
  networkCalls (fst (PluginSlim.fetchToken true now later response st))
  = S (networkCalls st).
Proof.
  intros Htok Hge. unfold PluginSlim.fetchToken.
  rewrite Htok. cbn [negb andb].
  apply Z.ltb_ge in Hge. rewrite Hge.
  destruct response as [|err tok]; [reflexivity|].
  destruct (err || negb (truthy tok)); reflexivity.
Qed.

(** A failed fetch, in either copy: the token cell is cleared and the
    caller gets [null]. *)
Lemma client_failure force now later response st :
  fetchFailed response = true ->
  networkCalls (fst (PluginClient.fetchToken decode force now later response st))
  = S (networkCalls st) ->
  PluginClient.fetchToken decode force now later response st
  = (mkAuth None None (lastTokenValidation st) (S (networkCalls st)), None).
Proof.
  intros Hfail. unfold PluginClient.fetchToken.
  destruct (truthy (convexToken st) && negb force); [cbn; lia|].
  destruct (truthy (convexToken st) && force && _); [cbn; lia|].
  intros _. destruct response as [|err tok]; [reflexivity|].
  cbn in Hfail. rewrite Hfail. reflexivity.
Qed.

Lemma slim_failure force now later response st :
  fetchFailed response = true ->
  networkCalls (fst (PluginSlim.fetchToken force now later response st))
  = S (networkCalls st) ->
  PluginSlim.fetchToken force now later response st
  = (mkAuth None (convexUser st) (lastTokenValidation st) (S (networkCalls st)),
     None).
Proof.
  intros Hfail. unfold PluginSlim.fetchToken.
  destruct (truthy (convexToken st) && negb force); [cbn; lia|].
  destruct (truthy (convexToken st) && force && _); [cbn; lia|].
  destruct (negb (truthy (convexToken st)) && negb (known (convexUser st)));
    [cbn; lia|].
  intros _. destruct response as [|err tok]; [reflexivity|].
  cbn in Hfail. rewrite Hfail. reflexivity.
Qed.

End AuthFacts.

(** ** C2: the refresh debounce

    Claim C2.  With a token present and [forceRefreshToken] true, a call
    made less than the TTL (10 000 ms) after the last validation returns
    the cached token, leaves every cell unchanged and issues no network
    call; a call made once the TTL has elapsed (in particular whenever the
    elapsed time exceeds it) issues exactly one network call.  Both copies
    of the plugin agree, and their window is the default TTL. *)
Theorem fetchToken_force_refresh_debounce :
  forall decode now later response st,
    truthy (convexToken st) = true ->
    PluginClient.TOKEN_CACHE_MS = 10000
    /\ PluginSlim.TOKEN_CACHE_MS = 10000
    /\ DEFAULT_TOKEN_CACHE_TTL_MS = 10000
    /\ (now - lastTokenValidation st < DEFAULT_TOKEN_CACHE_TTL_MS ->
        PluginClient.fetchToken decode true now later response st
        = (st, convexToken st)
        /\ PluginSlim.fetchToken true now later response st
           = (st, convexToken st))
    /\ (DEFAULT_TOKEN_CACHE_TTL_MS <= now - lastTokenValidation st ->
        networkCalls
          (fst (PluginClient.fetchToken decode true now later response st))
        = S (networkCalls st)
        /\ networkCalls
             (fst (PluginSlim.fetchToken true now later response st))
           = S (networkCalls st)).
Proof.
  intros decode now later response st Htok.
  repeat split; try reflexivity.
  - now apply client_within_ttl.
  - now apply slim_within_ttl.
  - now apply client_past_ttl.
  - now apply slim_past_ttl.
Qed.

(** The session [cachedSession]: asked at 3000 ms it answers from the
    cell, asked at 11 000 ms it goes to the network once. *)
Lemma fetchToken_force_refresh_debounce_witness :
  (PluginClient.fetchToken (fun _ => None) true 3000 3000 Rejects cachedSession
   = (cachedSession, Some "jwt")
   /\ PluginSlim.fetchToken true 3000 3000 Rejects cachedSession
      = (cachedSession, Some "jwt"))
  /\ (networkCalls
        (fst (PluginClient.fetchToken (fun _ => None) true 11000 11000
                (Resolves false (Some "fresh")) cachedSession)) = 1%nat
      /\ networkCalls
           (fst (PluginSlim.fetchToken true 11000 11000
                   (Resolves false (Some "fresh")) cachedSession)) = 1%nat).
Proof.
  split.
  - destruct (fetchToken_force_refresh_debounce (fun _ => None) 3000 3000
                Rejects cachedSession eq_refl)
      as (_ & _ & _ & Hin & _).
    apply Hin. reflexivity.
  - destruct (fetchToken_force_refresh_debounce (fun _ => None) 11000 11000
                (Resolves false (Some "fresh")) cachedSession eq_refl)
      as (_ & _ & _ & _ & Hout).
    apply Hout. discriminate.
Defined.

(** ** C3: no prior authenticated state *)

(** In [plugin.client.ts] a call with neither token nor user goes to the
    network (its comment: the fetch "handles both SSR mode (refresh) and
    CSR-only mode (initial fetch)"), and returns the token it obtains. *)
Lemma fetchToken_no_prior_state_counterexample :
  PluginClient.fetchToken (fun _ => None) false 0 0
    (Resolves false (Some "jwt")) (mkAuth None None 0 0)
  = (mkAuth (Some "jwt") None 0 1, Some "jwt").
Proof. reflexivity. Qed.

(** Claim C3, as amended.  With no token and no derived identity, the
    slim copy of the plugin (part 002) returns null and changes nothing,
    so it issues no network call; [plugin.client.ts] has no such guard and
    issues exactly one network call. *)
Theorem fetchToken_no_prior_state :
  forall decode force now later response st,
    truthy (convexToken st) = false ->
    known (convexUser st) = false ->
    PluginSlim.fetchToken force now later response st = (st, None)
    /\ networkCalls
         (fst (PluginClient.fetchToken decode force now later response st))
       = S (networkCalls st).
Proof.
  intros decode force now later response st Htok Huser. split.
  - unfold PluginSlim.fetchToken. rewrite Htok, Huser. reflexivity.
  - unfold PluginClient.fetchToken. rewrite Htok. cbn [andb].
    destruct response as [|err tok]; [reflexivity|].
    destruct (err || negb (truthy tok)); [reflexivity|].
    destruct tok; reflexivity.
Qed.

Lemma fetchToken_no_prior_state_witness :
  PluginSlim.fetchToken true 500 500 (Resolves false (Some "jwt"))
    (mkAuth None None 0 0)
  = (mkAuth None None 0 0, None)
  /\ networkCalls
       (fst (PluginClient.fetchToken (fun _ => None) true 500 500
               (Resolves false (Some "jwt")) (mkAuth None None 0 0)))
     = 1%nat.
Proof.
  exact (fetchToken_no_prior_state (fun _ => None) true 500 500
           (Resolves false (Some "jwt")) (mkAuth None None 0 0)
           eq_refl eq_refl).
Defined.

(** ** C4: a failed fetch *)

(** In the slim copy a rejected fetch clears the token and leaves the
    derived identity in place. *)
Lemma fetchToken_failure_counterexample :
  PluginSlim.fetchToken true 20000 20000 Rejects
    (mkAuth (Some "old") (Some ada) 0 0)
  = (mkAuth None (Some ada) 0 1, None).
Proof. reflexivity. Qed.

(** Claim C4, as amended.  When the network fetch is issued and fails
    (rejects, carries an error, or carries no token), either copy returns
    null, nothing being thrown, and clears the stored token;
    [plugin.client.ts] clears the derived identity as well, the slim copy
    (part 002) leaves the identity as it was. *)
Theorem fetchToken_failure_clears :
  forall decode force now later response st,
    fetchFailed response = true ->
    (networkCalls
       (fst (PluginClient.fetchToken decode force now later response st))
     = S (networkCalls st) ->
     let '(st', result) :=
       PluginClient.fetchToken decode force now later response st in
     result = None /\ convexToken st' = None /\ convexUser st' = None)
    /\ (networkCalls
          (fst (PluginSlim.fetchToken force now later response st))
        = S (networkCalls st) ->
        let '(st', result) :=
          PluginSlim.fetchToken force now later response st in
        result = None /\ convexToken st' = None
        /\ convexUser st' = convexUser st).
Proof.
  intros decode force now later response st Hfail. split; intros Hnet.
  - rewrite (client_failure decode force now later response st Hfail Hnet).
    repeat split.
  - rewrite (slim_failure force now later response st Hfail Hnet).
    repeat split.
Qed.

Lemma fetchToken_failure_clears_witness :
  (let '(st', result) :=
     PluginClient.fetchToken (fun _ => None) true 20000 20000
       (Resolves true None) (mkAuth (Some "old") (Some ada) 0 0) in
   result = None /\ convexToken st' = None /\ convexUser st' = None)
  /\ (let '(st', result) :=
        PluginSlim.fetchToken true 20000 20000
          (Resolves true None) (mkAuth (Some "old") (Some ada) 0 0) in
      result = None /\ convexToken st' = None
      /\ convexUser st' = Some ada).
Proof.
  destruct (fetchToken_failure_clears (fun _ => None) true 20000 20000
              (Resolves true None) (mkAuth (Some "old") (Some ada) 0 0)
              eq_refl) as [Hc Hs].
  split; [apply Hc | apply Hs]; reflexivity.
Defined.

(** ** The hydrated token *)

(** Property X1.  With a token in the cell and [forceRefreshToken] false,
    both copies return the token as it is, note the time of the call as
    the last validation and issue no network call. *)
Theorem fetchToken_hydrated :
  forall decode now later response st,
    truthy (convexToken st) = true ->
    PluginClient.fetchToken decode false now later response st
    = (mkAuth (convexToken st) (convexUser st) now (networkCalls st),
       convexToken st)
    /\ PluginSlim.fetchToken false now later response st
       = (mkAuth (convexToken st) (convexUser st) now (networkCalls st),
          convexToken st).
Proof.
  intros decode now later response st Htok.
  unfold PluginClient.fetchToken, PluginSlim.fetchToken.
  rewrite Htok. split; reflexivity.
Qed.

Lemma fetchToken_hydrated_witness :
  PluginClient.fetchToken (fun _ => None) false 42 42 Rejects cachedSession
  = (mkAuth (Some "jwt") None 42 0, Some "jwt")
  /\ PluginSlim.fetchToken false 42 42 Rejects cachedSession
     = (mkAuth (Some "jwt") None 42 0, Some "jwt").
Proof.
  exact (fetchToken_hydrated (fun _ => None) 42 42 Rejects cachedSession
           eq_refl).
Defined.

(** * Facts about series of calls to fetchToken *)

Lemma truthy_Some t : truthy t = true -> exists s, t = Some s.
Proof. destruct t; [eauto | discriminate]. Qed.

(** Property X7.  While a token is held, a burst of forced refreshes, each
    made less than the window after the last validation, never reaches the
    network: every call returns the held token and the cells stay as they
    were, in both copies of the plugin. *)
Theorem forced_burst_is_debounced :
  forall decode (calls : list Call) (st : AuthState),
    truthy (convexToken st) = true ->
    forallb (forcedWithin 10000 (lastTokenValidation st)) calls = true ->
    clientCalls decode calls st = (st, map (fun _ => convexToken st) calls)
    /\ slimCalls calls st = (st, map (fun _ => convexToken st) calls).
Proof.
  intros decode calls st Htok.
  induction calls as [|c rest IH]; cbn [forallb]; intros Hall;
    [split; reflexivity|].
  apply andb_true_iff in Hall as [Hc Hrest].
  apply andb_true_iff in Hc as [Hforce Hwithin]. apply Z.ltb_lt in Hwithin.
  destruct (IH Hrest) as [IHc IHs]. cbn [clientCalls slimCalls map].
  rewrite Hforce.
  rewrite (client_within_ttl decode _ _ _ st Htok Hwithin),
          (slim_within_ttl _ _ _ st Htok Hwithin).
  now rewrite IHc, IHs.
Qed.

Lemma forced_burst_is_debounced_witness :
  clientCalls (fun _ => None)
    [mkCall true 2000 2000 Rejects; mkCall true 9999 9999 Rejects]
    cachedSession
  = (cachedSession, [Some "jwt"; Some "jwt"])
  /\ slimCalls [mkCall true 2000 2000 Rejects; mkCall true 9999 9999 Rejects]
       cachedSession
     = (cachedSession, [Some "jwt"; Some "jwt"]).
Proof.
  exact (forced_burst_is_debounced (fun _ => None)
           [mkCall true 2000 2000 Rejects; mkCall true 9999 9999 Rejects]
           cachedSession eq_refl eq_refl).
Defined.

Lemma client_success decode force now later response st :
  fetchFailed response = false ->
  networkCalls (fst (PluginClient.fetchToken decode force now later response st))
  = S (networkCalls st) ->
  exists token,
    response = Resolves false (Some token) /\ truthy (Some token) = true
    /\ PluginClient.fetchToken decode force now later response st
       = (mkAuth (Some token)
                 (PluginClient.extractUser decode (convexUser st) token)
                 later (S (networkCalls st)),
          Some token).
Proof.
  intros Hok. unfold PluginClient.fetchToken.
  destruct (truthy (convexToken st) && negb force); [cbn; lia|].
  destruct (truthy (convexToken st) && force && _); [cbn; lia|].
  intros _. destruct response as [|err tok]; [discriminate|].
  cbn in Hok. rewrite Hok. apply orb_false_iff in Hok as [-> Htok].
  apply negb_false_iff in Htok. destruct tok as [token|]; [|discriminate].
  now exists token.
Qed.

Lemma slim_success force now later response st :
  fetchFailed response = false ->
  networkCalls (fst (PluginSlim.fetchToken force now later response st))
  = S (networkCalls st) ->
  exists token,
    response = Resolves false (Some token) /\ truthy (Some token) = true
    /\ PluginSlim.fetchToken force now later response st
       = (mkAuth (Some token) (convexUser st) later (S (networkCalls st)),
          Some token).
Proof.
  intros Hok. unfold PluginSlim.fetchToken.
  destruct (truthy (convexToken st) && negb force); [cbn; lia|].
  destruct (truthy (convexToken st) && force && _); [cbn; lia|].
  destruct (negb (truthy (convexToken st)) && negb (known (convexUser st)));
    [cbn; lia|].
  intros _. destruct response as [|err tok]; [discriminate|].
  cbn in Hok. rewrite Hok. apply orb_false_iff in Hok as [-> Htok].
  apply negb_false_iff in Htok. destruct tok as [token|]; [|discriminate].
  now exists token.
Qed.

(** Property X8.  After a fetch that succeeded, a forced refresh made less
    than the window after that fetch returned is answered from the cell:
    it returns the token just fetched and issues no second network call
    (both copies of the plugin). *)
Theorem refresh_after_fetch_is_debounced :
  forall decode force now later response st now' later' response',
    fetchFailed response = false ->
    now' - later < 10000 ->
    (networkCalls
       (fst (PluginClient.fetchToken decode force now later response st))
     = S (networkCalls st) ->
     let '(st1, token) :=
       PluginClient.fetchToken decode force now later response st in
     PluginClient.fetchToken decode true now' later' response' st1
     = (st1, token))
    /\ (networkCalls
          (fst (PluginSlim.fetchToken force now later response st))
        = S (networkCalls st) ->
        let '(st1, token) :=
          PluginSlim.fetchToken force now later response st in
        PluginSlim.fetchToken true now' later' response' st1 = (st1, token)).
Proof.
  intros decode force now later response st now' later' response' Hok Hnear.
  split; intros Hnet.
  - destruct (client_success decode force now later response st Hok Hnet)
      as (token & _ & Htok & ->).
    now apply client_within_ttl.
  - destruct (slim_success force now later response st Hok Hnet)
      as (token & _ & Htok & ->).
    now apply slim_within_ttl.
Qed.

Lemma refresh_after_fetch_is_debounced_witness :
  (let '(st1, token) :=
     PluginClient.fetchToken (fun _ => None) true 20000 20100
       (Resolves false (Some "fresh")) cachedSession in
   PluginClient.fetchToken (fun _ => None) true 25000 25100 Rejects st1
   = (st1, token))
  /\ (let '(st1, token) :=
        PluginSlim.fetchToken true 20000 20100
          (Resolves false (Some "fresh")) cachedSession in
      PluginSlim.fetchToken true 25000 25100 Rejects st1 = (st1, token)).
Proof.
  destruct (refresh_after_fetch_is_debounced (fun _ => None) true 20000 20100
              (Resolves false (Some "fresh")) cachedSession 25000 25100
              Rejects eq_refl eq_refl) as [Hc Hs].
  split; [apply Hc | apply Hs]; reflexivity.
Defined.

(** Property X9.  What a call returns is what it leaves in the token cell,
    and it is null or a non-empty token; a token that is returned was
    validated less than the window before the call returned.  (In the slim
    copy the early return for "no prior state" answers null while an empty
    string may sit in the cell.) *)
Theorem returned_token_is_stored_and_fresh :
  forall decode force now later response st,
    (let '(st', result) :=
       PluginClient.fetchToken decode force now later response st in
     result = convexToken st'
     /\ (result = None \/ truthy result = true)
     /\ (truthy result = true ->
         returnedAt st st' now later - lastTokenValidation st' < 10000))
    /\ (let '(st', result) :=
          PluginSlim.fetchToken force now later response st in
        truthy result = truthy (convexToken st')
        /\ (result = None \/ truthy result = true)
        /\ (truthy result = true ->
            result = convexToken st'
            /\ returnedAt st st' now later - lastTokenValidation st' < 10000)).
Proof.
  intros decode force now later response st.
  assert (Hsucc : Nat.eqb (S (networkCalls st)) (networkCalls st) = false)
    by (apply Nat.eqb_neq; lia).
  split.
  - unfold PluginClient.fetchToken, returnedAt.
    destruct (truthy (convexToken st)) eqn:Htok, force; cbn [andb negb];
      try (cbn -[Nat.eqb Z.sub]; rewrite Nat.eqb_refl;
           repeat split; auto; intros _; lia);
      try (destruct (now - lastTokenValidation st
                     <? PluginClient.TOKEN_CACHE_MS) eqn:Hlt;
           [ apply Z.ltb_lt in Hlt; cbn -[Nat.eqb Z.sub];
             rewrite Nat.eqb_refl; repeat split; auto | ]);
      (destruct response as [|err tok];
       [cbn -[Nat.eqb Z.sub]; intuition discriminate|];
       destruct (err || negb (truthy tok)) eqn:Hbad;
       [cbn -[Nat.eqb Z.sub]; intuition discriminate|];
       apply orb_false_iff in Hbad as [_ Hgood];
       apply negb_false_iff in Hgood;
       destruct tok as [token|]; [|discriminate];
       cbn -[Nat.eqb Z.sub truthy]; rewrite Hsucc;
       repeat split; auto; intros _; lia).
  - assert (Hnet : forall err tok,
      let st' := fst (if err || negb (truthy tok)
                      then (mkAuth None (convexUser st)
                              (lastTokenValidation st) (S (networkCalls st)),
                            None)
                      else (mkAuth tok (convexUser st) later
                              (S (networkCalls st)), tok)) in
      let result := snd (if err || negb (truthy tok)
                         then (mkAuth None (convexUser st)
                                 (lastTokenValidation st)
                                 (S (networkCalls st)), None)
                         else (mkAuth tok (convexUser st) later
                                 (S (networkCalls st)), tok)) in
      truthy result = truthy (convexToken st')
      /\ (result = None \/ truthy result = true)
      /\ (truthy result = true ->
          result = convexToken st'
          /\ returnedAt st st' now later - lastTokenValidation st' < 10000)).
    { intros err tok. unfold returnedAt.
      destruct (err || negb (truthy tok)) eqn:Hbad;
        cbn -[Nat.eqb Z.sub truthy].
      - repeat split; auto; discriminate.
      - apply orb_false_iff in Hbad as [_ Hgood].
        apply negb_false_iff in Hgood. rewrite Hsucc.
        repeat split; auto. lia. }
    unfold PluginSlim.fetchToken.
    destruct (truthy (convexToken st) && negb force) eqn:Hfirst.
    { apply andb_true_iff in Hfirst as [Htok _]. unfold returnedAt.
      cbn -[Nat.eqb Z.sub truthy]. rewrite Nat.eqb_refl.
      repeat split; auto. lia. }
    destruct (truthy (convexToken st) && force
              && (now - lastTokenValidation st <? PluginSlim.TOKEN_CACHE_MS))
      eqn:Hsecond.
    { apply andb_true_iff in Hsecond as [Htok Hlt].
      apply andb_true_iff in Htok as [Htok _]. apply Z.ltb_lt in Hlt.
      unfold returnedAt. cbn -[Nat.eqb Z.sub truthy]. rewrite Nat.eqb_refl.
      repeat split; auto. }
    destruct (negb (truthy (convexToken st)) && negb (known (convexUser st)))
      eqn:Hguard.
    { apply andb_true_iff in Hguard as [Htok _].
      apply negb_true_iff in Htok. cbn -[Nat.eqb Z.sub truthy].
      rewrite Htok. repeat split; auto; discriminate. }
    destruct response as [|err tok].
    + cbn -[Nat.eqb Z.sub truthy]. repeat split; auto; discriminate.
    + specialize (Hnet err tok).
      destruct (err || negb (truthy tok)); exact Hnet.
Qed.

Lemma returned_token_is_stored_and_fresh_witness :
  returnedAt cachedSession
    (fst (PluginClient.fetchToken (fun _ => None) true 9000 9100 Rejects
            cachedSession)) 9000 9100
  - lastTokenValidation
      (fst (PluginClient.fetchToken (fun _ => None) true 9000 9100 Rejects
              cachedSession))
  < 10000.
Proof.
  pose proof (proj1 (returned_token_is_stored_and_fresh (fun _ => None) true
                       9000 9100 Rejects cachedSession)) as H.
  exact (proj2 (proj2 H) eq_refl).
Defined.

(** Property X10.  In [plugin.client.ts] the decoding of the token payload
    bears on the user cell alone: the returned token, the token cell, the
    time of validation and the use of the network are the same whatever
    the decoding does, a failed decoding included.  And a user that is
    already known is kept by every call that returns a token. *)
Theorem decoding_never_affects_token :
  forall decode decode' force now later response st,
    let r := PluginClient.fetchToken decode force now later response st in
    let r' := PluginClient.fetchToken decode' force now later response st in
    snd r = snd r'
    /\ convexToken (fst r) = convexToken (fst r')
    /\ lastTokenValidation (fst r) = lastTokenValidation (fst r')
    /\ networkCalls (fst r) = networkCalls (fst r')
    /\ (known (convexUser st) = true ->
        r = r' /\ (snd r <> None -> convexUser (fst r) = convexUser st)).
Proof.
  intros decode decode' force now later response st.
  unfold PluginClient.fetchToken.
  destruct (truthy (convexToken st) && negb force);
    [cbn; repeat split; auto|].
  destruct (truthy (convexToken st) && force && _);
    [cbn; repeat split; auto|].
  destruct response as [|err tok];
    [cbn; repeat split; auto; congruence|].
  destruct (err || negb (truthy tok));
    [cbn; repeat split; auto; congruence|].
  destruct tok as [token|]; [|cbn; repeat split; auto; congruence].
  cbn. repeat split; auto; destruct (convexUser st); try discriminate;
    reflexivity.
Qed.

Lemma decoding_never_affects_token_witness :
  PluginClient.fetchToken (fun _ => None) true 20000 20100
    (Resolves false (Some "fresh")) (mkAuth (Some "old") (Some ada) 0 0)
  = PluginClient.fetchToken (fun _ => Some (mkUser "x" "y" "z")) true 20000
      20100 (Resolves false (Some "fresh"))
      (mkAuth (Some "old") (Some ada) 0 0).
Proof.
  exact (proj1 (proj2 (proj2 (proj2 (proj2
           (decoding_never_affects_token (fun _ => None)
              (fun _ => Some (mkUser "x" "y" "z")) true 20000 20100
              (Resolves false (Some "fresh"))
              (mkAuth (Some "old") (Some ada) 0 0))))) eq_refl)).
Defined.

Lemma slim_no_prior_state force now later response st :
  truthy (convexToken st) = false -> known (convexUser st) = false ->
  PluginSlim.fetchToken force now later response st = (st, None).
Proof.
  intros Htok Huser. unfold PluginSlim.fetchToken.
  now rewrite Htok, Huser.
Qed.

(** Property X11.  In the slim copy, a session with neither token nor user
    stays signed out whatever calls follow: no call reaches the network,
    every call returns null and the cells never change, so [fetchToken]
    alone cannot sign such a session in. *)
Theorem slim_signed_out_is_absorbing :
  forall (calls : list Call) (st : AuthState),
    truthy (convexToken st) = false ->
    known (convexUser st) = false ->
    slimCalls calls st = (st, map (fun _ => None) calls).
Proof.
  intros calls st Htok Huser.
  induction calls as [|c rest IH]; [reflexivity|].
  cbn [slimCalls map].
  rewrite (slim_no_prior_state _ _ _ _ st Htok Huser).
  now rewrite IH.
Qed.

Lemma slim_signed_out_is_absorbing_witness :
  slimCalls [mkCall true 20000 20100 (Resolves false (Some "fresh"));
             mkCall false 30000 30100 (Resolves false (Some "fresh"))]
    (mkAuth None None 0 0)
  = (mkAuth None None 0 0, [None; None]).
Proof.
  exact (slim_signed_out_is_absorbing
           [mkCall true 20000 20100 (Resolves false (Some "fresh"));
            mkCall false 30000 30100 (Resolves false (Some "fresh"))]
           (mkAuth None None 0 0) eq_refl eq_refl).
Defined.

(** * Facts about the one-shot query *)

Lemma callback_once_resolved {R : Type} (updates : list R) (st : OneShot.State R) :
  OneShot.resolved st = true -> OneShot.deliver updates st = st.
Proof.
  intros Hres. induction updates as [|u rest IH]; [reflexivity|].
  unfold OneShot.deliver in *. cbn [fold_left].
  unfold OneShot.callback at 2. rewrite Hres. exact IH.
Qed.

(** Claim C9.  Whenever the feed pushes at least one value, the promise is
    settled with the first one; the callback's whole effect is one call of
    [unsubscribe] followed by one call of [resolve], both made on that
    first push, and the pushes after it change nothing. *)
Theorem executeQueryViaSubscription_first_value :
  forall (R : Type) (first : R) (later : list R),
    let st := OneShot.executeQueryViaSubscription (first :: later) in
    OneShot.settledWith (OneShot.effects st) = Some first
    /\ OneShot.unsubscribeCalls (OneShot.effects st) = 1%nat
    /\ OneShot.effects st = [OneShot.CallUnsubscribe; OneShot.CallResolve first]
    /\ st = OneShot.executeQueryViaSubscription [first].
Proof.
  intros R first later st.
  assert (Hst : st = OneShot.mkState true
                       [OneShot.CallUnsubscribe; OneShot.CallResolve first]).
  { subst st. unfold OneShot.executeQueryViaSubscription, OneShot.deliver.
    cbn [fold_left]. apply (callback_once_resolved later). reflexivity. }
  rewrite Hst. repeat split.
Qed.

(** * Facts about the subscription cache and the binding *)

Section CacheFacts.

Context {A : Type}.
Implicit Types (app : NuxtApp A) (key : string).

Lemma hasSubscription_true app key :
  hasSubscription app key = true <-> is_Some (convexSubscriptions app !! key).
Proof.
  unfold hasSubscription. destruct (convexSubscriptions app !! key); split;
    intros H; try reflexivity; try discriminate; eauto.
  destruct H as [? H]; discriminate.
Qed.

Lemma register_present app key stored teardown :
  convexSubscriptions app !! key = Some stored ->
  registerSubscription app key teardown = app.
Proof. intros H. unfold registerSubscription. now rewrite H. Qed.

Lemma register_absent app key teardown :
  convexSubscriptions app !! key = None ->
  convexSubscriptions (registerSubscription app key teardown)
  = <[key := teardown]> (convexSubscriptions app).
Proof. intros H. unfold registerSubscription. now rewrite H. Qed.

(** After a registration the key holds an entry: the one that was there,
    or else the one offered. *)
Lemma register_lookup app key teardown :
  convexSubscriptions (registerSubscription app key teardown) !! key
  = Some (default teardown (convexSubscriptions app !! key)).
Proof.
  unfold registerSubscription.
  destruct (convexSubscriptions app !! key) as [stored|] eqn:E; cbn.
  - exact E.
  - apply lookup_insert_eq.
Qed.

Lemma cleanup_present app key stored :
  convexSubscriptions app !! key = Some stored ->
  cleanupSubscription app key
  = mkApp (delete key (convexSubscriptions app)) (convex app)
          (trace app ++ [Teardown stored])%list (nextHandle app).
Proof. intros H. unfold cleanupSubscription. now rewrite H. Qed.

Lemma cleanup_absent app key :
  convexSubscriptions app !! key = None -> cleanupSubscription app key = app.
Proof. intros H. unfold cleanupSubscription. now rewrite H. Qed.

Lemma cleanup_forgets app key :
  convexSubscriptions (cleanupSubscription app key) !! key = None.
Proof.
  unfold cleanupSubscription.
  destruct (convexSubscriptions app !! key) eqn:E; cbn; [|exact E].
  apply lookup_delete_eq.
Qed.

Lemma cleanup_idempotent app key :
  cleanupSubscription (cleanupSubscription app key) key
  = cleanupSubscription app key.
Proof. apply cleanup_absent, cleanup_forgets. Qed.

End CacheFacts.

(** ** The bridge *)

Section BridgeFacts.

Context {A : Type} (q : Query A).
Implicit Types (app : NuxtApp A) (b : Binding.State A).

Lemma setup_skip app b :
  Binding.args b = Skip -> Binding.setupSubscription q app b = (app, b).
Proof. intros H. unfold Binding.setupSubscription. now rewrite H. Qed.

(** An entry is already there: nothing is opened, nothing is stored. *)
Lemma setup_reuse app b :
  hasSubscription app (Binding.getCacheKey q (Binding.args b)) = true ->
  Binding.setupSubscription q app b = (app, b).
Proof.
  intros H. unfold Binding.setupSubscription.
  destruct (Binding.args b); [reflexivity|].
  destruct (negb (convex app)); [reflexivity|]. now rewrite H.
Qed.

(** The key is free and the client is there: one [onUpdate], one entry. *)
Lemma setup_fresh app b a :
  Binding.args b = Concrete a ->
  convex app = true ->
  convexSubscriptions app !! getQueryKey q (Concrete a) = None ->
  Binding.setupSubscription q app b
  = (mkApp (<[getQueryKey q (Concrete a) := nextHandle app]>
              (convexSubscriptions app))
           true
           (trace app ++ [LiveSubscribe (getQueryKey q (Concrete a))
                                          (nextHandle app)])%list
           (S (nextHandle app)),
     Binding.mkState (Concrete a) (Some (nextHandle app))).
Proof.
  intros Hargs Hconvex Hfree. unfold Binding.setupSubscription.
  rewrite Hargs, Hconvex. cbn [negb Binding.getCacheKey].
  unfold hasSubscription, registerSubscription. cbn [convexSubscriptions].
  rewrite Hfree. reflexivity.
Qed.

Lemma unmount_without_handle app b :
  Binding.unsubscribeFn b = None -> Binding.onUnmounted q app b = (app, b).
Proof. intros H. unfold Binding.onUnmounted. now rewrite H. Qed.

End BridgeFacts.

(** ** C6: one entry per key, one teardown per entry *)

(** Claim C6.  Offering a second teardown for a key that already holds one
    changes nothing: the cache is the one the first registration left, and
    the key holds exactly one teardown, the earliest stored.  Cleaning the
    key up twice calls that teardown once and leaves the key empty.
    Seen from the composable: once a binding has set up its bridge on a
    free key, a second binding on the same key opens nothing and stores
    nothing, and the key keeps the first binding's teardown. *)
Theorem subscription_registry_dedup :
  forall (A : Type) (app : NuxtApp A) (key : string) (first second : nat),
    let once := registerSubscription app key first in
    let twice := registerSubscription once key second in
    let stored := default first (convexSubscriptions app !! key) in
    twice = once
    /\ convexSubscriptions twice !! key = Some stored
    /\ cleanupSubscription (cleanupSubscription twice key) key
       = cleanupSubscription twice key
    /\ trace (cleanupSubscription (cleanupSubscription twice key) key)
       = (trace app ++ [Teardown stored])%list
    /\ Binding.teardowns stored
         (trace (cleanupSubscription (cleanupSubscription twice key) key))
       = S (Binding.teardowns stored (trace app))
    /\ convexSubscriptions (cleanupSubscription (cleanupSubscription twice key) key)
         !! key = None
    /\ (forall (q : Query A) (a : A),
          convex app = true ->
          convexSubscriptions app !! getQueryKey q (Concrete a) = None ->
          let '(app1, b1) :=
            Binding.setupSubscription q app (Binding.mkState (Concrete a) None) in
          Binding.unsubscribeFn b1 = Some (nextHandle app)
          /\ convexSubscriptions app1 !! getQueryKey q (Concrete a)
             = Some (nextHandle app)
          /\ Binding.setupSubscription q app1 (Binding.mkState (Concrete a) None)
             = (app1, Binding.mkState (Concrete a) None)).
Proof.
  intros A app key first second once twice stored.
  assert (Hlook : convexSubscriptions once !! key = Some stored)
    by apply register_lookup.
  assert (Htwice : twice = once)
    by (subst twice; eapply register_present; exact Hlook).
  assert (Htrace : trace once = trace app).
  { subst once. unfold registerSubscription.
    destruct (convexSubscriptions app !! key); reflexivity. }
  assert (Hclean : trace (cleanupSubscription once key)
                   = (trace app ++ [Teardown stored])%list).
  { rewrite (cleanup_present once key stored Hlook). cbn. now rewrite Htrace. }
  rewrite Htwice, cleanup_idempotent.
  repeat match goal with |- _ /\ _ => split end;
    try reflexivity; try assumption.
  - rewrite Hclean. unfold Binding.teardowns.
    rewrite List.filter_app, length_app. cbn. rewrite Nat.eqb_refl. cbn. lia.
  - apply cleanup_forgets.
  - intros q a Hconvex Hfree.
    rewrite (setup_fresh q app (Binding.mkState (Concrete a) None) a eq_refl Hconvex Hfree).
    cbn [Binding.unsubscribeFn convexSubscriptions].
    split; [reflexivity|]. split; [apply lookup_insert_eq|].
    apply setup_reuse. cbn. unfold hasSubscription. cbn.
    now rewrite lookup_insert_eq.
Qed.

Lemma subscription_registry_dedup_witness :
  let '(app1, b1) :=
    Binding.setupSubscription itemsGet freshApp
      (Binding.mkState (Concrete "5") None) in
  Binding.unsubscribeFn b1 = Some 0%nat
  /\ convexSubscriptions app1 !! "convex:items:get:{id:5}" = Some 0%nat
  /\ Binding.setupSubscription itemsGet app1 (Binding.mkState (Concrete "5") None)
     = (app1, Binding.mkState (Concrete "5") None).
Proof.
  destruct (subscription_registry_dedup string freshApp "k" 1 2)
    as (_ & _ & _ & _ & _ & _ & Hbridge).
  exact (Hbridge itemsGet "5" eq_refl eq_refl).
Defined.

(** ** C10: a reused entry is not this binding's to tear down *)

(** Claim C10.  A binding whose setup finds an entry under its cache key
    opens no subscription and stores no teardown: its [unsubscribeFn]
    stays null and the application is untouched.  Unmounting it then
    calls no unsubscribe function and removes nothing, so the entry that
    was there is still registered and has not been torn down. *)
Theorem reused_subscription_survives_unmount :
  forall (A : Type) (q : Query A) (app : NuxtApp A) (a : QueryArgs A),
    hasSubscription app (Binding.getCacheKey q a) = true ->
    let '(app1, b1) :=
      Binding.setupSubscription q app (Binding.mkState a None) in
    Binding.unsubscribeFn b1 = None
    /\ app1 = app
    /\ let '(app2, b2) := Binding.onUnmounted q app1 b1 in
       app2 = app
       /\ Binding.unsubscribeFn b2 = None
       /\ trace app2 = trace app
       /\ convexSubscriptions app2 !! Binding.getCacheKey q a
          = convexSubscriptions app !! Binding.getCacheKey q a
       /\ is_Some (convexSubscriptions app2 !! Binding.getCacheKey q a).
Proof.
  intros A q app a Hhas.
  rewrite (setup_reuse q app (Binding.mkState a None) Hhas).
  split; [reflexivity|]. split; [reflexivity|].
  rewrite (unmount_without_handle q app (Binding.mkState a None) eq_refl).
  repeat split. now apply hasSubscription_true.
Qed.

Lemma reused_subscription_survives_unmount_witness :
  let '(app1, b1) :=
    Binding.setupSubscription itemsGet sharedApp
      (Binding.mkState (Concrete "5") None) in
  Binding.unsubscribeFn b1 = None
  /\ app1 = sharedApp
  /\ let '(app2, b2) := Binding.onUnmounted itemsGet app1 b1 in
     app2 = sharedApp
     /\ Binding.unsubscribeFn b2 = None
     /\ trace app2 = trace sharedApp
     /\ convexSubscriptions app2 !! "convex:items:get:{id:5}"
        = convexSubscriptions sharedApp !! "convex:items:get:{id:5}"
     /\ is_Some (convexSubscriptions app2 !! "convex:items:get:{id:5}").
Proof.
  exact (reused_subscription_survives_unmount string itemsGet sharedApp
           (Concrete "5") eq_refl).
Defined.

(** ** C5: the sentinel, and leaving it *)

(** Leaving ['skip'] for [{ id: 5 }] while another component already keeps
    the live subscription for that key: the handler fetches once, and the
    bridge registers nothing, since it reuses the entry it finds. *)
Lemma skip_then_concrete_counterexample :
  let '(app', b', outcome) :=
    Binding.argsChanged itemsGet browser (Concrete "5") sharedApp
      (Binding.mkState Skip None) in
  Binding.fetches (trace app') = 1%nat
  /\ Binding.registrations (trace app') = 0%nat
  /\ Binding.unsubscribeFn b' = None
  /\ convexSubscriptions app' = convexSubscriptions sharedApp.
Proof. repeat split. Qed.

(** Claim C5, as amended.  While the arguments are ['skip'] no network
    call occurs, the published data is the default with the status idle,
    and no subscription is registered.  When reactive arguments are then
    replaced by a concrete mapping (client side, URL and client present,
    [subscribe] on, the helpers rendering and keying ['skip'] unlike the
    mapping), exactly one fetch is triggered, and exactly one subscription
    registration, unless the cache already holds an entry for the new
    key: the binding then reuses it and registers none. *)
Theorem skip_then_concrete :
  forall (A D : Type) (q : Query A) (env : Binding.Env) (app : NuxtApp A)
         (default : option D) (a : A),
    (let '(app0, outcome) := Binding.handler env Skip app in
     app0 = app
     /\ Binding.published default outcome = (Binding.Idle, default))
    /\ Binding.mountSubscription q env Skip app
       = (app, Binding.mkState Skip None)
    /\ (Binding.isClient env = true ->
        Binding.hasUrl env = true ->
        Binding.subscribe env = true ->
        Binding.reactiveArgs env = true ->
        convex app = true ->
        stableStringify q (Concrete a) <> stableStringify q Skip ->
        getQueryKey q (Concrete a) <> getQueryKey q Skip ->
        let key := getQueryKey q (Concrete a) in
        let '(app', b', outcome) :=
          Binding.argsChanged q env (Concrete a) app
            (Binding.mkState Skip None) in
        exists new,
          trace app' = (trace app ++ new)%list
          /\ outcome = Some Binding.AwaitsTransport
          /\ Binding.fetches new = 1%nat
          /\ match convexSubscriptions app !! key with
             | Some stored =>
                 Binding.registrations new = 0%nat
                 /\ Binding.unsubscribeFn b' = None
                 /\ convexSubscriptions app' !! key = Some stored
             | None =>
                 Binding.registrations new = 1%nat
                 /\ Binding.unsubscribeFn b' = Some (nextHandle app)
                 /\ convexSubscriptions app' !! key = Some (nextHandle app)
             end).
Proof.
  intros A D q env app default a. split; [now split|]. split.
  { unfold Binding.mountSubscription.
    destruct (Binding.isClient env && Binding.subscribe env); reflexivity. }
  intros Hclient Hurl Hsub Hreactive Hconvex Hrender Hkeys key.
  unfold Binding.argsChanged, Binding.handler.
  rewrite Hreactive, Hurl, Hclient, Hsub, Hconvex. cbn [negb andb].
  unfold Binding.watcherFires, Binding.onArgsChange. cbn [Binding.args].
  apply String.eqb_neq in Hrender. rewrite Hrender.
  set (fetched := emit (OneShotQuery a) app).
  assert (Hcleaned :
    exists torn,
      trace (cleanupSubscription fetched (getQueryKey q Skip))
      = (trace app ++ OneShotQuery a :: torn)%list
      /\ Binding.fetches torn = 0%nat /\ Binding.registrations torn = 0%nat
      /\ convex (cleanupSubscription fetched (getQueryKey q Skip)) = true
      /\ nextHandle (cleanupSubscription fetched (getQueryKey q Skip))
         = nextHandle app
      /\ convexSubscriptions (cleanupSubscription fetched (getQueryKey q Skip))
           !! key
         = convexSubscriptions app !! key).
  { unfold cleanupSubscription. cbn [fetched emit convexSubscriptions].
    destruct (convexSubscriptions app !! getQueryKey q Skip) as [h|].
    - exists [Teardown h]. cbn. rewrite <- app_assoc.
      repeat split; try assumption. now apply lookup_delete_ne.
    - exists []. cbn. repeat split; assumption. }
  destruct Hcleaned as (torn & Htrace & Hf & Hr & Hc & Hn & Hlook).
  set (cleaned := cleanupSubscription fetched (getQueryKey q Skip)) in *.
  destruct (convexSubscriptions app !! key) as [stored|] eqn:Hentry.
  - rewrite setup_reuse.
    + exists (OneShotQuery a :: torn). cbn [fst snd Binding.unsubscribeFn].
      split; [exact Htrace|]. split; [reflexivity|].
      unfold Binding.fetches, Binding.registrations in *. cbn.
      repeat split; try assumption. now rewrite Hf.
    + cbn. unfold hasSubscription. fold key. now rewrite Hlook.
  - rewrite (setup_fresh q cleaned (Binding.mkState (Concrete a) None) a
               eq_refl Hc Hlook).
    exists (OneShotQuery a :: torn ++ [LiveSubscribe key (nextHandle app)])%list.
    cbn [trace convexSubscriptions Binding.unsubscribeFn]. rewrite Htrace, Hn.
    fold key. split; [now rewrite <- app_assoc|]. split; [reflexivity|].
    unfold Binding.fetches, Binding.registrations in *. cbn.
    rewrite !List.filter_app, !length_app, Hf, Hr. cbn.
    repeat split. apply lookup_insert_eq.
Qed.

Lemma skip_then_concrete_witness :
  let '(app', b', outcome) :=
    Binding.argsChanged itemsGet browser (Concrete "5") freshApp
      (Binding.mkState Skip None) in
  exists new,
    trace app' = (trace freshApp ++ new)%list
    /\ outcome = Some Binding.AwaitsTransport
    /\ Binding.fetches new = 1%nat
    /\ Binding.registrations new = 1%nat
    /\ Binding.unsubscribeFn b' = Some 0%nat
    /\ convexSubscriptions app' !! "convex:items:get:{id:5}" = Some 0%nat.
Proof.
  destruct (skip_then_concrete string string itemsGet browser freshApp None
              "5") as (_ & _ & Hleave).
  exact (Hleave eq_refl eq_refl eq_refl eq_refl eq_refl
           ltac:(discriminate) ltac:(discriminate)).
Defined.

(** ** A binding's own subscription *)



(** ** A change of arguments cleans the old key up, whoever owns it *)

(** Property X3.  The watcher calls [cleanupSubscription] on the old key
    without asking whether this binding registered the entry (lines
    279-282): a binding that only reused another component's subscription
    tears that subscription down when its arguments are replaced by any
    others that render differently, and the entry is gone from the old
    key unless the new arguments are filed under the same key. *)
Theorem args_change_tears_down_reused_entry :
  forall (A : Type) (q : Query A) (app : NuxtApp A) (a : A) (owner : nat)
         (newArgs : QueryArgs A),
    convexSubscriptions app !! getQueryKey q (Concrete a) = Some owner ->
    stableStringify q newArgs <> stableStringify q (Concrete a) ->
    let key := getQueryKey q (Concrete a) in
    let '(app1, b1) :=
      Binding.setupSubscription q app (Binding.mkState (Concrete a) None) in
    let '(app2, b2) :=
      Binding.watcherFires q (Binding.Replaced newArgs) app1 b1 in
    Binding.unsubscribeFn b1 = None
    /\ (exists opened,
          trace app2 = (trace app ++ Teardown owner :: opened)%list
          /\ forall h, ~ In (Teardown h) opened)
    /\ (Binding.getCacheKey q newArgs <> key ->
        convexSubscriptions app2 !! key = None).
Proof.
  intros A q app a owner newArgs Hentry Hdiff key.
  rewrite (setup_reuse q app (Binding.mkState (Concrete a) None))
    by (cbn; unfold hasSubscription; now rewrite Hentry).
  unfold Binding.watcherFires, Binding.onArgsChange.
  cbn [Binding.args Binding.unsubscribeFn].
  apply String.eqb_neq in Hdiff. rewrite Hdiff.
  fold key. rewrite (cleanup_present app key owner Hentry).
  destruct newArgs as [|a'].
  - cbn. split; [reflexivity|]. split; [|intros _; apply lookup_delete_eq].
    exists []. split; [reflexivity | intros h []].
  - unfold Binding.setupSubscription.
    cbn [Binding.args convex negb Binding.getCacheKey].
    destruct (convex app); cbn [negb].
    + unfold hasSubscription, registerSubscription.
      cbn [convexSubscriptions trace nextHandle].
      destruct (delete key (convexSubscriptions app)
                  !! getQueryKey q (Concrete a')) eqn:Hnew.
      * cbn. split; [reflexivity|].
        split; [|intros _; apply lookup_delete_eq].
        exists []. split; [reflexivity | intros h []].
      * cbn. split; [reflexivity|]. split.
        -- exists [LiveSubscribe (getQueryKey q (Concrete a')) (nextHandle app)].
           split; [now rewrite <- app_assoc|].
           intros h [H | []]. discriminate H.
        -- intros Hne. rewrite lookup_insert_ne by exact Hne.
           apply lookup_delete_eq.
    + cbn. split; [reflexivity|].
      split; [|intros _; apply lookup_delete_eq].
      exists []. split; [reflexivity | intros h []].
Qed.

Lemma args_change_tears_down_reused_entry_witness :
  let '(app1, b1) :=
    Binding.setupSubscription itemsGet sharedApp
      (Binding.mkState (Concrete "5") None) in
  let '(app2, b2) :=
    Binding.watcherFires itemsGet (Binding.Replaced (Concrete "6")) app1 b1 in
  Binding.unsubscribeFn b1 = None
  /\ (exists opened,
        trace app2 = (trace sharedApp ++ Teardown 7%nat :: opened)%list
        /\ forall h, ~ In (Teardown h) opened)
  /\ (Binding.getCacheKey itemsGet (Concrete "6") <> "convex:items:get:{id:5}"
      -> convexSubscriptions app2 !! "convex:items:get:{id:5}" = None).
Proof.
  exact (args_change_tears_down_reused_entry string itemsGet sharedApp "5" 7
           (Concrete "6") eq_refl ltac:(discriminate)).
Defined.

(** * Facts about the life of a binding *)

Section LifecycleFacts.

Context {A : Type} (q : Query A).
Implicit Types (app : NuxtApp A) (b : Binding.State A).

Lemma replay_app (t t' : list (Event A)) : forall open,
  Lifecycle.replay (t ++ t') open
  = match Lifecycle.replay t open with
    | Some open' => Lifecycle.replay t' open'
    | None => None
    end.
Proof.
  induction t as [|e t IH]; intros open; [reflexivity|].
  destruct e as [a| |a|key h|h]; cbn; try apply IH.
  - destruct (Lifecycle.isOpen h open); [reflexivity | apply IH].
  - destruct (Lifecycle.isOpen h open); [apply IH | reflexivity].
Qed.

Lemma replay_teardown_only (t : list (Event A)) h :
  Lifecycle.replay t [] = Some [h] ->
  Lifecycle.replay (t ++ [Teardown h]) [] = Some [].
Proof.
  intros H. rewrite replay_app, H. cbn [Lifecycle.replay].
  unfold Lifecycle.isOpen, Lifecycle.close. cbn [existsb List.filter].
  now rewrite Nat.eqb_refl.
Qed.

Lemma settled_setup app a :
  Lifecycle.Settled q app (Binding.mkState a None) ->
  let '(app', b') :=
    Binding.setupSubscription q app (Binding.mkState a None) in
  Lifecycle.Settled q app' b' /\ Binding.args b' = a.
Proof.
  intros [Htrace Hempty]. cbn in Htrace, Hempty.
  unfold Binding.setupSubscription. cbn [Binding.args].
  destruct a as [|a]; [now repeat split|].
  destruct (convex app) eqn:Hconvex; cbn [negb]; [|now repeat split].
  unfold hasSubscription, registerSubscription. cbn [convexSubscriptions].
  rewrite Hempty, !lookup_empty. split; [|reflexivity].
  unfold Lifecycle.Settled. cbn. rewrite replay_app, Htrace. cbn.
  split; [reflexivity|]. split; [now exists a|]. reflexivity.
Qed.

Lemma settled_change app b newArgs :
  Lifecycle.KeyedByRendering q ->
  Lifecycle.Settled q app b ->
  let '(app', b') :=
    Binding.watcherFires q (Binding.Replaced newArgs) app b in
  Lifecycle.Settled q app' b'.
Proof.
  intros [Hkey Hskip] Hsettled.
  unfold Binding.watcherFires, Binding.onArgsChange.
  destruct (String.eqb_spec (stableStringify q newArgs)
                            (stableStringify q (Binding.args b))) as [Heq|Hne].
  - unfold Lifecycle.Settled in *. cbn.
    destruct (Binding.unsubscribeFn b) as [h|]; [|exact Hsettled].
    destruct Hsettled as (Htrace & [a Ha] & Hsubs).
    split; [exact Htrace|]. rewrite Ha in Heq, Hsubs.
    destruct newArgs as [|a']; [symmetry in Heq; now apply Hskip in Heq|].
    split; [now exists a'|]. cbn in *. now rewrite (Hkey _ _ Heq).
  - assert (Hclean :
      Lifecycle.Settled q
        (cleanupSubscription app (getQueryKey q (Binding.args b)))
        (Binding.mkState newArgs None)).
    { unfold Lifecycle.Settled in *. cbn.
      destruct (Binding.unsubscribeFn b) as [h|].
      - destruct Hsettled as (Htrace & [a Ha] & Hsubs).
        rewrite Ha in *. cbn in Hsubs.
        rewrite (cleanup_present app _ h)
          by (rewrite Hsubs; apply lookup_insert_eq).
        cbn [trace convexSubscriptions Binding.unsubscribeFn].
        split; [now apply replay_teardown_only|].
        rewrite Hsubs, delete_insert_eq. apply delete_empty.
      - destruct Hsettled as [Htrace Hsubs].
        rewrite cleanup_absent by (rewrite Hsubs; apply lookup_empty).
        now split. }
    destruct newArgs as [|a']; [exact Hclean|].
    apply (settled_setup _ (Concrete a')) in Hclean.
    destruct (Binding.setupSubscription q _ _) as [app' b'].
    apply Hclean.
Qed.

Lemma settled_changes news : forall app b,
  Lifecycle.KeyedByRendering q ->
  Lifecycle.Settled q app b ->
  let '(app', b') := Lifecycle.changes q news app b in
  Lifecycle.Settled q app' b'.
Proof.
  induction news as [|newArgs rest IH]; intros app b Hq Hsettled;
    [exact Hsettled|].
  cbn [Lifecycle.changes].
  pose proof (settled_change app b newArgs Hq Hsettled) as Hstep.
  destruct (Binding.watcherFires q (Binding.Replaced newArgs) app b)
    as [app' b'].
  now apply IH.
Qed.

Lemma settled_unmount app b :
  Lifecycle.Settled q app b ->
  let '(app', b') := Binding.onUnmounted q app b in
  Lifecycle.replay (trace app') [] = Some []
  /\ convexSubscriptions app' = ∅
  /\ Binding.unsubscribeFn b' = None.
Proof.
  unfold Lifecycle.Settled, Binding.onUnmounted.
  destruct (Binding.unsubscribeFn b) as [h|] eqn:Hfn.
  - intros (Htrace & _ & Hsubs).
    cbn [emit removeFromSubscriptionCache withSubscriptions trace
         convexSubscriptions Binding.unsubscribeFn].
    split; [now apply replay_teardown_only|]. split; [|reflexivity].
    rewrite Hsubs. apply delete_singleton_eq.
  - intros [Htrace Hsubs]. now rewrite Hfn.
Qed.

End LifecycleFacts.



(** Property X29.  A change made inside the mapping the reactive source
    holds goes unseen: the deep watcher hands the callback the same
    mapping twice, so the bridge stays on the old key.  The unmount hook
    then removes the new key, under which nothing is filed, and calls the
    unsubscribe function: the subscription is closed but its entry stays
    under the old key, and a binding set up on that key afterwards finds
    it and opens nothing. *)
Theorem in_place_change_leaves_stale_entry :
  forall (A : Type) (q : Query A) (app : NuxtApp A) (a a' : A),
    convex app = true ->
    convexSubscriptions app !! getQueryKey q (Concrete a) = None ->
    getQueryKey q (Concrete a') <> getQueryKey q (Concrete a) ->
    let key := getQueryKey q (Concrete a) in
    let '(app1, b1) :=
      Binding.setupSubscription q app (Binding.mkState (Concrete a) None) in
    let '(app2, b2) :=
      Binding.watcherFires q (Binding.MutatedInPlace (Concrete a')) app1 b1 in
    let '(app3, b3) := Binding.onUnmounted q app2 b2 in
    app2 = app1
    /\ trace app3
       = (trace app ++ [LiveSubscribe key (nextHandle app);
                        Teardown (nextHandle app)])%list
    /\ convexSubscriptions app3 !! key = Some (nextHandle app)
    /\ Binding.setupSubscription q app3 (Binding.mkState (Concrete a) None)
       = (app3, Binding.mkState (Concrete a) None).
Proof.
  intros A q app a a' Hconvex Hfree Hkeys key.
  rewrite (setup_fresh q app (Binding.mkState (Concrete a) None) a eq_refl
             Hconvex Hfree).
  unfold Binding.watcherFires, Binding.onArgsChange.
  rewrite String.eqb_refl.
  unfold Binding.onUnmounted.
  cbn [Binding.unsubscribeFn Binding.args Binding.getCacheKey emit
       removeFromSubscriptionCache withSubscriptions trace convexSubscriptions
       convex nextHandle].
  fold key.
  assert (Hstale : delete (getQueryKey q (Concrete a'))
                     (<[key := nextHandle app]> (convexSubscriptions app))
                   !! key = Some (nextHandle app)).
  { rewrite lookup_delete_ne by exact Hkeys. apply lookup_insert_eq. }
  split; [reflexivity|]. split; [now rewrite <- app_assoc|].
  split; [exact Hstale|].
  apply setup_reuse. cbn [Binding.args Binding.getCacheKey].
  unfold hasSubscription.
  cbn [emit removeFromSubscriptionCache withSubscriptions convexSubscriptions].
  fold key. now rewrite Hstale.
Qed.

Lemma in_place_change_leaves_stale_entry_witness :
  let '(app1, b1) :=
    Binding.setupSubscription itemsGet freshApp
      (Binding.mkState (Concrete "5") None) in
  let '(app2, b2) :=
    Binding.watcherFires itemsGet (Binding.MutatedInPlace (Concrete "6"))
      app1 b1 in
  let '(app3, b3) := Binding.onUnmounted itemsGet app2 b2 in
  app2 = app1
  /\ trace app3
     = [LiveSubscribe "convex:items:get:{id:5}" 0%nat; Teardown 0%nat]
  /\ convexSubscriptions app3 !! "convex:items:get:{id:5}" = Some 0%nat
  /\ Binding.setupSubscription itemsGet app3
       (Binding.mkState (Concrete "5") None)
     = (app3, Binding.mkState (Concrete "5") None).
Proof.
  exact (in_place_change_leaves_stale_entry string itemsGet freshApp "5" "6"
           eq_refl eq_refl ltac:(discriminate)).
Defined.

(** * Facts about the URL of a stored file *)

Lemma last_cons {A} (rest : list A) : forall x d,
  List.last (x :: rest) d = List.last rest x.
Proof.
  induction rest as [|y rest IH]; intros x d; [reflexivity|].
  change (List.last (x :: y :: rest) d) with (List.last (y :: rest) d).
  now rewrite !IH.
Qed.

Section LiveFacts.

Context {A : Type} (q : Query A).
Implicit Types (app : NuxtApp A) (b : Binding.State A).

(** Once the watcher has cleaned up the old key, nothing is open. *)
Lemma cleaned_settled app b newArgs :
  Lifecycle.Settled q app b ->
  Lifecycle.Settled q
    (cleanupSubscription app (getQueryKey q (Binding.args b)))
    (Binding.mkState newArgs None)
  /\ convex (cleanupSubscription app (getQueryKey q (Binding.args b)))
     = convex app.
Proof.
  unfold Lifecycle.Settled. cbn [Binding.unsubscribeFn].
  destruct (Binding.unsubscribeFn b) as [h|].
  - intros (Htrace & [a Ha] & Hsubs). rewrite Ha in *. cbn in Hsubs.
    rewrite (cleanup_present app _ h)
      by (rewrite Hsubs; apply lookup_insert_eq).
    cbn [convexSubscriptions convex trace]. split; [|reflexivity].
    split; [now apply replay_teardown_only|].
    rewrite Hsubs, delete_insert_eq. apply delete_empty.
  - intros [Htrace Hsubs].
    rewrite cleanup_absent by (rewrite Hsubs; apply lookup_empty).
    now repeat split.
Qed.

Lemma live_setup app a :
  Lifecycle.Settled q app (Binding.mkState a None) -> convex app = true ->
  let '(app', b') :=
    Binding.setupSubscription q app (Binding.mkState a None) in
  StorageUrl.Live q app' b' /\ Binding.args b' = a.
Proof.
  intros Hs Hconvex.
  pose proof (settled_setup q app a Hs) as Hstep.
  destruct a as [|c].
  - rewrite setup_skip in * by reflexivity.
    split; [|reflexivity]. split; [exact Hs|]. now split.
  - assert (Hfree : convexSubscriptions app !! getQueryKey q (Concrete c)
                    = None).
    { destruct Hs as [_ Hsubs]. cbn in Hsubs. rewrite Hsubs.
      apply lookup_empty. }
    rewrite (setup_fresh q app (Binding.mkState (Concrete c) None) c eq_refl
               Hconvex Hfree) in *.
    destruct Hstep as [Hsettled _].
    split; [|reflexivity]. split; [exact Hsettled|].
    split; [reflexivity | discriminate].
Qed.

Lemma live_change app b newArgs :
  Lifecycle.KeyedByRendering q ->
  StorageUrl.Live q app b ->
  let '(app', b') :=
    Binding.watcherFires q (Binding.Replaced newArgs) app b in
  StorageUrl.Live q app' b' /\ Binding.args b' = newArgs.
Proof.
  intros Hq (Hs & Hconvex & Hskip).
  pose proof (settled_change q app b newArgs Hq Hs) as Hstep.
  pose proof (cleaned_settled app b newArgs Hs) as [Hclean Hsame].
  destruct Hq as [Hkey Hrender].
  unfold Binding.watcherFires, Binding.onArgsChange in *.
  destruct (String.eqb_spec (stableStringify q newArgs)
                            (stableStringify q (Binding.args b))) as [Heq|Hne].
  - split; [|reflexivity]. split; [exact Hstep|]. split; [exact Hconvex|].
    cbn. intros Hnone. rewrite (Hskip Hnone) in Heq.
    destruct newArgs as [|c]; [reflexivity|]. now apply Hrender in Heq.
  - destruct newArgs as [|c].
    + split; [|reflexivity]. split; [exact Hstep|].
      split; [now rewrite Hsame | reflexivity].
    + apply (live_setup _ (Concrete c)); [exact Hclean | now rewrite Hsame].
Qed.

Lemma live_changes news : forall app b,
  Lifecycle.KeyedByRendering q ->
  StorageUrl.Live q app b ->
  let '(app', b') := Lifecycle.changes q news app b in
  StorageUrl.Live q app' b' /\ Binding.args b' = List.last news (Binding.args b).
Proof.
  induction news as [|newArgs rest IH]; intros app b Hq Hlive;
    [now split|].
  cbn [Lifecycle.changes].
  pose proof (live_change app b newArgs Hq Hlive) as Hstep.
  destruct (Binding.watcherFires q (Binding.Replaced newArgs) app b)
    as [app' b'].
  destruct Hstep as [Hlive' Hargs].
  pose proof (IH app' b' Hq Hlive') as Hrest.
  destruct (Lifecycle.changes q rest app' b') as [app'' b''].
  destruct Hrest as [Hl Hlast]. split; [exact Hl|].
  now rewrite Hlast, Hargs, last_cons.
Qed.

End LiveFacts.

Lemma last_storageArgs ids : forall initial,
  List.last (map StorageUrl.storageArgs ids) (StorageUrl.storageArgs initial)
  = StorageUrl.storageArgs (List.last ids initial).
Proof.
  induction ids as [|id ids IH]; intros initial; [reflexivity|].
  cbn [map]. now rewrite !last_cons, IH.
Qed.



(** * Facts about values *)

Import Json.

(** Induction over values that reaches inside arrays and objects. *)
Lemma Value_nested_ind (P : Value -> Prop) :
  P VUndefined -> P VNull -> (forall b, P (VBool b)) ->
  (forall n, P (VNum n)) -> (forall s, P (VStr s)) ->
  (forall r xs, Forall P xs -> P (VArr r xs)) ->
  (forall r fs, Forall (fun kv => P (snd kv)) fs -> P (VObj r fs)) ->
  forall v, P v.
Proof.
  intros Hu Hn Hb Hnum Hs Harr Hobj. fix IH 1.
  intros [ | | b | n | s | r xs | r fs];
    [exact Hu | exact Hn | apply Hb | apply Hnum | apply Hs | | ].
  - apply Harr. induction xs as [|x xs IHxs]; constructor;
      [apply IH | exact IHxs].
  - apply Hobj. induction fs as [|[k x] fs IHfs]; constructor;
      [apply IH | exact IHfs].
Qed.

Lemma strictEquals_sym a b : strictEquals a b = strictEquals b a.
Proof.
  destruct a as [ | | x | [x| |sx] | s | r xs | r fs],
           b as [ | | y | [y| |sy] | t | r' ys | r' fs']; cbn; try reflexivity.
  - now destruct x, y.
  - apply Z.eqb_sym.
  - now destruct sx, sy.
  - apply String.eqb_sym.
  - apply Nat.eqb_sym.
  - apply Nat.eqb_sym.
Qed.

Lemma strictEquals_refl x : strictEquals x x = true <-> x <> VNum NaN.
Proof.
  destruct x as [ | | b | [z| |sz] | s | r xs | r fs]; cbn;
    try (split; [discriminate | reflexivity]).
  - split; [discriminate | intros _; now destruct b].
  - split; [discriminate | intros _; apply Z.eqb_refl].
  - split; [discriminate | congruence].
  - split; [discriminate | intros _; now destruct sz].
  - split; [discriminate | intros _; apply String.eqb_refl].
  - split; [discriminate | intros _; apply Nat.eqb_refl].
  - split; [discriminate | intros _; apply Nat.eqb_refl].
Qed.

(** ** deepEqual, unfolded on arrays and objects *)

Lemma deepEqual_arrays r xs r' ys :
  deepEqual (VArr r xs) (VArr r' ys)
  = Nat.eqb r r'
    || (Nat.eqb (length xs) (length ys) && pairwise deepEqual xs ys).
Proof.
  cbn. destruct (Nat.eqb r r'); [reflexivity|].
  destruct (Nat.eqb (length xs) (length ys)); [|reflexivity]. cbn.
  revert ys. induction xs as [|x xs IH]; intros [|y ys]; try reflexivity.
  cbn. destruct (deepEqual x y); cbn; [apply IH | reflexivity].
Qed.

Lemma deepEqual_objects r fa r' fb :
  deepEqual (VObj r fa) (VObj r' fb)
  = Nat.eqb r r'
    || (Nat.eqb (length fa) (length fb) && forallb (fieldMatches fb) fa).
Proof.
  cbn. destruct (Nat.eqb r r'); [reflexivity|].
  destruct (Nat.eqb (length fa) (length fb)); [|reflexivity]. cbn.
  induction fa as [|[k va] fa IH]; [reflexivity|].
  cbn. unfold fieldMatches at 1. cbn.
  destruct (getField k fb) as [vb|]; [|reflexivity].
  destruct (deepEqual va vb); cbn; [apply IH | reflexivity].
Qed.

(** ** Keys *)

Lemma distinct_NoDup keys : distinct keys = true -> List.NoDup keys.
Proof.
  induction keys as [|k keys IH]; cbn; [constructor|].
  intros H. apply andb_true_iff in H as [Hk Hrest].
  constructor; [|auto].
  intros Hin. apply negb_true_iff in Hk.
  assert (existsb (String.eqb k) keys = true) as Hex; [|congruence].
  apply existsb_exists. exists k. split; [exact Hin | apply String.eqb_refl].
Qed.

Lemma getField_In key fs v : getField key fs = Some v -> In (key, v) fs.
Proof.
  induction fs as [|[k x] fs IH]; cbn; [discriminate|].
  destruct (String.eqb key k) eqn:E.
  - apply String.eqb_eq in E. intros [= <-]. left. now subst.
  - intros H. right. auto.
Qed.

Lemma getField_key key fs :
  In key (map fst fs) -> exists v, getField key fs = Some v.
Proof.
  induction fs as [|[k x] fs IH]; cbn; [intros []|].
  destruct (String.eqb key k) eqn:E; [eauto|].
  intros [Heq | Hin]; [|auto].
  subst. rewrite String.eqb_refl in E. discriminate.
Qed.

Lemma getField_unique key v fs :
  List.NoDup (map fst fs) -> In (key, v) fs -> getField key fs = Some v.
Proof.
  induction fs as [|[k x] fs IH]; cbn; [intros _ []|].
  intros Hnd [Heq | Hin].
  - injection Heq as -> ->. now rewrite String.eqb_refl.
  - inversion Hnd as [|? ? Hnotin Hnd']; subst.
    destruct (String.eqb key k) eqn:E; [|auto].
    apply String.eqb_eq in E. subst. exfalso. apply Hnotin.
    apply (in_map fst) in Hin. exact Hin.
Qed.

Lemma uniqueKeys_object r fs :
  uniqueKeys (VObj r fs) = true ->
  List.NoDup (map fst fs) /\ forall k v, In (k, v) fs -> uniqueKeys v = true.
Proof.
  cbn. intros H. apply andb_true_iff in H as [Hd Hall].
  split; [now apply distinct_NoDup|]. clear Hd.
  induction fs as [|[k x] fs IH]; [intros ? ? []|].
  apply andb_true_iff in Hall as [Hx Hrest].
  intros k' v [Heq | Hin]; [congruence | eauto].
Qed.

Lemma uniqueKeys_array r xs :
  uniqueKeys (VArr r xs) = true -> Forall (fun x => uniqueKeys x = true) xs.
Proof.
  cbn. intros H. apply List.Forall_forall. intros x Hx.
  exact (proj1 (List.forallb_forall uniqueKeys xs) H x Hx).
Qed.

(** ** deepEqual is symmetric *)

Lemma deepEqual_primitive_l a b :
  isPrimitive a = true -> deepEqual a b = strictEquals a b.
Proof.
  destruct a as [ | | x | [x| |sx] | s | r xs | r fs]; try discriminate; intros _;
    destruct b as [ | | y | [y| |sy] | t | r' ys | r' fs']; cbn; try reflexivity.
  - now destruct (Bool.eqb x y).
  - now destruct (Z.eqb x y).
  - now destruct (Bool.eqb sx sy).
  - now destruct (String.eqb s t).
Qed.

Lemma deepEqual_primitive_r a b :
  isPrimitive b = true -> deepEqual a b = strictEquals a b.
Proof.
  destruct b as [ | | y | [y| |sy] | t | r' ys | r' fs']; try discriminate; intros _;
    destruct a as [ | | x | [x| |sx] | s | r xs | r fs]; cbn; try reflexivity.
  - now destruct (Bool.eqb x y).
  - now destruct (Z.eqb x y).
  - now destruct (Bool.eqb sx sy).
  - now destruct (String.eqb s t).
Qed.

Lemma deepEqual_array_object r xs r' fs :
  deepEqual (VArr r xs) (VObj r' fs) = false
  /\ deepEqual (VObj r' fs) (VArr r xs) = false.
Proof. split; reflexivity. Qed.

Lemma pairwise_sym xs : Forall SymmetricAt xs -> forall ys,
  Forall (fun x => uniqueKeys x = true) xs ->
  Forall (fun y => uniqueKeys y = true) ys ->
  pairwise deepEqual xs ys = true -> pairwise deepEqual ys xs = true.
Proof.
  induction 1 as [|x xs Hx _ IH]; intros [|y ys] Hxs Hys; cbn;
    try reflexivity.
  inversion Hxs; inversion Hys; subst.
  intros H. apply andb_true_iff in H as [Hhead Htail].
  apply andb_true_iff. split; [now apply Hx | now apply IH].
Qed.

Lemma fields_sym fa fb :
  Forall (fun kv => SymmetricAt (snd kv)) fa ->
  List.NoDup (map fst fa) -> List.NoDup (map fst fb) ->
  (forall k v, In (k, v) fa -> uniqueKeys v = true) ->
  (forall k v, In (k, v) fb -> uniqueKeys v = true) ->
  length fa = length fb ->
  forallb (fieldMatches fb) fa = true ->
  forallb (fieldMatches fa) fb = true.
Proof.
  intros Hsym Hna Hnb Hua Hub Hlen Hall.
  rewrite List.forallb_forall in Hall. rewrite List.Forall_forall in Hsym.
  assert (Hincl : incl (map fst fa) (map fst fb)).
  { intros k Hk. apply in_map_iff in Hk as [[k' va] [<- Hin]]. cbn.
    specialize (Hall _ Hin). unfold fieldMatches in Hall. cbn in Hall.
    destruct (getField k' fb) as [vb|] eqn:E; [|discriminate].
    apply getField_In in E. apply (in_map fst) in E. exact E. }
  assert (Hback : incl (map fst fb) (map fst fa)).
  { apply List.NoDup_length_incl; [exact Hna | | exact Hincl].
    rewrite !length_map. lia. }
  apply List.forallb_forall. intros [k vb] Hin. unfold fieldMatches. cbn.
  destruct (getField_key k fa) as [va Hva].
  { apply Hback. apply (in_map fst) in Hin. exact Hin. }
  rewrite Hva. apply getField_In in Hva.
  pose proof (Hall _ Hva) as Hm. unfold fieldMatches in Hm. cbn in Hm.
  rewrite (getField_unique k vb fb Hnb Hin) in Hm.
  apply (Hsym _ Hva); eauto.
Qed.

(** When one side is a primitive, both calls come down to [===]. *)
Ltac by_primitive :=
  match goal with
  | |- deepEqual ?a ?b = true -> deepEqual ?b ?a = true =>
      first [ rewrite (deepEqual_primitive_l a b eq_refl),
                      (deepEqual_primitive_r b a eq_refl)
            | rewrite (deepEqual_primitive_r a b eq_refl),
                      (deepEqual_primitive_l b a eq_refl) ];
      rewrite strictEquals_sym; exact (fun H => H)
  end.

Lemma deepEqual_true_sym a : SymmetricAt a.
Proof.
  induction a as [ | | x | n | s | r xs IH | r fa IH] using Value_nested_ind;
    intros b Ha Hb; try by_primitive.
  - destruct b as [ | | y | n | t | r' ys | r' fb]; try by_primitive.
    + rewrite !deepEqual_arrays, (Nat.eqb_sym r' r),
        (Nat.eqb_sym (length ys) (length xs)).
      destruct (Nat.eqb r r'); [reflexivity|].
      destruct (Nat.eqb (length xs) (length ys)); [|discriminate]. cbn.
      apply (pairwise_sym xs IH ys);
        [now apply (uniqueKeys_array r) | now apply (uniqueKeys_array r')].
    + now rewrite (proj1 (deepEqual_array_object r xs r' fb)).
  - destruct b as [ | | y | n | t | r' ys | r' fb]; try by_primitive.
    + now rewrite (proj2 (deepEqual_array_object r' ys r fa)).
    + rewrite !deepEqual_objects, (Nat.eqb_sym r' r),
        (Nat.eqb_sym (length fb) (length fa)).
      destruct (Nat.eqb r r'); [reflexivity|].
      destruct (Nat.eqb (length fa) (length fb)) eqn:Hlen; [|discriminate].
      cbn. apply Nat.eqb_eq in Hlen.
      destruct (uniqueKeys_object r fa Ha) as [Hna Hua].
      destruct (uniqueKeys_object r' fb Hb) as [Hnb Hub].
      now apply fields_sym.
Qed.

(** ** C8: reflexivity and symmetry of deepEqual *)

(** [deepEqual(NaN, NaN)]: [NaN === NaN] is false, neither side is
    nullish, both are numbers, neither is an array or an object, and the
    function ends in [return false]. *)
Lemma deepEqual_reflexive_counterexample :
  deepEqual (VNum NaN) (VNum NaN) = false.
Proof. reflexivity. Qed.

(** Claim C8, as amended.  [deepEqual(x, x)] is true for every value [x]
    except the number [NaN], for which it is false; and
    [deepEqual(a, b) = deepEqual(b, a)] for all values [a] and [b] (an
    object holding each of its keys once, as objects do). *)
Theorem deepEqual_reflexive_symmetric :
  (forall x, deepEqual x x = true <-> x <> VNum NaN)
  /\ (forall a b, uniqueKeys a = true -> uniqueKeys b = true ->
                  deepEqual a b = deepEqual b a).
Proof.
  split.
  - intros x. rewrite <- strictEquals_refl.
    destruct x as [ | | b | [z| |sz] | s | r xs | r fs]; cbn;
      try (split; reflexivity); try (split; discriminate).
    + now destruct (Bool.eqb b b).
    + now destruct (Z.eqb z z).
    + now destruct (Bool.eqb sz sz).
    + now destruct (String.eqb s s).
    + now rewrite Nat.eqb_refl.
    + now rewrite Nat.eqb_refl.
  - intros a b Ha Hb.
    destruct (deepEqual a b) eqn:Hab, (deepEqual b a) eqn:Hba;
      try reflexivity.
    + rewrite (deepEqual_true_sym a b Ha Hb Hab) in Hba. discriminate.
    + rewrite (deepEqual_true_sym b a Hb Ha Hba) in Hab. discriminate.
Qed.

Lemma deepEqual_reflexive_symmetric_witness :
  deepEqual
    (VObj 1 [("id", VNum (Finite 1)); ("tags", VArr 2 [VStr "a"; VNull])])
    (VObj 3 [("tags", VArr 4 [VStr "a"; VNull]); ("id", VNum (Finite 1))])
  = deepEqual
      (VObj 3 [("tags", VArr 4 [VStr "a"; VNull]); ("id", VNum (Finite 1))])
      (VObj 1 [("id", VNum (Finite 1)); ("tags", VArr 2 [VStr "a"; VNull])]).
Proof.
  exact (proj2 deepEqual_reflexive_symmetric
           (VObj 1 [("id", VNum (Finite 1)); ("tags", VArr 2 [VStr "a"; VNull])])
           (VObj 3 [("tags", VArr 4 [VStr "a"; VNull]); ("id", VNum (Finite 1))])
           eq_refl eq_refl).
Defined.

(** ** Structural copies *)

Lemma relabel_object f r fs :
  relabel f (VObj r fs)
  = VObj (f r) (map (fun kv => (fst kv, relabel f (snd kv))) fs).
Proof.
  cbn. f_equal. induction fs as [|[k x] fs IH]; [reflexivity|].
  cbn. now rewrite IH.
Qed.

Lemma nanFree_object r fs :
  nanFree (VObj r fs) = forallb (fun kv => nanFree (snd kv)) fs.
Proof.
  cbn. induction fs as [|[k x] fs IH]; [reflexivity|]. cbn. now rewrite IH.
Qed.

Lemma pairwise_copy f xs :
  Forall (fun x => uniqueKeys x = true -> nanFree x = true ->
                   deepEqual x (relabel f x) = true) xs ->
  forallb uniqueKeys xs = true -> forallb nanFree xs = true ->
  pairwise deepEqual xs (map (relabel f) xs) = true.
Proof.
  induction 1 as [|x xs Hx _ IH]; cbn; [reflexivity|].
  intros Hu Hn. apply andb_true_iff in Hu as [Hu Hus].
  apply andb_true_iff in Hn as [Hn Hns].
  now rewrite Hx, IH.
Qed.

(** Property X4.  A value without [NaN] is deeply equal to any structural
    copy of itself, whatever references the copy lives under. *)
Theorem deepEqual_structural_copy :
  forall (f : nat -> nat) (x : Value),
    uniqueKeys x = true -> nanFree x = true ->
    deepEqual x (relabel f x) = true.
Proof.
  intros f x.
  induction x as [ | | b | n | s | r xs IH | r fa IH] using Value_nested_ind;
    intros Hu Hn;
    try (rewrite deepEqual_primitive_l by reflexivity;
         apply strictEquals_refl; intros E;
         first [discriminate E | injection E as ->; discriminate Hn]).
  - cbn [relabel]. rewrite deepEqual_arrays, length_map, Nat.eqb_refl.
    cbn in Hu, Hn. rewrite (pairwise_copy f xs IH Hu Hn).
    now rewrite orb_true_r.
  - rewrite relabel_object, deepEqual_objects, length_map, Nat.eqb_refl.
    destruct (uniqueKeys_object r fa Hu) as [Hnd Hkeys].
    rewrite nanFree_object in Hn.
    rewrite List.forallb_forall in Hn. rewrite List.Forall_forall in IH.
    assert (Hall : forallb
                     (fieldMatches
                        (map (fun kv => (fst kv, relabel f (snd kv))) fa))
                     fa = true); [|now rewrite Hall, orb_true_r].
    apply List.forallb_forall. intros [k v] Hin. unfold fieldMatches. cbn.
    rewrite (getField_unique k (relabel f v)).
    + apply (IH _ Hin); [now apply (Hkeys k) | now apply (Hn _ Hin)].
    + now rewrite map_map.
    + apply (in_map (fun kv => (fst kv, relabel f (snd kv))) fa (k, v) Hin).
Qed.

Lemma deepEqual_structural_copy_witness :
  deepEqual
    (VObj 1 [("id", VNum (Finite 1)); ("tags", VArr 2 [VStr "a"; VNull])])
    (VObj 11 [("id", VNum (Finite 1)); ("tags", VArr 12 [VStr "a"; VNull])])
  = true.
Proof.
  exact (deepEqual_structural_copy (fun r => (r + 10)%nat)
           (VObj 1 [("id", VNum (Finite 1)); ("tags", VArr 2 [VStr "a"; VNull])])
           eq_refl eq_refl).
Defined.


(** * Facts about compareJsonValues *)

(** ** Rounding to a double *)

Lemma roundMagnitude_pos n : 0 < n -> 0 < roundMagnitude n.
Proof.
  intros Hn. unfold roundMagnitude.
  destruct (Z.leb_spec (Z.log2 n + 1) 53) as [_ | Hbits]; [exact Hn|].
  set (shift := Z.log2 n + 1 - 53).
  assert (Hshift : 0 <= shift) by (unfold shift; lia).
  assert (Hkept : 0 < Z.shiftr n shift).
  { rewrite Z.shiftr_div_pow2 by exact Hshift.
    apply Z.div_str_pos. split; [apply Z.pow_pos_nonneg; lia|].
    apply Z.le_trans with (2 ^ Z.log2 n); [|now apply Z.log2_spec].
    apply Z.pow_le_mono_r; unfold shift; lia. }
  destruct (_ || _); rewrite Z.shiftl_mul_pow2 by exact Hshift;
    apply Z.mul_pos_pos; try lia; apply Z.pow_pos_nonneg; lia.
Qed.

Lemma toDouble_not_NaN z : toDouble z <> NaN.
Proof. unfold toDouble. now destruct (_ <=? _). Qed.

Lemma toDouble_sign z : signOf (toDouble z) = Z.sgn z.
Proof.
  unfold toDouble.
  destruct (Z.eq_dec z 0) as [-> | Hz].
  - change (roundMagnitude (Z.abs 0)) with 0.
    destruct (Z.leb_spec (2 ^ 1024) 0) as [H | _]; [|reflexivity].
    assert (0 < 2 ^ 1024) by (apply Z.pow_pos_nonneg; lia). lia.
  - assert (Hm : 0 < roundMagnitude (Z.abs z))
      by (apply roundMagnitude_pos; lia).
    destruct (_ <=? _); cbn [signOf].
    + destruct (Z.ltb_spec z 0); [rewrite Z.sgn_neg | rewrite Z.sgn_pos]; lia.
    + rewrite Z.sgn_mul, (Z.sgn_pos (roundMagnitude _)) by exact Hm.
      rewrite Z.sgn_sgn. lia.
Qed.

Lemma isZero_sign n : n <> NaN -> isZero n = (signOf n =? 0).
Proof.
  destruct n as [z| |s]; [intros _|contradiction|intros _].
  - cbn. now destruct z.
  - now destruct s.
Qed.

Lemma toDouble_isZero z : isZero (toDouble z) = (z =? 0).
Proof.
  rewrite isZero_sign by apply toDouble_not_NaN. rewrite toDouble_sign.
  now destruct z.
Qed.

Lemma sign_zero n : n <> NaN -> signOf n = 0 -> n = Finite 0.
Proof.
  destruct n as [z| |s]; [intros _|contradiction|intros _].
  - cbn. now destruct z.
  - now destruct s.
Qed.

(** ** The comparison unfolded *)

Section CompareUnfolded.

Variable h : Host.
#[local] Abbreviation cmp := (compareJsonValues h).

Lemma cmp_scalars a b :
  isArray a && isArray b = false -> cmp a b = compareScalars h a b.
Proof. destruct a, b; cbn; intros H; try reflexivity; discriminate. Qed.

Lemma cmp_undefined_l b : cmp VUndefined b = compareScalars h VUndefined b.
Proof. reflexivity. Qed.

Lemma cmp_undefined_r a : cmp a VUndefined = compareScalars h a VUndefined.
Proof. now destruct a. Qed.

Lemma cmp_nil_nil r r' : cmp (VArr r []) (VArr r' []) = Some (Finite 0).
Proof. reflexivity. Qed.

Lemma cmp_nil_cons r r' y ys :
  cmp (VArr r []) (VArr r' (y :: ys))
  = orElse (cmp VUndefined y) (cmp (VArr r []) (VArr r' ys)).
Proof. reflexivity. Qed.

Lemma cmp_cons_nil r r' x xs :
  cmp (VArr r (x :: xs)) (VArr r' [])
  = orElse (cmp x VUndefined) (cmp (VArr r xs) (VArr r' [])).
Proof. reflexivity. Qed.

Lemma cmp_cons_cons r r' x xs y ys :
  cmp (VArr r (x :: xs)) (VArr r' (y :: ys))
  = orElse (cmp x y) (cmp (VArr r xs) (VArr r' ys)).
Proof. reflexivity. Qed.

(** One turn of the loop, whichever array is the longer. *)
Lemma cmp_step r r' xs ys :
  cmp (VArr r xs) (VArr r' ys)
  = orElse (cmp (item 0 xs) (item 0 ys))
           (cmp (VArr r (tl xs)) (VArr r' (tl ys))).
Proof. destruct xs as [|x xs], ys as [|y ys]; reflexivity. Qed.

(** Against [null] or [undefined] the result does not depend on the
    other value beyond its being nullish. *)
Lemma cmp_nullish_l a b :
  isNullish a = true ->
  cmp a b = Some (Finite (if isNullish b then 0 else -1)).
Proof.
  intros Ha. rewrite cmp_scalars by (destruct a; try discriminate; reflexivity).
  unfold compareScalars. rewrite Ha. now destruct (isNullish b).
Qed.

Lemma cmp_nullish_r a b :
  isNullish b = true ->
  cmp a b = Some (Finite (if isNullish a then 0 else 1)).
Proof.
  intros Hb.
  rewrite cmp_scalars
    by (destruct b; try discriminate; now rewrite andb_false_r).
  unfold compareScalars. rewrite Hb, andb_true_r. now destruct (isNullish a).
Qed.

End CompareUnfolded.

(** ** Swapping the operands flips the sign *)

Section SignAntisymmetry.

Variable h : Host.
Hypothesis collation : SignAntisymmetric (localeCompare h).
#[local] Abbreviation cmp := (compareJsonValues h).

Lemma Number_eq_NaN n : n = NaN \/ n <> NaN.
Proof. destruct n; [right|left|right]; congruence. Qed.

Lemma mirrored_signs m n :
  m <> NaN -> n <> NaN -> signOf m = - signOf n -> mirrored (Some m) (Some n).
Proof.
  intros Hm Hn Hs. unfold mirrored.
  destruct m as [x| |s]; [|contradiction|];
    (destruct n as [y| |t]; [|contradiction|]); auto.
Qed.

Lemma mirrored_doubles x y : mirrored (Some (toDouble (x - y))) (Some (toDouble (y - x))).
Proof.
  apply mirrored_signs; try apply toDouble_not_NaN.
  rewrite !toDouble_sign. replace (y - x) with (- (x - y)) by lia.
  rewrite Z.sgn_opp. lia.
Qed.

Lemma mirrored_numbers x y : mirrored (Some (minus x y)) (Some (minus y x)).
Proof.
  destruct x as [x| |s], y as [y| |t]; cbn [minus]; try exact I.
  - apply mirrored_doubles.
  - apply mirrored_signs; try discriminate. now destruct t.
  - apply mirrored_signs; try discriminate. now destruct s.
  - destruct s, t; cbn; try exact I; repeat split; discriminate.
Qed.

Lemma mirrored_strings s t :
  mirrored (Some (Finite (localeCompare h s t)))
           (Some (Finite (localeCompare h t s))).
Proof. apply mirrored_signs; try discriminate. apply collation. Qed.

Lemma mirrored_zero p q :
  mirrored p q ->
  match p, q with
  | Some m, Some n => isZero m = isZero n
  | None, None => True
  | _, _ => False
  end.
Proof.
  unfold mirrored. destruct p as [m|], q as [n|]; auto.
  - destruct (Number_eq_NaN m) as [-> | Hm].
    + destruct n; try reflexivity; intuition congruence.
    + destruct (Number_eq_NaN n) as [-> | Hn].
      * destruct m; intuition congruence.
      * intros H. assert (Hs : signOf m = - signOf n)
          by (destruct m, n; intuition congruence).
        rewrite !isZero_sign by assumption. rewrite Hs.
        now destruct (signOf n).
  - now destruct m.
Qed.

Lemma mirrored_orElse c c' rest rest' :
  mirrored c c' -> mirrored rest rest' ->
  mirrored (orElse c rest) (orElse c' rest').
Proof.
  intros Hc Hrest. pose proof (mirrored_zero c c' Hc) as Hz.
  destruct c as [m|], c' as [n|]; try contradiction; [|exact I].
  cbn [orElse]. rewrite <- Hz. now destruct (isZero m).
Qed.

Lemma fallback_mirrored a b :
  mirrored
    (if hasInteger a && hasInteger b then
       match toBigInt h (integerOf a), toBigInt h (integerOf b) with
       | Some x, Some y => Some (toDouble (x - y))
       | _, _ => None
       end
     else
       match toString h a, toString h b with
       | Some s, Some t => Some (Finite (localeCompare h s t))
       | _, _ => None
       end)
    (if hasInteger b && hasInteger a then
       match toBigInt h (integerOf b), toBigInt h (integerOf a) with
       | Some x, Some y => Some (toDouble (x - y))
       | _, _ => None
       end
     else
       match toString h b, toString h a with
       | Some s, Some t => Some (Finite (localeCompare h s t))
       | _, _ => None
       end).
Proof.
  rewrite (andb_comm (hasInteger b)).
  destruct (hasInteger a && hasInteger b).
  - destruct (toBigInt h (integerOf a)), (toBigInt h (integerOf b));
      try exact I. apply mirrored_doubles.
  - destruct (toString h a), (toString h b); try exact I.
    apply mirrored_strings.
Qed.

Lemma scalars_mirrored a b :
  mirrored (compareScalars h a b) (compareScalars h b a).
Proof.
  unfold compareScalars.
  destruct (isNullish a) eqn:Ha, (isNullish b) eqn:Hb; cbn [andb];
    try (repeat split; discriminate).
  destruct a as [ | | x | x | s | r xs | r fs]; try discriminate Ha;
    destruct b as [ | | y | y | t | r' ys | r' fs']; try discriminate Hb;
    try apply fallback_mirrored.
  - apply mirrored_signs; try discriminate. now destruct x, y.
  - apply mirrored_numbers.
  - apply mirrored_strings.
Qed.

Lemma missing_mirrored r r' ys :
  mirrored (cmp (VArr r []) (VArr r' ys)) (cmp (VArr r' ys) (VArr r [])).
Proof.
  induction ys as [|y ys IH]; [repeat split; discriminate|].
  rewrite cmp_nil_cons, cmp_cons_nil, cmp_undefined_r.
  apply mirrored_orElse; [apply scalars_mirrored | exact IH].
Qed.

Lemma mirrored_flip p q : mirrored p q -> mirrored q p.
Proof.
  unfold mirrored. destruct p as [[x| |s]|], q as [[y| |t]|]; try tauto;
    intros (Hm & Hn & Hs); repeat split; try assumption; lia.
Qed.

Lemma cmp_mirrored a : forall b, mirrored (cmp a b) (cmp b a).
Proof.
  assert (Hscalar : forall u v, isArray u && isArray v = false ->
                                mirrored (cmp u v) (cmp v u)).
  { intros u v Huv. rewrite (cmp_scalars h u v Huv).
    rewrite (cmp_scalars h v u) by now rewrite andb_comm.
    apply scalars_mirrored. }
  induction a as [ | | x | n | s | r xs IH | r fa _] using Value_nested_ind;
    intros b; try (apply Hscalar; reflexivity).
  destruct b as [ | | y | n | t | r' ys | r' fb];
    try (apply Hscalar; reflexivity).
  revert ys. induction IH as [|x xs Hx _ IHxs]; intros ys.
  - apply missing_mirrored.
  - destruct ys as [|y ys].
    + apply mirrored_flip, missing_mirrored.
    + rewrite !cmp_cons_cons. apply mirrored_orElse; [apply Hx | apply IHxs].
Qed.

Lemma localeCompare_self s : localeCompare h s s = 0.
Proof.
  pose proof (collation s s) as H. destruct (localeCompare h s s); cbn in H; lia.
Qed.

End SignAntisymmetry.

(** ** The first mismatch decides *)

Section Lexicographic.

Variable h : Host.
#[local] Abbreviation cmp := (compareJsonValues h).

Lemma item_tl i xs : item i (tl xs) = item (S i) xs.
Proof. destruct xs as [|x xs]; [now destruct i | reflexivity]. Qed.

Lemma length_tl (xs : list Value) : length (tl xs) = Nat.pred (length xs).
Proof. now destruct xs. Qed.

Lemma cmp_first_mismatch i : forall r r' xs ys o,
  (i < Nat.max (length xs) (length ys))%nat ->
  (forall j, (j < i)%nat -> cmp (item j xs) (item j ys) = Some (Finite 0)) ->
  cmp (item i xs) (item i ys) = o -> decides o ->
  cmp (VArr r xs) (VArr r' ys) = o.
Proof.
  induction i as [|i IH]; intros r r' xs ys o Hlen Hzero Hi Ho.
  - rewrite cmp_step. rewrite Hi.
    destruct o as [n|]; [|reflexivity]. cbn in *. now rewrite Ho.
  - rewrite cmp_step. rewrite (Hzero 0%nat) by lia. cbn [orElse isZero].
    cbn [Z.eqb]. apply IH; try assumption.
    + rewrite !length_tl. lia.
    + intros j Hj. rewrite !item_tl. apply Hzero. lia.
    + now rewrite !item_tl.
Qed.

Lemma cmp_no_mismatch n : forall r r' xs ys,
  Nat.max (length xs) (length ys) = n ->
  (forall j, (j < n)%nat -> cmp (item j xs) (item j ys) = Some (Finite 0)) ->
  cmp (VArr r xs) (VArr r' ys) = Some (Finite 0).
Proof.
  induction n as [|n IH]; intros r r' xs ys Hlen Hzero.
  - destruct xs, ys; try discriminate. reflexivity.
  - rewrite cmp_step. rewrite (Hzero 0%nat) by lia. cbn [orElse isZero].
    cbn [Z.eqb]. apply IH.
    + rewrite !length_tl. lia.
    + intros j Hj. rewrite !item_tl. apply Hzero. lia.
Qed.

End Lexicographic.

(** ** Values of like kind are ordered consistently *)

Lemma consistent_pick x0 y0 z0 xt yt zt :
  consistent x0 y0 z0 -> consistent xt yt zt ->
  consistent (pick x0 xt) (pick y0 yt) (pick z0 zt).
Proof.
  unfold consistent, pick.
  destruct (Z.eqb_spec x0 0), (Z.eqb_spec y0 0), (Z.eqb_spec z0 0); lia.
Qed.

Lemma sgn_opposite x y :
  Z.sgn x = - Z.sgn y -> (x < 0 <-> 0 < y) /\ (x = 0 <-> y = 0).
Proof. destruct x, y; cbn; lia. Qed.

Lemma collation_consistent f s t u :
  SignAntisymmetric f -> LeTransitive f ->
  consistent (f s t) (f t u) (f s u).
Proof.
  intros Hs Ht. unfold consistent.
  pose proof (sgn_opposite _ _ (Hs s t)).
  pose proof (sgn_opposite _ _ (Hs t u)).
  pose proof (sgn_opposite _ _ (Hs s u)).
  pose proof (Ht s t u). pose proof (Ht u t s).
  pose proof (Ht t u s). pose proof (Ht u s t).
  pose proof (Ht t s u). pose proof (Ht s u t).
  lia.
Qed.

Lemma consistent_sgn x y z :
  consistent x y z -> consistent (Z.sgn x) (Z.sgn y) (Z.sgn z).
Proof. unfold consistent. destruct x, y, z; cbn; lia. Qed.

Lemma differences_consistent x y z :
  consistent (Z.sgn (x - y)) (Z.sgn (y - z)) (Z.sgn (x - z)).
Proof. apply consistent_sgn. unfold consistent. lia. Qed.

Section LikeKinds.

Variable h : Host.
#[local] Abbreviation cmp := (compareJsonValues h).
#[local] Abbreviation V := (verdict h).

Lemma alike_arrays r xs r' ys :
  alike (VArr r xs) (VArr r' ys) = pairwise alike xs ys.
Proof.
  cbn. revert ys. induction xs as [|x xs IH]; intros [|y ys]; try reflexivity.
  cbn. now rewrite IH.
Qed.

Lemma alike_scalars a b :
  isArray a && isArray b = false ->
  alike a b = isNullish a || isNullish b || sameKind (kindOf a) (kindOf b).
Proof. destruct a, b; cbn; intros H; try reflexivity; discriminate. Qed.

Lemma alike_nullish_l a b : isNullish a = true -> alike a b = true.
Proof. destruct a; try discriminate; reflexivity. Qed.

Lemma alike_nullish_r a b : isNullish b = true -> alike a b = true.
Proof.
  destruct b; try discriminate; intros _; destruct a; cbn;
    rewrite ?orb_true_r; reflexivity.
Qed.

Lemma pairwise_step xs ys :
  pairwise alike xs ys = true ->
  alike (item 0 xs) (item 0 ys) = true
  /\ pairwise alike (tl xs) (tl ys) = true.
Proof.
  destruct xs as [|x xs], ys as [|y ys]; cbn [pairwise item nth tl].
  - now split.
  - now split.
  - intros _. split; [now apply alike_nullish_r | now destruct xs].
  - intros H. now apply andb_true_iff in H.
Qed.

Lemma verdict_nullish_l a b :
  isNullish a = true -> V a b = if isNullish b then 0 else -1.
Proof.
  intros Ha. unfold verdict. rewrite cmp_nullish_l by exact Ha.
  now destruct (isNullish b).
Qed.

Lemma verdict_nullish_r a b :
  isNullish b = true -> V a b = if isNullish a then 0 else 1.
Proof.
  intros Hb. unfold verdict. rewrite cmp_nullish_r by exact Hb.
  now destruct (isNullish a).
Qed.

Lemma nullish_consistent a b c :
  isNullish a || isNullish b || isNullish c = true ->
  consistent (V a b) (V b c) (V a c).
Proof.
  intros H. unfold consistent.
  destruct (isNullish a) eqn:Ha, (isNullish b) eqn:Hb, (isNullish c) eqn:Hc;
    try discriminate;
    repeat first
      [ rewrite (verdict_nullish_l a) by assumption
      | rewrite (verdict_nullish_l b) by assumption
      | rewrite (verdict_nullish_r _ b) by assumption
      | rewrite (verdict_nullish_r _ c) by assumption ];
    rewrite ?Ha, ?Hb, ?Hc; lia.
Qed.

(** Scalars of one kind. *)
Lemma kind_cases v k :
  kindOf v = Some k ->
  match k with
  | KNumber => exists z, v = VNum (Finite z)
  | KString => exists s, v = VStr s
  | KBoolean => exists b, v = VBool b
  end.
Proof.
  destruct k; destruct v as [ | | b | [x| |sx] | s | r xs | r fs]; cbn;
    try discriminate; eauto.
Qed.

Lemma sameKind_cases j k :
  sameKind j k = true -> exists kind, j = Some kind /\ k = Some kind.
Proof. destruct j as [[]|], k as [[]|]; try discriminate; eauto. Qed.

Lemma samekind_ordered a b :
  sameKind (kindOf a) (kindOf b) = true -> ordered (cmp a b).
Proof.
  intros H. apply sameKind_cases in H as [k [Ha Hb]].
  apply kind_cases in Ha, Hb. destruct k.
  - destruct Ha as [x ->], Hb as [y ->]. eexists. split; [reflexivity|].
    apply toDouble_not_NaN.
  - destruct Ha as [x ->], Hb as [y ->]. eexists. split; [reflexivity|].
    discriminate.
  - destruct Ha as [x ->], Hb as [y ->]. eexists. split; [reflexivity|].
    discriminate.
Qed.

Lemma samekind_consistent a b c :
  SignAntisymmetric (localeCompare h) -> LeTransitive (localeCompare h) ->
  sameKind (kindOf a) (kindOf b) = true ->
  sameKind (kindOf b) (kindOf c) = true ->
  consistent (V a b) (V b c) (V a c).
Proof.
  intros Hs Ht Hab Hbc.
  apply sameKind_cases in Hab as [k [Ha Hb]].
  apply sameKind_cases in Hbc as [k' [Hb' Hc]].
  assert (k' = k) as -> by congruence. clear Hb'.
  apply kind_cases in Ha, Hb, Hc. destruct k.
  - destruct Ha as [x ->], Hb as [y ->], Hc as [z ->].
    unfold verdict. cbn [compareJsonValues compareScalars isNullish andb minus].
    rewrite !toDouble_sign. apply differences_consistent.
  - destruct Ha as [x ->], Hb as [y ->], Hc as [z ->].
    unfold verdict. cbn [compareJsonValues compareScalars isNullish andb signOf].
    now apply consistent_sgn, collation_consistent.
  - destruct Ha as [x ->], Hb as [y ->], Hc as [z ->].
    unfold consistent, verdict. cbn. destruct x, y, z; cbn; lia.
Qed.

End LikeKinds.

Section Transitivity.

Variable h : Host.
#[local] Abbreviation cmp := (compareJsonValues h).
#[local] Abbreviation V := (verdict h).

Lemma ordered_verdict a b :
  ordered (cmp a b) ->
  exists n, cmp a b = Some n /\ n <> NaN /\ V a b = signOf n.
Proof. intros (n & Hn & Hnan). exists n. unfold verdict. now rewrite Hn. Qed.

Lemma ordered_orElse c rest :
  ordered c -> ordered rest -> ordered (orElse c rest).
Proof.
  intros (x & -> & Hx) Hrest. cbn. destruct (isZero x); [exact Hrest|].
  now exists x.
Qed.

Lemma ordered_constant z : ordered (Some (Finite z)).
Proof. exists (Finite z). split; [reflexivity | discriminate]. Qed.

Lemma scalar_alike_ordered a b :
  isArray a && isArray b = false -> alike a b = true -> ordered (cmp a b).
Proof.
  intros Harr. rewrite (alike_scalars a b Harr). intros H.
  apply orb_true_iff in H as [H|H]; [apply orb_true_iff in H as [H|H]|].
  - rewrite (cmp_nullish_l h a b H). apply ordered_constant.
  - rewrite (cmp_nullish_r h a b H). apply ordered_constant.
  - now apply samekind_ordered.
Qed.

Lemma missing_ordered r r' ys : ordered (cmp (VArr r []) (VArr r' ys)).
Proof.
  induction ys as [|y ys IH]; [apply ordered_constant|].
  rewrite cmp_nil_cons. apply ordered_orElse; [|exact IH].
  rewrite (cmp_nullish_l h VUndefined y eq_refl). apply ordered_constant.
Qed.

Lemma alike_ordered a : forall b, alike a b = true -> ordered (cmp a b).
Proof.
  induction a as [ | | x | n | s | r xs IH | r fa _] using Value_nested_ind;
    intros b; try (apply scalar_alike_ordered; reflexivity).
  destruct b as [ | | y | n | t | r' ys | r' fb];
    try (apply scalar_alike_ordered; reflexivity).
  rewrite alike_arrays. revert ys.
  induction IH as [|x xs Hx _ IHxs]; intros ys Hys.
  - apply missing_ordered.
  - destruct ys as [|y ys].
    + rewrite cmp_cons_nil.
      apply ordered_orElse; [|apply IHxs; now destruct xs].
      rewrite (cmp_nullish_r h x VUndefined eq_refl). apply ordered_constant.
    + cbn in Hys. apply andb_true_iff in Hys as [Hhead Htail].
      rewrite cmp_cons_cons.
      apply ordered_orElse; [now apply Hx | now apply IHxs].
Qed.

Lemma verdict_step r r' xs ys :
  pairwise alike xs ys = true ->
  V (VArr r xs) (VArr r' ys)
  = pick (V (item 0 xs) (item 0 ys)) (V (VArr r (tl xs)) (VArr r' (tl ys))).
Proof.
  intros H. apply pairwise_step in H as [Hhead Htail].
  apply alike_ordered, ordered_verdict in Hhead as (n & Hn & Hnan & Hv).
  rewrite Hv. unfold verdict. rewrite cmp_step, Hn. cbn [orElse].
  unfold pick. rewrite (isZero_sign n Hnan).
  now destruct (signOf n =? 0).
Qed.

Lemma arrays_consistent n : forall r r' r'' xs ys zs,
  (length xs + length ys + length zs < n)%nat ->
  Forall (ConsistentAt h) xs ->
  pairwise alike xs ys = true ->
  pairwise alike ys zs = true ->
  pairwise alike xs zs = true ->
  consistent (V (VArr r xs) (VArr r' ys)) (V (VArr r' ys) (VArr r'' zs))
             (V (VArr r xs) (VArr r'' zs)).
Proof.
  induction n as [|n IH]; intros r r' r'' xs ys zs Hlen Hxs Hxy Hyz Hxz;
    [lia|].
  destruct xs as [|x xs], ys as [|y ys], zs as [|z zs];
    try (unfold consistent, verdict; cbn; lia);
    rewrite (verdict_step r r' _ _ Hxy), (verdict_step r' r'' _ _ Hyz),
            (verdict_step r r'' _ _ Hxz);
    apply pairwise_step in Hxy as [Hxy0 Hxy'];
    apply pairwise_step in Hyz as [Hyz0 Hyz'];
    apply pairwise_step in Hxz as [Hxz0 Hxz'];
    (apply consistent_pick;
      [ try (apply nullish_consistent; cbn; rewrite ?orb_true_r; reflexivity)
      | apply IH; cbn [tl length] in *;
        try assumption; try lia;
        try (inversion Hxs; assumption); try constructor ]).
  inversion Hxs as [|? ? Hx _]; subst. now apply Hx.
Qed.

Lemma verdict_consistent a :
  SignAntisymmetric (localeCompare h) -> LeTransitive (localeCompare h) ->
  ConsistentAt h a.
Proof.
  intros Hs Ht.
  assert (Hscalar : forall u v w,
             isArray u = false ->
             alike u v = true -> alike v w = true ->
             consistent (V u v) (V v w) (V u w)).
  { intros u v w Hu Huv Hvw.
    destruct (isNullish u || isNullish v || isNullish w) eqn:Hnull;
      [now apply nullish_consistent|].
    apply orb_false_iff in Hnull as [Hnull Hw].
    apply orb_false_iff in Hnull as [Hu' Hv].
    rewrite alike_scalars in Huv by now rewrite Hu.
    rewrite Hu', Hv in Huv. cbn in Huv.
    assert (isArray v = false) as Hvarr.
    { destruct v; try reflexivity. apply sameKind_cases in Huv as [k [_ Hk]].
      discriminate. }
    rewrite alike_scalars in Hvw by now rewrite Hvarr.
    rewrite Hv, Hw in Hvw. cbn in Hvw.
    now apply samekind_consistent. }
  induction a as [ | | x | n | s | r xs IH | r fa _] using Value_nested_ind;
    intros b c Hab Hbc Hac; try (now apply Hscalar).
  destruct (isNullish b || isNullish c) eqn:Hnull.
  { apply nullish_consistent. cbn. exact Hnull. }
  apply orb_false_iff in Hnull as [Hb Hc].
  destruct b as [ | | y | n | t | r' ys | r' fb]; try discriminate;
    try (rewrite alike_scalars in Hab by reflexivity; cbn in Hab;
         discriminate).
  destruct c as [ | | z | n | u | r'' zs | r'' fc]; try discriminate;
    try (rewrite alike_scalars in Hac by reflexivity; cbn in Hac;
         discriminate).
  rewrite alike_arrays in Hab, Hbc, Hac.
  eapply arrays_consistent; eauto.
Qed.

End Transitivity.

(** ** Zero is returned for equal values only *)

Section Strictness.

Variable h : Host.
Hypothesis reflexive : forall s, localeCompare h s s = 0.
Hypothesis discerning : Discerning (localeCompare h).
#[local] Abbreviation cmp := (compareJsonValues h).

Lemma definite_not_nullish v : definite v = true -> isNullish v = false.
Proof. destruct v; try reflexivity; discriminate. Qed.

Lemma definite_scalar v :
  isArray v = false -> definite v = true -> exists k, kindOf v = Some k.
Proof.
  destruct v as [ | | b | [x| |sx] | s | r xs | r fs]; cbn;
    try discriminate; eauto.
Qed.

Lemma sameJson_arrays r xs r' ys :
  sameJson (VArr r xs) (VArr r' ys)
  = match xs, ys with
    | [], [] => true
    | x :: xs', y :: ys' => sameJson x y && sameJson (VArr r xs') (VArr r' ys')
    | _, _ => false
    end.
Proof. destruct xs, ys; reflexivity. Qed.

Lemma isZero_true n : isZero n = true <-> n = Finite 0.
Proof.
  destruct n as [z| |s]; cbn; split; try discriminate.
  - intros H. apply Z.eqb_eq in H. now subst.
  - intros H. now inversion H.
Qed.

Lemma toDouble_zero z : toDouble z = Finite 0 <-> z = 0.
Proof.
  rewrite <- isZero_true, toDouble_isZero. apply Z.eqb_eq.
Qed.

Lemma orElse_zero c rest :
  ordered c ->
  orElse c rest = Some (Finite 0)
  <-> c = Some (Finite 0) /\ rest = Some (Finite 0).
Proof.
  intros (n & -> & _). cbn. destruct (isZero n) eqn:Hz.
  - apply isZero_true in Hz. subst. tauto.
  - split.
    + intros H. inversion H. subst. discriminate.
    + intros [H _]. inversion H. subst. discriminate.
Qed.

Lemma samekind_zero a b :
  sameKind (kindOf a) (kindOf b) = true ->
  cmp a b = Some (Finite 0) <-> sameJson a b = true.
Proof.
  intros H. apply sameKind_cases in H as [k [Ha Hb]].
  apply kind_cases in Ha, Hb. destruct k.
  - destruct Ha as [x ->], Hb as [y ->].
    cbn [compareJsonValues compareScalars isNullish andb minus sameJson].
    rewrite Z.eqb_eq. split.
    + intros H. inversion H as [H']. apply toDouble_zero in H'. lia.
    + intros ->. f_equal. apply toDouble_zero. lia.
  - destruct Ha as [x ->], Hb as [y ->].
    cbn [compareJsonValues compareScalars isNullish andb sameJson].
    rewrite String.eqb_eq. split.
    + intros H. inversion H as [H']. now apply discerning.
    + intros ->. now rewrite reflexive.
  - destruct Ha as [x ->], Hb as [y ->].
    destruct x, y; vm_compute; split; intros H;
      first [reflexivity | discriminate H].
Qed.

Lemma definite_zero a : forall b,
  definite a = true -> definite b = true -> alike a b = true ->
  cmp a b = Some (Finite 0) <-> sameJson a b = true.
Proof.
  assert (Hscalar : forall u v,
             isArray u && isArray v = false ->
             definite u = true -> definite v = true -> alike u v = true ->
             cmp u v = Some (Finite 0) <-> sameJson u v = true).
  { intros u v Harr Hu Hv Huv. rewrite alike_scalars in Huv by exact Harr.
    rewrite (definite_not_nullish u Hu), (definite_not_nullish v Hv) in Huv.
    now apply samekind_zero. }
  induction a as [ | | x | n | s | r xs IH | r fa _] using Value_nested_ind;
    intros b; try (apply Hscalar; reflexivity).
  destruct b as [ | | y | n | t | r' ys | r' fb];
    try (apply Hscalar; reflexivity).
  cbn [definite]. rewrite alike_arrays. revert ys.
  induction IH as [|x xs Hx _ IHxs]; intros ys Hxs Hys Hlike.
  - destruct ys as [|y ys]; [now rewrite cmp_nil_nil|].
    cbn [forallb] in Hys. apply andb_true_iff in Hys as [Hy _].
    rewrite cmp_nil_cons, sameJson_arrays.
    rewrite (cmp_nullish_l h VUndefined y eq_refl),
            (definite_not_nullish y Hy).
    cbn. split; discriminate.
  - cbn [forallb] in Hxs. apply andb_true_iff in Hxs as [Hx0 Hxs].
    destruct ys as [|y ys].
    + rewrite cmp_cons_nil, sameJson_arrays.
      rewrite (cmp_nullish_r h x VUndefined eq_refl),
              (definite_not_nullish x Hx0).
      cbn. split; discriminate.
    + cbn [forallb] in Hys. apply andb_true_iff in Hys as [Hy0 Hys].
      cbn [pairwise] in Hlike. apply andb_true_iff in Hlike as [Hhead Htail].
      rewrite cmp_cons_cons, sameJson_arrays, andb_true_iff.
      rewrite orElse_zero by now apply alike_ordered.
      rewrite (Hx y Hx0 Hy0 Hhead), (IHxs ys Hxs Hys Htail). tauto.
Qed.

End Strictness.

(** ** The reference host is a collation *)

Lemma ascii_compare_cases a b :
  match Ascii.compare a b with
  | Eq => N_of_ascii a = N_of_ascii b
  | Lt => (N_of_ascii a < N_of_ascii b)%N
  | Gt => (N_of_ascii b < N_of_ascii a)%N
  end.
Proof.
  unfold Ascii.compare.
  destruct (N.compare_spec (N_of_ascii a) (N_of_ascii b)); assumption.
Qed.

Lemma string_compare_le_trans s : forall t u,
  String.compare s t <> Gt -> String.compare t u <> Gt ->
  String.compare s u <> Gt.
Proof.
  induction s as [|a s IH]; intros [|b t] [|c u]; cbn; try congruence.
  pose proof (ascii_compare_cases a b) as Hab.
  pose proof (ascii_compare_cases b c) as Hbc.
  pose proof (ascii_compare_cases a c) as Hac.
  destruct (Ascii.compare a b), (Ascii.compare b c), (Ascii.compare a c);
    intros H1 H2; try congruence; try lia.
  now apply (IH t u).
Qed.

Lemma reference_collation :
  SignAntisymmetric (localeCompare referenceHost)
  /\ LeTransitive (localeCompare referenceHost)
  /\ Discerning (localeCompare referenceHost).
Proof.
  split; [|split].
  - intros s t. cbn. unfold codeUnitCompare. rewrite (String.compare_antisym s t).
    now destruct (String.compare t s).
  - intros s t u. cbn. unfold codeUnitCompare.
    pose proof (string_compare_le_trans s t u) as H.
    destruct (String.compare s t) eqn:E1, (String.compare t u) eqn:E2,
             (String.compare s u) eqn:E3;
      try lia; intros _ _; exfalso; apply H; congruence.
  - intros s t. cbn. unfold codeUnitCompare.
    destruct (String.compare s t) eqn:E; try discriminate.
    intros _. now apply String.compare_eq_iff.
Qed.

(** ** C7: what kind of order compareJsonValues is *)




(** * Facts about argsMatch *)

Import Args.

Lemma forallb_agree {A} (f g : A -> bool) (l : list A) :
  (forall x, In x l -> f x = g x) -> forallb f l = forallb g l.
Proof.
  induction l as [|x l IH]; cbn; [reflexivity|]. intros H.
  rewrite (H x) by now left. rewrite IH; [reflexivity|].
  intros y Hy. apply H. now right.
Qed.

Lemma includes_In skip key : includes skip key = true <-> In key skip.
Proof.
  unfold includes. rewrite existsb_exists. split.
  - intros (k & Hin & Heq). apply String.eqb_eq in Heq. now subst.
  - intros Hin. exists key. split; [exact Hin | apply String.eqb_refl].
Qed.

(** The loop of [argsMatch] asks every field of the filter in turn. *)
Lemma argsMatch_forallb inherited q f skip :
  argsMatch inherited q f skip = forallb (fieldMet inherited q skip) f.
Proof.
  induction f as [|[k v] f IH]; cbn [argsMatch forallb]; [reflexivity|].
  unfold fieldMet at 1. cbn [fst snd].
  destruct (includes skip k); cbn [orb andb]; [exact IH|].
  destruct (deepEqualLooked v (lookup inherited q k)); cbn; [exact IH|].
  reflexivity.
Qed.

Lemma fieldMet_wider inherited q skip skip' kv :
  (forall k, In k skip -> In k skip') ->
  fieldMet inherited q skip kv = true -> fieldMet inherited q skip' kv = true.
Proof.
  unfold fieldMet. intros Hskip H. apply orb_true_iff in H as [H | H].
  - apply includes_In, Hskip, includes_In in H. now rewrite H.
  - rewrite H. apply orb_true_r.
Qed.

(** Property X12.  A filter in two parts matches exactly when both parts
    do; and a match can only be lost, never won, by asking more: a filter
    that matches still matches after fields are dropped from it and after
    keys are added to the keys to skip. *)
Theorem argsMatch_narrows :
  forall inherited q f f' skip skip',
    argsMatch inherited q (f ++ f') skip
    = argsMatch inherited q f skip && argsMatch inherited q f' skip
    /\ ((forall kv, In kv f' -> In kv f) ->
        (forall k, In k skip -> In k skip') ->
        argsMatch inherited q f skip = true ->
        argsMatch inherited q f' skip' = true).
Proof.
  intros inherited q f f' skip skip'. split.
  - rewrite !argsMatch_forallb. apply forallb_app.
  - intros Hf Hskip. rewrite !argsMatch_forallb, !List.forallb_forall.
    intros H kv Hin.
    apply (fieldMet_wider inherited q skip skip' kv Hskip), H, Hf, Hin.
Qed.

Lemma argsMatch_narrows_witness :
  argsMatch (objectPrototype 0)
    [("listId", VStr "a"); ("done", VBool false)]
    [("listId", VStr "a")] ["paginationOpts"]
  = true.
Proof.
  refine (proj2 (argsMatch_narrows (objectPrototype 0)
                   [("listId", VStr "a"); ("done", VBool false)]
                   [("done", VBool false); ("listId", VStr "a")]
                   [("listId", VStr "a")] [] ["paginationOpts"]) _ _
            eq_refl).
  - intros kv [<- | []]. right. now left.
  - intros k [].
Defined.



Lemma deepEqual_self v : deepEqual v v = negb (isNaN v).
Proof.
  destruct v as [ | | b | [z| |sz] | s | r xs | r fs]; try reflexivity.
  - now destruct b.
  - cbn. now rewrite Z.eqb_refl.
  - now destruct sz.
  - cbn. now rewrite String.eqb_refl.
  - now rewrite deepEqual_arrays, Nat.eqb_refl.
  - now rewrite deepEqual_objects, Nat.eqb_refl.
Qed.

(** Property X14.  The arguments of a query, taken as a filter, match the
    query itself exactly when none of their fields, the skipped ones
    apart, is [NaN]. *)
Theorem argsMatch_own_args :
  forall inherited q skip,
    distinct (map fst q) = true ->
    argsMatch inherited q q skip
    = forallb (fun kv => includes skip (fst kv) || negb (isNaN (snd kv))) q.
Proof.
  intros inherited q skip Hd. apply distinct_NoDup in Hd.
  rewrite argsMatch_forallb. apply forallb_agree. intros [k v] Hin.
  unfold fieldMet, lookup. cbn [fst snd].
  rewrite (getField_unique k v q Hd Hin). cbn [deepEqualLooked].
  now rewrite deepEqual_self.
Qed.

Lemma argsMatch_own_args_witness :
  argsMatch (objectPrototype 0)
    [("id", VNum (Finite 5)); ("score", VNum NaN)]
    [("id", VNum (Finite 5)); ("score", VNum NaN)] []
  = false.
Proof.
  exact (argsMatch_own_args (objectPrototype 0)
           [("id", VNum (Finite 5)); ("score", VNum NaN)] [] eq_refl).
Defined.

Lemma uncopy_deepEqual f x :
  uniqueKeys x = true -> nanFree x = true ->
  deepEqual (relabel f x) x = true.
Proof.
  induction x as [ | | b | n | s | r xs IH | r fa IH] using Value_nested_ind;
    intros Hu Hn;
    try (cbn [relabel]; rewrite deepEqual_primitive_l by reflexivity;
         apply strictEquals_refl; intros E;
         first [discriminate E | injection E as ->; discriminate Hn]).
  - cbn [relabel]. rewrite deepEqual_arrays, length_map, Nat.eqb_refl.
    cbn in Hu, Hn.
    assert (Hall : pairwise deepEqual (map (relabel f) xs) xs = true);
      [|now rewrite Hall, orb_true_r].
    clear r. induction IH as [|x xs Hx _ IHxs]; [reflexivity|].
    cbn in Hu, Hn |- *. apply andb_true_iff in Hu as [Hu Hus].
    apply andb_true_iff in Hn as [Hn Hns]. now rewrite Hx, IHxs.
  - rewrite relabel_object, deepEqual_objects, length_map, Nat.eqb_refl.
    destruct (uniqueKeys_object r fa Hu) as [Hnd Hkeys].
    rewrite nanFree_object in Hn.
    rewrite List.forallb_forall in Hn. rewrite List.Forall_forall in IH.
    assert (Hall : forallb (fieldMatches fa)
                     (map (fun kv => (fst kv, relabel f (snd kv))) fa)
                   = true); [|now rewrite Hall, orb_true_r].
    apply List.forallb_forall. intros kv Hin.
    apply in_map_iff in Hin as ([k v] & <- & Hin). unfold fieldMatches.
    cbn [fst snd]. rewrite (getField_unique k v fa Hnd Hin).
    apply (IH _ Hin); [now apply (Hkeys k) | now apply (Hn _ Hin)].
Qed.

(** Property X15.  A filter made of structural copies of fields of the
    query, rebuilt under references of their own, matches the query. *)
Theorem argsMatch_copied_fields :
  forall inherited q f skip (g : nat -> nat),
    Forall (copiedFrom q g) f -> argsMatch inherited q f skip = true.
Proof.
  intros inherited q f skip g Hf. rewrite argsMatch_forallb.
  apply List.forallb_forall. intros [k v] Hin.
  rewrite List.Forall_forall in Hf.
  destruct (Hf _ Hin) as (u & Hget & Hu & Hn & Hv). cbn [fst snd] in *.
  unfold fieldMet, lookup. cbn [fst snd]. rewrite Hget, Hv.
  cbn [deepEqualLooked]. rewrite uncopy_deepEqual by assumption.
  apply orb_true_r.
Qed.

Lemma argsMatch_copied_fields_witness :
  argsMatch (objectPrototype 0)
    [("listId", VStr "a"); ("tags", VArr 1 [VStr "x"; VNull])]
    [("tags", VArr 11 [VStr "x"; VNull])] []
  = true.
Proof.
  apply (argsMatch_copied_fields (objectPrototype 0)
           [("listId", VStr "a"); ("tags", VArr 1 [VStr "x"; VNull])]
           [("tags", VArr 11 [VStr "x"; VNull])] []
           (fun r => (r + 10)%nat)).
  constructor; [|constructor].
  exists (VArr 1 [VStr "x"; VNull]). repeat split; reflexivity.
Defined.

(** * More facts about deepEqual and compareJsonValues *)

Lemma getField_None key fs :
  getField key fs = None -> forall v, ~ In (key, v) fs.
Proof.
  induction fs as [|[k x] fs IH]; cbn; [intros _ v []|].
  destruct (String.eqb key k) eqn:E; [discriminate|].
  intros H v [Heq | Hin]; [|exact (IH H v Hin)].
  injection Heq as -> ->. rewrite String.eqb_refl in E. discriminate.
Qed.

Lemma getField_Permutation key fs fs' :
  Permutation fs fs' -> List.NoDup (map fst fs) ->
  getField key fs = getField key fs'.
Proof.
  intros Hp Hnd.
  assert (Hnd' : List.NoDup (map fst fs')).
  { eapply Permutation_NoDup; [|exact Hnd]. now apply Permutation_map. }
  destruct (getField key fs) as [v|] eqn:E.
  - symmetry. apply getField_unique; [exact Hnd'|].
    eapply Permutation_in; [exact Hp|]. now apply getField_In.
  - destruct (getField key fs') as [v'|] eqn:E'; [|reflexivity].
    apply getField_In in E'. exfalso. apply (getField_None key fs E v').
    eapply Permutation_in; [symmetry; exact Hp | exact E'].
Qed.

Lemma forallb_Permutation {A} (f : A -> bool) (l l' : list A) :
  Permutation l l' -> forallb f l = forallb f l'.
Proof.
  induction 1 as [|x l l' _ IH|x y l|l l' l'' _ IH1 _ IH2]; cbn.
  - reflexivity.
  - now rewrite IH.
  - now destruct (f x), (f y).
  - now rewrite IH1.
Qed.

(** Property X16.  [deepEqual] on two objects does not depend on the order
    in which either object lists its fields. *)
Theorem deepEqual_field_order :
  forall r fa fa' r' fb fb',
    Permutation fa fa' -> Permutation fb fb' ->
    distinct (map fst fb) = true ->
    deepEqual (VObj r fa) (VObj r' fb) = deepEqual (VObj r fa') (VObj r' fb').
Proof.
  intros r fa fa' r' fb fb' Ha Hb Hd. apply distinct_NoDup in Hd.
  rewrite !deepEqual_objects.
  rewrite <- (Permutation_length Ha), <- (Permutation_length Hb).
  rewrite <- (forallb_Permutation (fieldMatches fb') fa fa' Ha).
  do 2 f_equal. apply forallb_agree. intros [k v] _. unfold fieldMatches.
  cbn [fst snd]. now rewrite (getField_Permutation k fb fb' Hb Hd).
Qed.

Lemma deepEqual_field_order_witness :
  deepEqual (VObj 1 [("a", VNum (Finite 1)); ("b", VArr 2 [VNull])])
            (VObj 3 [("a", VNum (Finite 1)); ("b", VArr 4 [VNull])])
  = deepEqual (VObj 1 [("b", VArr 2 [VNull]); ("a", VNum (Finite 1))])
              (VObj 3 [("b", VArr 4 [VNull]); ("a", VNum (Finite 1))]).
Proof.
  exact (deepEqual_field_order 1
           [("a", VNum (Finite 1)); ("b", VArr 2 [VNull])]
           [("b", VArr 2 [VNull]); ("a", VNum (Finite 1))] 3
           [("a", VNum (Finite 1)); ("b", VArr 4 [VNull])]
           [("b", VArr 4 [VNull]); ("a", VNum (Finite 1))]
           (perm_swap _ _ _) (perm_swap _ _ _) eq_refl).
Defined.


(** * More facts about compareJsonValues *)

Section CompareSelf.

Variable h : Host.
Hypothesis collation : SignAntisymmetric (localeCompare h).
#[local] Abbreviation cmp := (compareJsonValues h).

Lemma scalars_self a :
  isArray a = false ->
  (compareScalars h a a = Some (Finite 0) <-> comparable h a = true).
Proof.
  destruct a as [ | | b | [z| |sz] | s | r xs | r fs]; try discriminate;
    intros _; cbn [comparable]; try (cbn; now split).
  - cbn. destruct b; now split.
  - cbn [compareScalars isNullish andb minus]. rewrite Z.sub_diag.
    rewrite (proj2 (toDouble_zero 0) eq_refl). now split.
  - destruct sz; cbn; split; discriminate.
  - cbn. rewrite (localeCompare_self h collation). now split.
  - unfold compareScalars. cbn [isNullish andb].
    destruct (hasInteger (VObj r fs)); cbn [andb].
    + destruct (toBigInt h (integerOf (VObj r fs))) as [x|].
      * rewrite Z.sub_diag, (proj2 (toDouble_zero 0) eq_refl). now split.
      * now split.
    + destruct (toString h (VObj r fs)) as [s|].
      * rewrite (localeCompare_self h collation). now split.
      * now split.
Qed.

Lemma orElse_both_zero c rest :
  orElse c rest = Some (Finite 0)
  <-> c = Some (Finite 0) /\ rest = Some (Finite 0).
Proof.
  destruct c as [n|]; cbn; [|split; [discriminate | now intros [? _]]].
  destruct (isZero n) eqn:Hz.
  - apply isZero_true in Hz. subst. tauto.
  - split.
    + intros H. inversion H. subst. discriminate.
    + intros [H _]. inversion H. subst. discriminate.
Qed.

Lemma cmp_self a : cmp a a = Some (Finite 0) <-> comparable h a = true.
Proof.
  induction a as [ | | b | n | s | r xs IH | r fs _] using Value_nested_ind;
    try (rewrite cmp_scalars by reflexivity; now apply scalars_self).
  cbn [comparable].
  induction IH as [|x xs Hx _ IHxs]; [now split|].
  rewrite cmp_cons_cons, orElse_both_zero. cbn [forallb].
  rewrite andb_true_iff, Hx, IHxs. reflexivity.
Qed.

End CompareSelf.

(** Property X17.  With a collation whose sign flips when its operands are
    swapped, [compareJsonValues(a, a)] is 0 exactly for the values that,
    where the comparison reaches, hold no [NaN], no [Infinity], no object
    that [String] fails to convert and no big integer that [BigInt] fails
    to read; for the others it is [NaN] or an exception, never 0. *)
Theorem compareJsonValues_reflexive :
  forall (h : Host) (a : Value),
    SignAntisymmetric (localeCompare h) ->
    (compareJsonValues h a a = Some (Finite 0) <-> comparable h a = true)
    /\ (comparable h a = false ->
        compareJsonValues h a a = Some NaN
        \/ compareJsonValues h a a = None).
Proof.
  intros h a Hc. split; [now apply cmp_self|]. intros Hbad.
  pose proof (cmp_mirrored h Hc a a) as Hm.
  pose proof (cmp_self h Hc a) as Hself.
  destruct (compareJsonValues h a a) as [n|]; [|now right].
  destruct (Number_eq_NaN n) as [-> | Hn]; [now left|].
  exfalso. unfold mirrored in Hm.
  assert (signOf n = 0) as Hzero
    by (destruct n as [z| |s]; [| congruence |];
        destruct Hm as (_ & _ & Hm); lia).
  rewrite (sign_zero n Hn Hzero) in Hself.
  rewrite (proj1 Hself eq_refl) in Hbad. discriminate.
Qed.

Lemma compareJsonValues_reflexive_witness :
  compareJsonValues referenceHost
    (VArr 1 [VStr "a"; VNull; VObj 2 [("id", VNum (Finite 12))]])
    (VArr 1 [VStr "a"; VNull; VObj 2 [("id", VNum (Finite 12))]])
  = Some (Finite 0)
  /\ (compareJsonValues referenceHost
        (VObj 3 [("toString", VNum (Finite 1))])
        (VObj 3 [("toString", VNum (Finite 1))]) = Some NaN
      \/ compareJsonValues referenceHost
           (VObj 3 [("toString", VNum (Finite 1))])
           (VObj 3 [("toString", VNum (Finite 1))]) = None).
Proof.
  split.
  - apply (compareJsonValues_reflexive referenceHost
             (VArr 1 [VStr "a"; VNull; VObj 2 [("id", VNum (Finite 12))]])
             (proj1 reference_collation)).
    reflexivity.
  - apply (compareJsonValues_reflexive referenceHost
             (VObj 3 [("toString", VNum (Finite 1))])
             (proj1 reference_collation)).
    reflexivity.
Defined.

Section CompareTotal.

Variable h : Host.
#[local] Abbreviation cmp := (compareJsonValues h).

Lemma scalars_return a b :
  hasInteger a && hasInteger b = false ->
  toString h a <> None -> toString h b <> None ->
  compareScalars h a b <> None.
Proof.
  intros H Ha Hb. unfold compareScalars.
  destruct (isNullish a && isNullish b); [discriminate|].
  destruct (isNullish a); [discriminate|].
  destruct (isNullish b); [discriminate|].
  rewrite H.
  destruct (toString h a) as [s|]; [|contradiction].
  destruct (toString h b) as [t|]; [|contradiction].
  destruct a, b; discriminate.
Qed.

Lemma integerFree_hasInteger a :
  integerFree a = true -> hasInteger a = false.
Proof.
  destruct a as [ | | b | n | s | r xs | r fs]; try reflexivity.
  cbn [integerFree]. now intros H%negb_true_iff.
Qed.

Lemma printable_toString a : printable h a = true -> toString h a <> None.
Proof.
  destruct a; cbn [printable]; destruct (toString h _); discriminate.
Qed.

Lemma printable_items r xs :
  printable h (VArr r xs) = true -> forallb (printable h) xs = true.
Proof.
  cbn [printable]. destruct (toString h (VArr r xs)); [|discriminate].
  induction xs as [|x xs IH]; [reflexivity|]. cbn [forallb].
  intros H. apply andb_true_iff in H as [Hx Hxs]. now rewrite Hx, IH.
Qed.

Lemma orElse_returns c rest :
  c <> None -> rest <> None -> orElse c rest <> None.
Proof.
  destruct c as [n|]; [|contradiction]. cbn. intros _ Hrest.
  now destruct (isZero n).
Qed.

Lemma nullish_returns_l a b : isNullish a = true -> cmp a b <> None.
Proof. intros Ha. now rewrite (cmp_nullish_l h a b Ha). Qed.

Lemma nullish_returns_r a b : isNullish b = true -> cmp a b <> None.
Proof. intros Hb. now rewrite (cmp_nullish_r h a b Hb). Qed.

Lemma cmp_returns a :
  integerFree a = true -> printable h a = true ->
  forall b, printable h b = true -> cmp a b <> None /\ cmp b a <> None.
Proof.
  assert (Hscalar : forall u v, isArray u && isArray v = false ->
                                hasInteger u && hasInteger v = false ->
                                printable h u = true -> printable h v = true ->
                                cmp u v <> None).
  { intros u v Harr Hint Hu Hv. rewrite cmp_scalars by exact Harr.
    apply scalars_return; [exact Hint | |]; now apply printable_toString. }
  induction a as [ | | x | n | s | r xs IH | r fs _] using Value_nested_ind;
    intros Ha Hpa b Hpb;
    try (split; apply Hscalar; try assumption;
         rewrite ?andb_false_r; try reflexivity;
         rewrite ?(integerFree_hasInteger _ Ha), ?andb_false_r;
         reflexivity).
  cbn [integerFree] in Ha.
  destruct b as [ | | y | n | t | r' ys | r' fs'];
    try (split; apply Hscalar; try assumption;
         rewrite ?andb_false_r; reflexivity).
  apply printable_items in Hpa, Hpb. clear Hscalar.
  revert ys Hpb. induction IH as [|x xs Hx _ IHxs]; intros ys Hpb.
  - clear Ha Hpa. induction ys as [|y ys IHys]; [split; discriminate|].
    cbn [forallb] in Hpb. apply andb_true_iff in Hpb as [_ Hys].
    rewrite cmp_nil_cons, cmp_cons_nil. destruct (IHys Hys) as [IH1 IH2].
    split; apply orElse_returns; try assumption;
      [now apply nullish_returns_l | now apply nullish_returns_r].
  - cbn [forallb] in Ha, Hpa.
    apply andb_true_iff in Ha as [Hax Haxs].
    apply andb_true_iff in Hpa as [Hpx Hpxs].
    specialize (Hx Hax Hpx). specialize (IHxs Haxs Hpxs).
    destruct ys as [|y ys].
    + rewrite cmp_nil_cons, cmp_cons_nil.
      destruct (IHxs [] eq_refl) as [IH1 IH2].
      split; apply orElse_returns; try assumption;
        [now apply nullish_returns_r | now apply nullish_returns_l].
    + cbn [forallb] in Hpb. apply andb_true_iff in Hpb as [Hpy Hpys].
      rewrite !cmp_cons_cons. destruct (IHxs ys Hpys) as [IH1 IH2].
      split; apply orElse_returns; try assumption; now apply Hx.
Qed.

End CompareTotal.

(** Property X18.  [compareJsonValues] throws only through [BigInt] or
    [String]: when [String] converts both operands, and the array elements
    the comparison reaches, and one operand has no object carrying
    [$integer] where the comparison reaches, the call returns a number,
    whichever side that operand is on. *)
Theorem compareJsonValues_never_throws :
  forall (h : Host) (a b : Value),
    integerFree a = true ->
    printable h a = true -> printable h b = true ->
    (exists n, compareJsonValues h a b = Some n)
    /\ (exists n, compareJsonValues h b a = Some n).
Proof.
  intros h a b Ha Hpa Hpb. destruct (cmp_returns h a Ha Hpa b Hpb) as [H1 H2].
  split.
  - destruct (compareJsonValues h a b) as [n|]; [now exists n | contradiction].
  - destruct (compareJsonValues h b a) as [n|]; [now exists n | contradiction].
Qed.

Lemma compareJsonValues_never_throws_witness :
  (exists n, compareJsonValues referenceHost
               (VArr 1 [VStr "a"; VObj 2 [("id", VNum (Finite 1))]])
               (VArr 3 [VStr "a"; VObj 4 [("$integer", VStr "x")]])
             = Some n)
  /\ (exists n, compareJsonValues referenceHost
                  (VArr 3 [VStr "a"; VObj 4 [("$integer", VStr "x")]])
                  (VArr 1 [VStr "a"; VObj 2 [("id", VNum (Finite 1))]])
                = Some n).
Proof.
  exact (compareJsonValues_never_throws referenceHost
           (VArr 1 [VStr "a"; VObj 2 [("id", VNum (Finite 1))]])
           (VArr 3 [VStr "a"; VObj 4 [("$integer", VStr "x")]])
           eq_refl eq_refl eq_refl).
Defined.

Section CompareEqual.

Variable h : Host.
#[local] Abbreviation cmp := (compareJsonValues h).

Lemma missing_nullish r r' ys :
  cmp (VArr r []) (VArr r' ys)
  = Some (Finite (if forallb isNullish ys then 0 else -1)).
Proof.
  induction ys as [|y ys IH]; [reflexivity|].
  rewrite cmp_nil_cons, IH, (cmp_nullish_l h VUndefined y eq_refl).
  cbn [forallb]. destruct (isNullish y); cbn; [|reflexivity].
  now destruct (forallb isNullish ys).
Qed.

Lemma plain_comparable a : plain h a = true -> comparable h a = true.
Proof.
  induction a as [ | | b | n | s | r xs IH | r fs _] using Value_nested_ind;
    try (intros H; exact H).
  - cbn [plain comparable]. induction IH as [|x xs Hx _ IHxs]; [reflexivity|].
    cbn [forallb]. intros H. apply andb_true_iff in H as [H1 H2].
    now rewrite Hx, IHxs.
  - cbn [plain comparable]. intros H. apply andb_true_iff in H as [Hi Hs].
    apply negb_true_iff in Hi. now rewrite Hi.
Qed.

Lemma strictEquals_primitive a b :
  isPrimitive a = true -> strictEquals a b = true -> a = b.
Proof.
  destruct a as [ | | x | [x| |sx] | s | r xs | r fs]; try discriminate;
    intros _;
    destruct b as [ | | y | [y| |sy] | t | r' ys | r' fs']; cbn;
    try discriminate; try reflexivity.
  - intros H. apply Bool.eqb_prop in H. now subst.
  - intros H. apply Z.eqb_eq in H. now subst.
  - intros H. apply Bool.eqb_prop in H. now subst.
  - intros H. apply String.eqb_eq in H. now subst.
Qed.

Lemma apart_refs r xs r' ys :
  apart (VArr r xs) (VArr r' ys) -> Nat.eqb r r' = false.
Proof.
  intros H. apply Nat.eqb_neq. intros ->. apply (H r'); now left.
Qed.

Lemma apart_items r x xs r' y ys :
  apart (VArr r (x :: xs)) (VArr r' (y :: ys)) ->
  apart x y /\ apart (VArr r xs) (VArr r' ys).
Proof.
  intros H. split; intros r0 H0 H1.
  - apply (H r0); right; cbn [flat_map]; apply in_or_app; now left.
  - apply (H r0).
    + destruct H0 as [<- | H0]; [now left|]. right. cbn [flat_map].
      apply in_or_app. now right.
    + destruct H1 as [<- | H1]; [now left|]. right. cbn [flat_map].
      apply in_or_app. now right.
Qed.

End CompareEqual.

(** Property X27.  In a multi-key sort, an array whose elements each
    compare equal to themselves sorts before the arrays it is a proper
    beginning of, unless what they add is only [null] and [undefined]:
    trailing [null] and [undefined] do not count, and the two arrays then
    compare equal. *)
Theorem compareJsonValues_prefix :
  forall (h : Host) r r' (xs ys : list Value),
    Forall (fun x => compareJsonValues h x x = Some (Finite 0)) xs ->
    compareJsonValues h (VArr r xs) (VArr r' (xs ++ ys))
    = Some (Finite (if forallb isNullish ys then 0 else -1)).
Proof.
  intros h r r' xs ys Hxs. induction Hxs as [|x xs Hx _ IH].
  - apply missing_nullish.
  - change ((x :: xs) ++ ys)%list with (x :: (xs ++ ys))%list.
    rewrite cmp_cons_cons, Hx. cbn [orElse isZero Z.eqb]. exact IH.
Qed.

Lemma compareJsonValues_prefix_witness :
  compareJsonValues referenceHost
    (VArr 1 [VStr "a"; VNum (Finite 2)])
    (VArr 2 [VStr "a"; VNum (Finite 2); VNull])
  = Some (Finite 0)
  /\ compareJsonValues referenceHost
       (VArr 1 [VStr "a"; VNum (Finite 2)])
       (VArr 2 [VStr "a"; VNum (Finite 2); VNum (Finite 0)])
     = Some (Finite (-1)).
Proof.
  split.
  - apply (compareJsonValues_prefix referenceHost 1 2
             [VStr "a"; VNum (Finite 2)] [VNull]).
    repeat constructor.
  - apply (compareJsonValues_prefix referenceHost 1 2
             [VStr "a"; VNum (Finite 2)] [VNum (Finite 0)]).
    repeat constructor.
Defined.

(** Property X28.  The two helpers agree on what is equal, big integers
    aside: values that [deepEqual] takes for equal compare as equal under
    [compareJsonValues], for values kept apart on the heap, free of [NaN]
    and [Infinity], whose objects carry no [$integer] and are converted by
    [String], all to the same text.  (The converse fails: see the trailing
    [null] above.) *)
Theorem deepEqual_values_sort_equal :
  forall (h : Host) (a b : Value),
    SignAntisymmetric (localeCompare h) -> ObjectsPrintAlike h ->
    plain h a = true -> plain h b = true -> apart a b ->
    deepEqual a b = true ->
    compareJsonValues h a b = Some (Finite 0).
Proof.
  intros h a b collation objects Ha. revert b.
  induction a as [ | | x | n | s | r xs IH | r fa _] using Value_nested_ind;
    intros b Hb Hapart Heq;
    try (rewrite deepEqual_primitive_l in Heq by reflexivity;
         apply strictEquals_primitive in Heq; [|reflexivity]; subst b;
         apply (cmp_self h collation); now apply plain_comparable).
  - destruct b as [ | | y | n | t | r' ys | r' fb];
      try (rewrite deepEqual_primitive_r in Heq by reflexivity;
           discriminate Heq);
      [|now rewrite (proj1 (deepEqual_array_object r xs r' fb)) in Heq].
    rewrite deepEqual_arrays, (apart_refs r xs r' ys Hapart) in Heq.
    cbn [orb] in Heq. apply andb_true_iff in Heq as [Hlen Hall].
    apply Nat.eqb_eq in Hlen. cbn [plain] in Ha, Hb.
    revert ys Hb Hapart Hlen Hall.
    induction IH as [|x xs Hx _ IHxs]; intros [|y ys] Hb Hapart Hlen Hall;
      try discriminate; [reflexivity|].
    cbn [forallb] in Ha, Hb.
    apply andb_true_iff in Ha as [Hax Haxs].
    apply andb_true_iff in Hb as [Hby Hbys].
    cbn [pairwise] in Hall. apply andb_true_iff in Hall as [Hxy Hrest].
    apply apart_items in Hapart as [Hxy' Hrest'].
    rewrite cmp_cons_cons, (Hx Hax y Hby Hxy' Hxy).
    cbn [orElse isZero Z.eqb].
    apply IHxs; try assumption. now injection Hlen.
  - destruct b as [ | | y | n | t | r' ys | r' fb];
      try (rewrite deepEqual_primitive_r in Heq by reflexivity;
           discriminate Heq);
      [now rewrite (proj2 (deepEqual_array_object r' ys r fa)) in Heq|].
    rewrite cmp_scalars by reflexivity. unfold compareScalars.
    cbn [isNullish andb]. cbn [plain] in Ha, Hb.
    apply andb_true_iff in Ha as [Hia Hsa].
    apply andb_true_iff in Hb as [_ Hsb].
    apply negb_true_iff in Hia. rewrite Hia. cbn [andb].
    destruct (toString h (VObj r fa)) as [s|] eqn:Es; [|discriminate].
    destruct (toString h (VObj r' fb)) as [t|] eqn:Et; [|discriminate].
    rewrite (objects r fa r' fb s t Es Et).
    now rewrite (localeCompare_self h collation).
Qed.

Lemma deepEqual_values_sort_equal_witness :
  compareJsonValues referenceHost
    (VArr 1 [VStr "a"; VNum (Finite 12); VObj 3 [("k", VNull)]])
    (VArr 4 [VStr "a"; VNum (Finite 12); VObj 6 [("k", VNull)]])
  = Some (Finite 0).
Proof.
  apply (deepEqual_values_sort_equal referenceHost
           (VArr 1 [VStr "a"; VNum (Finite 12); VObj 3 [("k", VNull)]])
           (VArr 4 [VStr "a"; VNum (Finite 12); VObj 6 [("k", VNull)]])
           (proj1 reference_collation)).
  - intros r fs r' fs' s t. cbn [referenceHost toString jsString].
    destruct (getField "toString" fs), (getField "toString" fs');
      congruence.
  - reflexivity.
  - reflexivity.
  - intros r Ha Hb. cbn in Ha, Hb. intuition congruence.
  - reflexivity.
Defined.

(** * Facts about the instance identifiers *)

Section InstanceFacts.

Import Instances.

Lemma increment_below n : n < 2 ^ 53 -> increment n = n + 1.
Proof. unfold increment. intros H. apply Z.ltb_lt in H. now rewrite H. Qed.

Lemma serve_counter q st :
  globalInstanceCounter st < 2 ^ 53 ->
  globalInstanceCounter st <= globalInstanceCounter (fst (serve q st))
    <= globalInstanceCounter st + 1.
Proof.
  intros Hc. destruct q as [o|]; cbn; unfold getInstanceId.
  - destruct (instanceIdMap st !! o); cbn; rewrite ?increment_below; lia.
  - rewrite increment_below; lia.
Qed.

Lemma serve_sound q st :
  Sound st -> globalInstanceCounter st < 2 ^ 53 -> Sound (fst (serve q st)).
Proof.
  intros (Hpos & Hrange & Hinj) Hc. destruct q as [o|]; cbn [serve].
  - unfold getInstanceId. destruct (instanceIdMap st !! o) as [id|] eqn:E;
      cbn [fst]; [exact (conj Hpos (conj Hrange Hinj))|].
    rewrite increment_below by exact Hc. unfold Sound.
    cbn [instanceIdMap globalInstanceCounter].
    split; [lia|]. split.
    + intros o0 id. destruct (decide (o0 = o)) as [-> | Hne].
      * rewrite lookup_insert_eq. intros [= <-]. lia.
      * rewrite lookup_insert_ne by congruence.
        intros H. apply Hrange in H. lia.
    + intros o1 o2 id. destruct (decide (o1 = o)) as [-> | H1],
        (decide (o2 = o)) as [-> | H2]; try reflexivity;
        rewrite ?lookup_insert_eq, ?lookup_insert_ne by congruence.
      * intros [= <-] H. apply Hrange in H. lia.
      * intros H [= <-]. apply Hrange in H. lia.
      * apply Hinj.
  - unfold generatePaginationId. rewrite increment_below by exact Hc.
    unfold Sound. cbn [fst instanceIdMap globalInstanceCounter].
    split; [lia|]. split; [|exact Hinj].
    intros o id H. apply Hrange in H. lia.
Qed.

(** What a call returns: a fresh identifier, above the counter, unless it
    is asked for an object that has one. *)
Lemma serve_result q st :
  globalInstanceCounter st < 2 ^ 53 ->
  (snd (serve q st) <= globalInstanceCounter st ->
   exists o, q = ForInstance o
             /\ instanceIdMap st !! o = Some (snd (serve q st)))
  /\ (forall o id, q = ForInstance o -> instanceIdMap st !! o = Some id ->
                   snd (serve q st) = id).
Proof.
  intros Hc. destruct q as [o|]; cbn; unfold getInstanceId.
  - destruct (instanceIdMap st !! o) as [id|] eqn:E; cbn.
    + split; [intros _; now exists o|]. intros o' id' [= <-]. congruence.
    + rewrite increment_below by exact Hc. split; [lia|].
      intros o' id' [= <-]. congruence.
  - rewrite increment_below by exact Hc. split; [lia | discriminate].
Qed.

(** The map only grows, and what it gains lies above the old counter. *)
Lemma serve_keeps q st o id :
  instanceIdMap st !! o = Some id ->
  instanceIdMap (fst (serve q st)) !! o = Some id.
Proof.
  intros H. destruct q as [o'|]; cbn; [|exact H]. unfold getInstanceId.
  destruct (instanceIdMap st !! o') as [id'|] eqn:E; cbn; [exact H|].
  rewrite lookup_insert_ne; [exact H | congruence].
Qed.

Lemma serve_gains q st o id :
  globalInstanceCounter st < 2 ^ 53 ->
  instanceIdMap (fst (serve q st)) !! o = Some id ->
  id <= globalInstanceCounter st ->
  instanceIdMap st !! o = Some id.
Proof.
  intros Hc. destruct q as [o'|]; cbn; [|tauto]. unfold getInstanceId.
  destruct (instanceIdMap st !! o') as [id'|] eqn:E; cbn; [tauto|].
  rewrite increment_below by exact Hc.
  destruct (decide (o = o')) as [-> | Hne].
  - rewrite lookup_insert_eq. intros [= <-]. lia.
  - rewrite lookup_insert_ne by congruence. tauto.
Qed.

Lemma run_cons q rest st :
  run (q :: rest) st
  = (fst (run rest (fst (serve q st))),
     snd (serve q st) :: snd (run rest (fst (serve q st)))).
Proof.
  cbn [run]. destruct (serve q st) as [st1 id]. cbn [fst snd].
  now destruct (run rest st1).
Qed.

(** A later answer that is not above the present counter is the
    identifier some object already has; and an object that has one is
    answered with it. *)
Lemma run_result requests : forall st j q r,
  globalInstanceCounter st + Z.of_nat (length requests) <= 2 ^ 53 ->
  nth_error requests j = Some q ->
  nth_error (snd (run requests st)) j = Some r ->
  (r <= globalInstanceCounter st ->
   exists o, q = ForInstance o /\ instanceIdMap st !! o = Some r)
  /\ (forall o id, q = ForInstance o -> instanceIdMap st !! o = Some id ->
                   r = id).
Proof.
  induction requests as [|q0 rest IH]; intros st j q r Hlen Hq Hr;
    [now destruct j|].
  cbn [length] in Hlen. rewrite run_cons in Hr. cbn [snd] in Hr.
  assert (Hc : globalInstanceCounter st < 2 ^ 53) by lia.
  pose proof (serve_counter q0 st Hc) as Hstep.
  destruct j as [|j]; cbn in Hq, Hr.
  - injection Hq as ->. injection Hr as <-. now apply serve_result.
  - destruct (IH (fst (serve q0 st)) j q r ltac:(lia) Hq Hr) as [Hold Hsame].
    split.
    + intros Hle. destruct Hold as (o & -> & Ho); [lia|].
      exists o. split; [reflexivity|]. now apply (serve_gains q0).
    + intros o id -> Ho. apply (Hsame o id eq_refl).
      now apply serve_keeps.
Qed.

Lemma run_distinct requests : forall st i j qi qj ri rj,
  Sound st ->
  globalInstanceCounter st + Z.of_nat (length requests) <= 2 ^ 53 ->
  nth_error requests i = Some qi -> nth_error requests j = Some qj ->
  nth_error (snd (run requests st)) i = Some ri ->
  nth_error (snd (run requests st)) j = Some rj ->
  (i < j)%nat ->
  (ri = rj <-> exists o, qi = ForInstance o /\ qj = ForInstance o).
Proof.
  induction requests as [|q0 rest IH]; intros st i j qi qj ri rj Hs Hlen
    Hqi Hqj Hri Hrj Hij; [now destruct i|].
  cbn [length] in Hlen. rewrite run_cons in Hri, Hrj. cbn [snd] in Hri, Hrj.
  assert (Hc : globalInstanceCounter st < 2 ^ 53) by lia.
  pose proof (serve_counter q0 st Hc) as Hstep.
  pose proof (serve_sound q0 st Hs Hc) as Hs1.
  destruct j as [|j]; [lia|]. cbn in Hqj, Hrj.
  destruct i as [|i]; cbn in Hqi, Hri.
  - injection Hqi as ->. injection Hri as <-.
    destruct (run_result rest (fst (serve qi st)) j qj rj ltac:(lia) Hqj Hrj)
      as [Hold Hsame].
    destruct (serve_result qi st Hc) as [Hfirst Hknown].
    destruct Hs as (Hpos & Hrange & Hinj).
    destruct Hs1 as (Hpos1 & Hrange1 & Hinj1).
    assert (Hmine : forall o, qi = ForInstance o ->
              instanceIdMap (fst (serve qi st)) !! o
              = Some (snd (serve qi st))).
    { intros o ->. cbn. unfold getInstanceId.
      destruct (instanceIdMap st !! o) as [id|] eqn:E; cbn; [exact E|].
      apply lookup_insert_eq. }
    split.
    + intros Heq. destruct Hold as (o & -> & Ho).
      { rewrite <- Heq. destruct qi as [o|]; cbn; unfold getInstanceId.
        - destruct (instanceIdMap st !! o) as [id|] eqn:E; cbn.
          + apply Hrange in E. lia.
          + lia.
        - lia. }
      exists o. split; [|reflexivity].
      destruct qi as [o'|].
      * f_equal. apply (Hinj1 o' o rj); [|exact Ho].
        rewrite <- Heq. now apply Hmine.
      * exfalso. cbn in Heq, Ho. rewrite <- Heq in Ho.
        apply Hrange in Ho. rewrite increment_below in Ho by exact Hc. lia.
    + intros (o & -> & ->). symmetry. apply (Hsame o _ eq_refl).
      now apply Hmine.
  - apply (IH (fst (serve q0 st)) i j qi qj ri rj); try assumption; lia.
Qed.

End InstanceFacts.

(** Property X19.  Over any series of calls made from the start of the
    module, fewer than [2^53] of them, two calls return the same
    identifier exactly when both are [getInstanceId] on the same object:
    an object keeps its identifier, two objects never share one, and an
    identifier from [generatePaginationId] is returned once only. *)
Theorem instance_ids_identify :
  forall (requests : list Instances.Request) i j qi qj ri rj,
    Z.of_nat (length requests) < 2 ^ 53 ->
    nth_error requests i = Some qi -> nth_error requests j = Some qj ->
    nth_error (snd (Instances.run requests Instances.initial)) i = Some ri ->
    nth_error (snd (Instances.run requests Instances.initial)) j = Some rj ->
    (ri = rj
     <-> i = j
         \/ exists o, qi = Instances.ForInstance o
                      /\ qj = Instances.ForInstance o).
Proof.
  intros requests i j qi qj ri rj Hlen Hqi Hqj Hri Hrj.
  assert (Hs : Instances.Sound Instances.initial).
  { unfold Instances.Sound. cbn. split; [lia|].
    split; intros *; rewrite lookup_empty; discriminate. }
  assert (Hroom : Instances.globalInstanceCounter Instances.initial
                  + Z.of_nat (length requests) <= 2 ^ 53) by (cbn; lia).
  destruct (Nat.lt_total i j) as [Hlt | [-> | Hgt]].
  - rewrite (run_distinct requests _ i j qi qj ri rj Hs Hroom Hqi Hqj Hri Hrj
               Hlt).
    split; [intros H; now right | intros [-> | H]; [lia | exact H]].
  - split; [now left | intros _; congruence].
  - pose proof (run_distinct requests _ j i qj qi rj ri Hs Hroom Hqj Hqi Hrj
                  Hri Hgt) as H.
    split.
    + intros E. symmetry in E. apply H in E as (o & -> & ->).
      right. now exists o.
    + intros [-> | (o & -> & ->)]; [lia|]. symmetry. apply H. now exists o.
Qed.

Lemma instance_ids_identify_witness :
  1 = 1
  <-> 0%nat = 2%nat
      \/ exists o, Instances.ForInstance 7 = Instances.ForInstance o
                   /\ Instances.ForInstance 7 = Instances.ForInstance o.
Proof.
  exact (instance_ids_identify
           [Instances.ForInstance 7; Instances.ForPagination;
            Instances.ForInstance 7; Instances.ForInstance 8]
           0 2 (Instances.ForInstance 7) (Instances.ForInstance 7) 1 1
           eq_refl eq_refl eq_refl eq_refl eq_refl).
Defined.

(** * Facts about the cookie helpers *)

Section CookieFacts.

Import Cookies.

Variable decodeURIComponent : string -> option string.

Lemma split_cons sep s : exists piece pieces, split sep s = piece :: pieces.
Proof.
  induction s as [|c s (piece & pieces & IH)]; cbn; [eauto|].
  destruct (Ascii.eqb c sep); [eauto|]. rewrite IH. eauto.
Qed.

Lemma append_cons c s t : String c s +:+ t = String c (s +:+ t).
Proof. reflexivity. Qed.

Lemma split_before sep name rest :
  contains sep name = false ->
  split sep (name +:+ String sep rest) = name :: split sep rest.
Proof.
  induction name as [|c name IH]; cbn [contains].
  - intros _. change (EmptyString +:+ String sep rest) with (String sep rest).
    cbn [split]. now rewrite Ascii.eqb_refl.
  - intros H. apply orb_false_iff in H as [Hc Hname].
    rewrite append_cons. cbn [split]. rewrite Hc, (IH Hname). reflexivity.
Qed.

Lemma join_cons sep part next rest :
  join sep (part :: next :: rest)
  = part +:+ String sep (join sep (next :: rest)).
Proof. reflexivity. Qed.

Lemma join_split sep s : join sep (split sep s) = s.
Proof.
  induction s as [|c s IH]; [reflexivity|]. cbn [split].
  destruct (split_cons sep s) as (piece & pieces & E). rewrite E in *.
  destruct (Ascii.eqb_spec c sep) as [-> | Hne].
  - now rewrite join_cons, IH.
  - destruct pieces as [|next pieces].
    + cbn [join] in *. now rewrite IH.
    + rewrite join_cons in *. now rewrite append_cons, IH.
Qed.

Lemma parseCookie_filed cookies cookie :
  parseCookie decodeURIComponent cookies cookie
  = if isEmpty (nameOf cookie) then cookies
    else assign (nameOf cookie) (valueOf decodeURIComponent cookie) cookies.
Proof.
  unfold parseCookie, nameOf, valueOf.
  destruct (split_cons "=" cookie) as (rawName & valueParts & ->).
  cbn [hd tl]. destruct (isEmpty (trim rawName)); [reflexivity|].
  now destruct (decodeURIComponent _).
Qed.

Lemma parseCookies_fold header :
  parseCookies decodeURIComponent (Some header)
  = fold_left (parseCookie decodeURIComponent) (split ";" header) ∅.
Proof.
  unfold parseCookies. now destruct header.
Qed.

Lemma isEmpty_true s : isEmpty s = true <-> s = EmptyString.
Proof. destruct s; cbn; split; congruence. Qed.

Lemma parseCookie_lookup cookies cookie name :
  name <> EmptyString -> name <> "__proto__" ->
  parseCookie decodeURIComponent cookies cookie !! name
  = if String.eqb (nameOf cookie) name
    then Some (valueOf decodeURIComponent cookie)
    else cookies !! name.
Proof.
  intros Hname Hproto. rewrite parseCookie_filed.
  destruct (String.eqb_spec (nameOf cookie) name) as [E | E].
  - destruct (isEmpty (nameOf cookie)) eqn:Hempty.
    + apply isEmpty_true in Hempty. congruence.
    + unfold assign. destruct (String.eqb_spec (nameOf cookie) "__proto__");
        [congruence|].
      rewrite E. apply lookup_insert_eq.
  - destruct (isEmpty (nameOf cookie)); [reflexivity|]. unfold assign.
    destruct (String.eqb (nameOf cookie) "__proto__"); [reflexivity|].
    now apply lookup_insert_ne.
Qed.

Lemma find_snoc {A} (f : A -> bool) (l : list A) (x : A) :
  find f (l ++ [x])%list
  = match find f l with
    | Some y => Some y
    | None => if f x then Some x else None
    end.
Proof.
  induction l as [|y l IH]; cbn; [reflexivity|]. now destruct (f y).
Qed.

Lemma fold_lookup pieces : forall cookies name,
  name <> EmptyString -> name <> "__proto__" ->
  fold_left (parseCookie decodeURIComponent) pieces cookies !! name
  = match find (fun cookie => String.eqb (nameOf cookie) name) (rev pieces) with
    | Some cookie => Some (valueOf decodeURIComponent cookie)
    | None => cookies !! name
    end.
Proof.
  induction pieces as [|cookie pieces IH]; intros cookies name Hname Hproto;
    [reflexivity|].
  cbn [fold_left rev]. rewrite (IH _ name Hname Hproto), find_snoc.
  destruct (find _ (rev pieces)); [reflexivity|].
  rewrite parseCookie_lookup by assumption.
  now destruct (String.eqb (nameOf cookie) name).
Qed.

Lemma find_rev_existsb {A} (f : A -> bool) (l : list A) :
  existsb f l = match find f (rev l) with Some _ => true | None => false end.
Proof.
  induction l as [|x l IH]; [reflexivity|]. cbn [existsb rev].
  rewrite find_snoc, IH. destruct (find f (rev l)); [apply orb_true_r|].
  destruct (f x); reflexivity.
Qed.

End CookieFacts.

(** Property X20.  The value of a cookie is everything after the first
    [=] of its piece, trimmed: the further [=] signs stay in the value.
    It is decoded, or kept as it is when the decoding fails. *)
Theorem cookie_value_keeps_equals :
  forall decodeURIComponent cookies name rest,
    Cookies.contains "=" name = false ->
    Cookies.trim name <> EmptyString ->
    Cookies.trim name <> "__proto__" ->
    Cookies.parseCookie decodeURIComponent cookies (name +:+ String "=" rest)
    = <[Cookies.trim name :=
          match decodeURIComponent (Cookies.trim rest) with
          | Some decoded => decoded
          | None => Cookies.trim rest
          end]> cookies.
Proof.
  intros decode cookies name rest Hname Hempty Hproto.
  unfold Cookies.parseCookie. rewrite split_before by exact Hname.
  rewrite join_split.
  destruct (Cookies.isEmpty (Cookies.trim name)) eqn:E;
    [now apply isEmpty_true in E|].
  unfold Cookies.assign.
  destruct (String.eqb_spec (Cookies.trim name) "__proto__"); [contradiction|].
  now destruct (decode (Cookies.trim rest)).
Qed.

Lemma cookie_value_keeps_equals_witness :
  Cookies.parseCookie Cookies.referenceDecode ∅ " token=a%3Db==%zz "
  = <["token" := "a%3Db==%zz"]> ∅
  /\ Cookies.parseCookie Cookies.referenceDecode ∅ " token=a%3Db== "
     = <["token" := "a=b=="]> ∅.
Proof.
  split.
  - exact (cookie_value_keeps_equals Cookies.referenceDecode ∅ " token"
             "a%3Db==%zz " eq_refl ltac:(discriminate) ltac:(discriminate)).
  - exact (cookie_value_keeps_equals Cookies.referenceDecode ∅ " token"
             "a%3Db== " eq_refl ltac:(discriminate) ltac:(discriminate)).
Defined.

(** Property X21.  [getCookie] answers with the value of the last piece of
    the header filed under the name; when there is none it answers [null],
    unless the name is that of a member of [Object.prototype], which is
    then what comes back.  So [hasCookie] holds exactly when some piece is
    filed under the name or the name is that of such a member. *)
Theorem getCookie_last_wins :
  forall decodeURIComponent inherited header name,
    name <> EmptyString -> name <> "__proto__" ->
    Cookies.getCookie decodeURIComponent inherited (Some header) name
    = match find (fun cookie => String.eqb (Cookies.nameOf cookie) name)
                 (rev (Cookies.split ";" header)) with
      | Some cookie => Cookies.Text (Cookies.valueOf decodeURIComponent cookie)
      | None =>
          if inherited name then Cookies.PrototypeMember else Cookies.Null
      end
    /\ Cookies.hasCookie decodeURIComponent inherited (Some header) name
       = existsb (fun cookie => String.eqb (Cookies.nameOf cookie) name)
                 (Cookies.split ";" header)
         || inherited name.
Proof.
  intros decode inherited header name Hname Hproto.
  assert (Hget : Cookies.getCookie decode inherited (Some header) name
                 = match find (fun cookie =>
                                 String.eqb (Cookies.nameOf cookie) name)
                              (rev (Cookies.split ";" header)) with
                   | Some cookie => Cookies.Text (Cookies.valueOf decode cookie)
                   | None => if inherited name then Cookies.PrototypeMember
                             else Cookies.Null
                   end).
  { unfold Cookies.getCookie.
    rewrite parseCookies_fold, (fold_lookup decode _ ∅ name Hname Hproto).
    destruct (find _ _); [reflexivity|]. now rewrite lookup_empty. }
  split; [exact Hget|]. unfold Cookies.hasCookie.
  rewrite Hget, find_rev_existsb.
  destruct (find _ _); [reflexivity|]. now destruct (inherited name).
Qed.

Lemma getCookie_last_wins_witness :
  Cookies.getCookie Cookies.referenceDecode Cookies.objectMember
    (Some "sid=1; theme=dark; sid=2") "sid"
  = Cookies.Text "2"
  /\ Cookies.hasCookie Cookies.referenceDecode Cookies.objectMember
       (Some "sid=1; theme=dark; sid=2") "valueOf"
     = true.
Proof.
  split.
  - exact (proj1 (getCookie_last_wins Cookies.referenceDecode
                    Cookies.objectMember "sid=1; theme=dark; sid=2" "sid"
                    ltac:(discriminate) ltac:(discriminate))).
  - exact (proj2 (getCookie_last_wins Cookies.referenceDecode
                    Cookies.objectMember "sid=1; theme=dark; sid=2" "valueOf"
                    ltac:(discriminate) ltac:(discriminate))).
Defined.

(** * Facts about the auth proxy *)

Section ProxyFacts.

Import AuthProxy.

Lemma afterRun_ext f g :
  (forall x, f x = g x) -> forall x, afterRun f x = afterRun g x.
Proof.
  intros H x. induction x as [|d x IH]; cbn; rewrite H; [reflexivity|].
  now rewrite IH.
Qed.

Lemma append_nil s : EmptyString +:+ s = s.
Proof. reflexivity. Qed.

Lemma afterRun_spec f x :
  afterRun f x = true
  <-> exists mid rest, x = mid +:+ rest /\ lineFree mid = true /\ f rest = true.
Proof.
  induction x as [|d x IH]; cbn [afterRun].
  - rewrite orb_false_r. split.
    + intros H. now exists EmptyString, EmptyString.
    + intros ([|c mid] & rest & E & _ & H).
      * rewrite append_nil in E. now subst.
      * rewrite append_cons in E. discriminate.
  - rewrite orb_true_iff, andb_true_iff, IH. split.
    + intros [H | [Hd (mid & rest & -> & Hmid & H)]].
      * now exists EmptyString, (String d x).
      * exists (String d mid), rest. cbn [lineFree]. rewrite Hd, Hmid.
        now repeat split.
    + intros ([|c mid] & rest & E & Hmid & H).
      * rewrite append_nil in E. subst. now left.
      * rewrite append_cons in E. injection E as -> ->. cbn [lineFree] in Hmid.
        apply andb_true_iff in Hmid as [Hd Hmid]. right.
        split; [exact Hd|]. now exists mid, rest.
Qed.

(** What the engine reads in the pattern written for a trusted origin,
    and what it makes of it. *)
Lemma pattern_read trusted :
  exists atoms,
    read (wildcards (escape trusted) +:+ "$") = Some atoms
    /\ forall origin, fullMatch atoms origin = glob trusted origin.
Proof.
  induction trusted as [|c trusted (atoms & Hread & Hsem)].
  - exists [End_]. split; reflexivity.
  - destruct c as [[] [] [] [] [] [] [] []];
      cbn [escape wildcards isSpecial existsb Ascii.eqb Bool.eqb orb andb];
      rewrite !append_cons;
      cbn [read isSyntax existsb Ascii.eqb Bool.eqb orb andb];
      rewrite Hread; cbn [option_map];
      (eexists; split; [reflexivity|]); intros origin;
      cbn [fullMatch glob Ascii.eqb Bool.eqb andb];
      first [ now apply afterRun_ext
            | destruct origin as [|d origin]; [|rewrite Hsem];
              destruct atoms; reflexivity ].
Qed.

Lemma glob_literal trusted origin :
  includes "*" trusted = false -> glob trusted origin = String.eqb origin trusted.
Proof.
  revert origin. induction trusted as [|c trusted IH]; intros origin;
    cbn [includes glob].
  - intros _. now destruct origin.
  - intros H. apply orb_false_iff in H as [Hc Hrest]. rewrite Hc.
    destruct origin as [|d origin]; [reflexivity|]. cbn [String.eqb].
    rewrite (IH origin Hrest), (Ascii.eqb_sym d c). now destruct (Ascii.eqb c d).
Qed.

Lemma glob_prefix pre rest origin :
  includes "*" pre = false ->
  (glob (pre +:+ rest) origin = true
   <-> exists tail, origin = pre +:+ tail /\ glob rest tail = true).
Proof.
  revert origin. induction pre as [|c pre IH]; intros origin; cbn [includes].
  - intros _. rewrite append_nil. split.

    + intros H. now exists origin.
    + intros (tail & E & H). rewrite append_nil in E. now subst.
  - intros H. apply orb_false_iff in H as [Hc Hpre].
    rewrite append_cons. cbn [glob]. rewrite Hc.
    destruct origin as [|d origin].
    + split; [discriminate|]. intros (tail & E & _).
      rewrite append_cons in E. discriminate.
    + rewrite andb_true_iff, (IH origin Hpre). split.
      * intros [Hcd (tail & -> & H)]. apply Ascii.eqb_eq in Hcd as ->.
        now exists tail.
      * intros (tail & E & H). rewrite append_cons in E.
        injection E as -> ->. split; [apply Ascii.eqb_refl|]. now exists tail.
Qed.

(** With the reference engine, one turn of the loop is the glob. *)
Lemma reference_trusted origin trusted :
  matchesTrusted referenceEngine origin trusted = glob trusted origin.
Proof.
  unfold matchesTrusted. destruct (includes "*" trusted) eqn:Hstar.
  - cbn [regexTest referenceEngine]. unfold referenceTest, patternOf.
    destruct (pattern_read trusted) as (atoms & Hread & Hsem).
    cbn [read Ascii.eqb Bool.eqb andb]. rewrite Hread. cbn [option_map].
    apply Hsem.
  - symmetry. now apply glob_literal.
Qed.

Lemma allowed_exists e origin site trusted :
  isOriginAllowed e origin site trusted
  = matchesSite e origin site || existsb (matchesTrusted e origin) trusted.
Proof.
  unfold isOriginAllowed. destruct (matchesSite e origin site); [reflexivity|].
  cbn [orb]. induction trusted as [|t trusted IH]; [reflexivity|].
  cbn [existsb]. now destruct (matchesTrusted e origin t).
Qed.

Lemma stripPrefix_app prefix rest :
  stripPrefix prefix (prefix +:+ rest) = Some rest.
Proof.
  induction prefix as [|c prefix IH]; [reflexivity|].
  rewrite append_cons. cbn [stripPrefix]. now rewrite Ascii.eqb_refl.
Qed.

End ProxyFacts.

(** Property X22.  With the reference engine a trusted origin is read as
    a glob: an origin is allowed exactly when it is the origin of the
    site or matches a trusted origin in which [*] stands for any run of
    characters and every other character, the dot and the other
    characters of regular expressions included, stands for itself. *)
Theorem trusted_origins_are_globs :
  forall origin siteUrl trustedOrigins,
    AuthProxy.isOriginAllowed AuthProxy.referenceEngine origin siteUrl
      trustedOrigins
    = AuthProxy.matchesSite AuthProxy.referenceEngine origin siteUrl
      || existsb (fun trusted => AuthProxy.glob trusted origin) trustedOrigins.
Proof.
  intros origin siteUrl trustedOrigins. rewrite allowed_exists. f_equal.
  induction trustedOrigins as [|t trusted IH]; [reflexivity|].
  cbn [existsb]. now rewrite reference_trusted, IH.
Qed.

(** Property X23.  A trusted origin with one [*] allows exactly the
    origins that begin with what stands before the star, end with what
    stands after it, and have no line break in between. *)
Theorem single_wildcard_allows :
  forall pre suf origin,
    AuthProxy.includes "*" pre = false ->
    AuthProxy.includes "*" suf = false ->
    (AuthProxy.isOriginAllowed AuthProxy.referenceEngine origin None
       [pre +:+ String "*" suf] = true
     <-> exists mid,
           origin = pre +:+ mid +:+ suf /\ AuthProxy.lineFree mid = true).
Proof.
  intros pre suf origin Hpre Hsuf.
  rewrite allowed_exists. cbn [AuthProxy.matchesSite existsb orb].
  rewrite orb_false_r, reference_trusted, (glob_prefix pre _ origin Hpre).
  split.
  - intros (tail & -> & H). cbn [AuthProxy.glob] in H.
    rewrite Ascii.eqb_refl in H.
    apply afterRun_spec in H as (mid & rest & -> & Hmid & H).
    rewrite (glob_literal suf rest Hsuf) in H. apply String.eqb_eq in H as ->.
    now exists mid.
  - intros (mid & -> & Hmid). exists (mid +:+ suf). split; [reflexivity|].
    cbn [AuthProxy.glob]. rewrite Ascii.eqb_refl.
    apply afterRun_spec. exists mid, suf. repeat split; [exact Hmid|].
    rewrite (glob_literal suf suf Hsuf). apply String.eqb_refl.
Qed.

Lemma single_wildcard_allows_witness :
  AuthProxy.isOriginAllowed AuthProxy.referenceEngine
    "https://preview-42.vercel.app" None ["https://preview-*.vercel.app"]
  = true.
Proof.
  apply (single_wildcard_allows "https://preview-" ".vercel.app"
           "https://preview-42.vercel.app" eq_refl eq_refl).
  exists "42". split; reflexivity.
Defined.



(** Property X25.  A request under the mount point is forwarded to the
    same path and query on the site; the mount point alone is forwarded
    with a slash added.  What the upstream answers is returned; when the
    forwarding fails the handler raises 502, and outside development its
    message says nothing of the failure. *)
Theorem proxy_forwards_same_path :
  forall e config request proxyRequest site rest,
    AuthProxy.siteUrl config = Some site -> site <> EmptyString ->
    AuthProxy.method request <> "OPTIONS" ->
    AuthProxy.pathname request = "/api/auth" +:+ rest ->
    let target :=
      site +:+ "/api/auth" +:+ (if AuthProxy.isEmpty rest then "/" else rest)
      +:+ AuthProxy.search request in
    let '(reply, result) := AuthProxy.handler e config request proxyRequest in
    AuthProxy.forwardedTo reply = Some target
    /\ AuthProxy.status reply = None
    /\ match proxyRequest target with
       | AuthProxy.Answers response =>
           result = AuthProxy.Returns (Some response)
       | AuthProxy.Fails message =>
           exists text, result = AuthProxy.Raises 502 text
                        /\ (AuthProxy.dev config = false ->
                            text = "Failed to proxy request to Convex")
       end.
Proof.
  intros e config request proxyRequest site rest Hsite Hne Hm Hpath.
  unfold AuthProxy.handler. rewrite Hsite.
  destruct (AuthProxy.isEmpty site) eqn:E; [now destruct site|].
  destruct (String.eqb_spec (AuthProxy.method request) "OPTIONS");
    [contradiction|].
  unfold AuthProxy.stripMount. rewrite Hpath, stripPrefix_app.
  cbn zeta. destruct (proxyRequest _) as [response | message]; cbn.
  - auto.
  - repeat split. eexists. split; [reflexivity|]. now intros ->.
Qed.

Lemma proxy_forwards_same_path_witness :
  AuthProxy.forwardedTo
    (fst (AuthProxy.handler AuthProxy.referenceEngine
            (AuthProxy.mkConfig (Some "https://app.example.com") None false)
            (AuthProxy.mkRequest "POST" None "/api/auth" "?x=1")
            (fun _ => AuthProxy.Fails "ECONNREFUSED")))
  = Some "https://app.example.com/api/auth/?x=1".
Proof.
  exact (proj1 (proxy_forwards_same_path AuthProxy.referenceEngine
                  (AuthProxy.mkConfig (Some "https://app.example.com") None
                     false)
                  (AuthProxy.mkRequest "POST" None "/api/auth" "?x=1")
                  (fun _ => AuthProxy.Fails "ECONNREFUSED")
                  "https://app.example.com" EmptyString eq_refl
                  ltac:(discriminate) ltac:(discriminate) eq_refl)).
Defined.

